(** * The read-correction node: reassembly, batching and decode stages

    A shallow embedding of [CorrectionNode.cpp]: the concatenation of the
    per-window consensus strings, the input worker ([input_thread_fn]),
    the inference batcher ([infer_fn] with its [batch_infer] closure) and
    the decode worker ([decode_fn]), together with the properties the
    specification states about them; then the code around these: the
    parsing of CIGARs and the loading of alignments ([parse_cigar],
    [populate_alignments]), the constructor with its choice of devices and
    batch sizes, and the counters of active threads that end a stage.

    The workers are put together twice: with a loop iteration as a step
    ([sys_step]), which is enough for what depends on the maps alone, and
    with every access to the maps, the queues and the counters as a step
    ([access]), for what relates the maps to the windows on their way and
    to the counters.

    Conventions.
    - [std::string] is [string]; [std::vector] is [list]; the two
      [std::unordered_map]s keyed by read name are [gmap string _].
    - [int] values are [Z]; the narrowing casts of the source are written
      with [to_int].
    - Effects (queues, sink, log, backend calls) are threaded through a
      small state-and-exception monad over [World].
    - Undefined behaviour of the C++ (unchecked indexing out of range,
      dereferencing [end()]) is a separate outcome, [Undefined].
    - Left out, as nothing below depends on them: profiling ranges, trace
      and debug log lines, the loading of the model, the per-device mutex
      around the backend call, and the deadline arithmetic of the timed pop
      (a timeout is a pop result).  The counting of active threads, with
      the termination of the next queue when a worker leaves, is modelled
      on its own ([Stage]), apart from the steps of the workers. *)

From Stdlib Require Import ZArith Ascii String DecimalString DecimalNat.
From stdpp Require Import gmap strings list fin_maps.

Local Open Scope Z_scope.

(** ** Strings *)

(** [std::string::empty]. *)
Definition empty_str (s : string) : bool :=
  match s with
  | EmptyString => true
  | String _ _ => false
  end.

(** [std::to_string] on a [size_t]: the decimal digits. *)
Definition to_string (n : nat) : string :=
  NilEmpty.string_of_uint (Nat.to_uint n).

(** Joining the strings of a run, left to right. *)
Definition join (r : list string) : string :=
  foldr String.append EmptyString r.

(** ** Machine integers *)

(** The value of a cast to 32-bit [int]. *)
Definition to_int (z : Z) : Z :=
  (z + 2 ^ 31) mod 2 ^ 32 - 2 ^ 31.

Definition INT_MIN : Z := - 2 ^ 31.

(** ** Tensors *)

Inductive Device :=
| CPU
| CUDA (index : nat).

Global Instance Device_eq_dec : EqDecision Device.
Proof. solve_decision. Defined.

(** A tensor is described by the device it lives on, its shape and its
    elements in storage order (an [int] element as its value, a [float]
    element as its bit pattern). *)
Record Tensor := mkTensor {
  t_device : Device;
  t_sizes : list Z;
  t_data : list Z;
}.

(** [Tensor::to(device)] returns a tensor on [device]; the receiver is left
    as it was. *)
Definition tensor_to (t : Tensor) (d : Device) : Tensor :=
  {| t_device := d; t_sizes := t_sizes t; t_data := t_data t |}.

(** [at::from_blob(v.data(), {(int)v.size()}, ... kInt32, kCPU)]. *)
Definition from_blob (v : list Z) : Tensor :=
  {| t_device := CPU; t_sizes := [to_int (Z.of_nat (length v))]; t_data := v |}.

(** ** Window features *)

Record WindowFeatures := mkWF {
  bases : Tensor;
  quals : Tensor;
  indices : Tensor;
  length_ : Z;                     (* [int length] *)
  supported : list (Z * Z);
  inferred_bases : list ascii;     (* [std::vector<char>] *)
  n_alns : Z;
  read_name : string;
  window_idx : Z;
}.

Definition set_inferred_bases (wf : WindowFeatures) (b : list ascii) : WindowFeatures :=
  {| bases := bases wf; quals := quals wf; indices := indices wf;
     length_ := length_ wf; supported := supported wf; inferred_bases := b;
     n_alns := n_alns wf; read_name := read_name wf; window_idx := window_idx wf |}.

(** ** Output records *)

(** [create_bam_record]: an unmapped record (flag 4) carrying a name and a
    sequence. *)
Record BamRecord := mkBam {
  bam_qname : string;
  bam_flag : Z;
  bam_seq : string;
}.

Definition create_bam_record (read_id seq : string) : BamRecord :=
  {| bam_qname := read_id; bam_flag := 4; bam_seq := seq |}.

Inductive SinkMessage :=
| BamMessage (rec : BamRecord)
| PassedThrough (payload : string).

(** ** Concatenation of corrected windows *)

(** One iteration of the loop of [concatenate_corrected_windows]; the state
    is [(corrected_seqs, corrected_seq)]. *)
Definition concat_iter (st : list string * string) (s : string) : list string * string :=
  let '(corrected_seqs, corrected_seq) := st in
  if empty_str s then
    if negb (empty_str corrected_seq)
    then (corrected_seqs ++ [corrected_seq], EmptyString)
    else (corrected_seqs, corrected_seq)
  else (corrected_seqs, corrected_seq +:+ s).

(** The code after the loop of [concatenate_corrected_windows], as a
    function of the state the loop ends in. *)
Definition finish (st : list string * string) : list string :=
  if negb (empty_str st.2) then st.1 ++ [st.2] else st.1.

Definition concatenate_corrected_windows (cons : list string) : list string :=
  finish (foldl concat_iter ([], EmptyString) cons).

(** The records [concat_features_and_send] hands to the sink, in order. *)
Definition records_to_send (to_decode : list string) (read_name : string) : list BamRecord :=
  let corrected_seqs := concatenate_corrected_windows to_decode in
  if decide (length corrected_seqs = 1%nat) then
    match corrected_seqs with
    | seq0 :: _ => [create_bam_record read_name seq0]
    | [] => []
    end
  else
    imap (fun s seq => create_bam_record (read_name +:+ ":" +:+ to_string s) seq)
         corrected_seqs.

(** *** The specification's words: maximal runs of non-empty strings *)

(** [runs_of cons rs]: [rs] lists, in order, the maximal runs of non-empty
    strings of [cons].  An empty string separates; a run is a non-empty
    block of non-empty strings that ends at the end of the list or at an
    empty string (and, since whatever follows a run starts with a
    separator, no two runs touch). *)
Inductive runs_of : list string -> list (list string) -> Prop :=
| runs_nil : runs_of [] []
| runs_sep l rs : runs_of l rs -> runs_of (EmptyString :: l) rs
| runs_run r l rs :
    r <> [] ->
    Forall (fun s => s <> EmptyString) r ->
    (l = [] \/ exists l', l = EmptyString :: l') ->
    runs_of l rs ->
    runs_of (r ++ l) (r :: rs).

(** The names of [k] output records for a read. *)
Definition record_names (read_name : string) (k : nat) : list string :=
  if decide (k = 1%nat) then [read_name]
  else (fun s => read_name +:+ ":" +:+ to_string s) <$> seq 0 k.

(** ** The world of the node *)

(** The arguments of [module.forward]: [(bases, quals, lengths, indices)]. *)
Record Inputs := mkInputs {
  in_bases : Tensor;
  in_quals : Tensor;
  in_lengths : Tensor;
  in_indices : list Tensor;
}.

(** What the backend hands back: a tuple of tensors, or something else. *)
Inductive IValue :=
| IVTuple (elements : list Tensor)
| IVOther.

(** The outcome of one call of [module.forward]. *)
Inductive ForwardResult :=
| Returned (output : IValue)
| ThrewRuntimeError (what : string)      (* a [std::runtime_error] *)
| ThrewOther (what : string).            (* any other exception *)

Inductive Exn :=
| RuntimeError (what : string)
| OtherException (what : string).

(** Observable calls and log lines ([spdlog::error], [spdlog::warn]; trace
    and debug lines are not recorded). *)
Inductive Event :=
| LogError (msg : string)
| LogWarn (msg : string)
| CallConcat (name : string) (to_decode : list string)
| CallBatchInfer (batch : list WindowFeatures)
| CallForward (inputs : Inputs)
| CallEmptyCache.

(** What the workers share: the two maps, the two queues, the sink, the
    log, the number of calls of [module.forward] made so far, and the two
    counters of reads, each as the number of increments made (the atomics
    themselves are declared outside [CorrectionNode.cpp]). *)
Record World := mkWorld {
  m_features_by_id : gmap string (list string);
  m_pending_features_by_id : gmap string Z;
  m_features_queue : list WindowFeatures;
  m_inferred_features_queue : list WindowFeatures;
  sink : list SinkMessage;
  events : list Event;
  forward_calls : nat;
  num_reads : nat;
  num_early_reads : nat;
}.

Definition empty_world : World :=
  {| m_features_by_id := ∅; m_pending_features_by_id := ∅;
     m_features_queue := []; m_inferred_features_queue := [];
     sink := []; events := []; forward_calls := 0%nat;
     num_reads := 0%nat; num_early_reads := 0%nat |}.

Definition set_maps (f : gmap string (list string)) (p : gmap string Z) (w : World) : World :=
  {| m_features_by_id := f; m_pending_features_by_id := p;
     m_features_queue := m_features_queue w;
     m_inferred_features_queue := m_inferred_features_queue w;
     sink := sink w; events := events w; forward_calls := forward_calls w;
     num_reads := num_reads w; num_early_reads := num_early_reads w |}.

Definition set_features_queue (q : list WindowFeatures) (w : World) : World :=
  {| m_features_by_id := m_features_by_id w;
     m_pending_features_by_id := m_pending_features_by_id w;
     m_features_queue := q;
     m_inferred_features_queue := m_inferred_features_queue w;
     sink := sink w; events := events w; forward_calls := forward_calls w;
     num_reads := num_reads w; num_early_reads := num_early_reads w |}.

Definition set_inferred_features_queue (q : list WindowFeatures) (w : World) : World :=
  {| m_features_by_id := m_features_by_id w;
     m_pending_features_by_id := m_pending_features_by_id w;
     m_features_queue := m_features_queue w;
     m_inferred_features_queue := q;
     sink := sink w; events := events w; forward_calls := forward_calls w;
     num_reads := num_reads w; num_early_reads := num_early_reads w |}.

Definition set_sink (s : list SinkMessage) (w : World) : World :=
  {| m_features_by_id := m_features_by_id w;
     m_pending_features_by_id := m_pending_features_by_id w;
     m_features_queue := m_features_queue w;
     m_inferred_features_queue := m_inferred_features_queue w;
     sink := s; events := events w; forward_calls := forward_calls w;
     num_reads := num_reads w; num_early_reads := num_early_reads w |}.

Definition set_events (e : list Event) (w : World) : World :=
  {| m_features_by_id := m_features_by_id w;
     m_pending_features_by_id := m_pending_features_by_id w;
     m_features_queue := m_features_queue w;
     m_inferred_features_queue := m_inferred_features_queue w;
     sink := sink w; events := e; forward_calls := forward_calls w;
     num_reads := num_reads w; num_early_reads := num_early_reads w |}.

Definition set_counters (calls reads early : nat) (w : World) : World :=
  {| m_features_by_id := m_features_by_id w;
     m_pending_features_by_id := m_pending_features_by_id w;
     m_features_queue := m_features_queue w;
     m_inferred_features_queue := m_inferred_features_queue w;
     sink := sink w; events := events w; forward_calls := calls;
     num_reads := reads; num_early_reads := early |}.

(** ** A state-and-exception monad *)

Inductive Res (A : Type) :=
| Ok (a : A)
| Throw (e : Exn)
| Undefined.
Arguments Ok {A} a.
Arguments Throw {A} e.
Arguments Undefined {A}.

Definition M (A : Type) : Type := World -> Res A * World.

Definition ret {A} (a : A) : M A := fun w => (Ok a, w).

Definition bind {A B} (c : M A) (k : A -> M B) : M B :=
  fun w =>
    match c w with
    | (Ok a, w') => k a w'
    | (Throw e, w') => (Throw e, w')
    | (Undefined, w') => (Undefined, w')
    end.

Global Instance M_ret : MRet M := @ret.
Global Instance M_bind : MBind M := fun A B k c => bind c k.

Definition throw {A} (e : Exn) : M A := fun w => (Throw e, w).
Definition undefined {A} : M A := fun w => (Undefined, w).
Definition get : M World := fun w => (Ok w, w).
Definition modify (f : World -> World) : M unit := fun w => (Ok tt, f w).

(** An optional value whose absence is undefined behaviour. *)
Definition defined {A} (o : option A) : M A :=
  match o with
  | Some a => ret a
  | None => undefined
  end.

Fixpoint for_each {A} (f : A -> M unit) (l : list A) : M unit :=
  match l with
  | [] => ret tt
  | a :: l' => f a ;; for_each f l'
  end.

Definition record (e : Event) : M unit :=
  modify (fun w => set_events (events w ++ [e]) w).

Definition send_message_to_sink (m : SinkMessage) : M unit :=
  modify (fun w => set_sink (sink w ++ [m]) w).

(** [m_features_queue.try_push] and [m_inferred_features_queue.try_push],
    on a queue that has not been terminated: the item goes to the back. *)
Definition push_features (wf : WindowFeatures) : M unit :=
  modify (fun w => set_features_queue (m_features_queue w ++ [wf]) w).

Definition push_inferred (wf : WindowFeatures) : M unit :=
  modify (fun w => set_inferred_features_queue (m_inferred_features_queue w ++ [wf]) w).

(** ** [concat_features_and_send] *)

Definition concat_features_and_send (to_decode : list string) (name : string) : M unit :=
  record (CallConcat name to_decode) ;;
  for_each (fun r => send_message_to_sink (BamMessage r)) (records_to_send to_decode name).

(** ** The inference batcher: local state of [infer_fn] *)

Record Batcher := mkBatcher {
  bases_batch : list Tensor;
  quals_batch : list Tensor;
  lengths : list Z;
  sizes : list Z;
  indices_batch : list Tensor;
  wfs : list WindowFeatures;
  remaining_batch_slots : Z;
}.

(** The accumulators as [infer_fn] declares them. *)
Definition new_batcher (batch_size : Z) : Batcher :=
  {| bases_batch := []; quals_batch := []; lengths := []; sizes := [];
     indices_batch := []; wfs := []; remaining_batch_slots := batch_size |}.

(** The static table of [decode_preds]. *)
Definition decoder : list ascii := ["A"; "C"; "G"; "T"; "*"]%char.

(** [decode_preds]: one character per prediction.  [decoder[base_idx]] is
    unchecked, so an index outside the table has no defined result. *)
Definition decode_preds (preds : list Z) : option (list ascii) :=
  mapM (fun base_idx : Z =>
          if decide (0 <= base_idx) then decoder !! Z.to_nat base_idx else None)
       preds.

(** The chunks of [split_with_sizes] along dimension 0. *)
Fixpoint split_chunks (l : list Z) (sizes : list Z) : list (list Z) :=
  match sizes with
  | [] => []
  | n :: ns => take (Z.to_nat n) l :: split_chunks (drop (Z.to_nat n) l) ns
  end.

Definition sum_list_Z (l : list Z) : Z := foldr Z.add 0 l.

(** [Tensor::split_with_sizes]: the sizes must be non-negative and add up to
    the length of the split dimension; otherwise the call throws. *)
Definition split_with_sizes (preds : list Z) (sizes : list Z) : option (list (list Z)) :=
  if decide (Forall (fun n => 0 <= n) sizes /\ sum_list_Z sizes = Z.of_nat (length preds))
  then Some (split_chunks preds sizes)
  else None.

(** The loop [for w < split_preds.size(): wfs[w].inferred_bases = decode_preds(split_preds[w])]. *)
Fixpoint assign_inferred (w : nat) (split_preds : list (list Z)) (wfs : list WindowFeatures)
  : option (list WindowFeatures) :=
  match split_preds with
  | [] => Some wfs
  | p :: ps =>
      match decode_preds p, wfs !! w with
      | Some decoded_output, Some wf =>
          assign_inferred (S w) ps (<[w := set_inferred_bases wf decoded_output]> wfs)
      | _, _ => None
      end
  end.

(** What one call of [try_pop_until] hands the loop before the queue
    terminates. *)
Inductive Popped :=
| Item (item : WindowFeatures)
| TimedOut.

(** A message taken by [get_input_message].  For a [CorrectionAlignments]
    message, [features] is the result of [extract_features], or [None] when
    [populate_alignments] or [extract_windows] returned [false]. *)
Inductive Message :=
| CorrectionAlignments (tname : string) (features : option (list WindowFeatures))
| OtherMessage (payload : string).

Section Node.

Set Default Proof Using "Type".

(** Code of the repository that lies outside [CorrectionNode.cpp], the
    backend and the build configuration. *)
Variable decode_window : WindowFeatures -> string.
Variable collate : list Tensor -> Z -> Tensor.
Variable transpose01 : Tensor -> Tensor.
Variable argmax1 : Tensor -> list Z.    (* [argmax(1, false).to(kCPU)], element by element *)
Variable module_forward : nat -> Inputs -> ForwardResult.   (* by number of earlier calls *)
Variable DORADO_CUDA_BUILD : bool.

(** One call of [module.forward(inputs)]. *)
Definition call_forward (inputs : Inputs) : M ForwardResult :=
  w ← get;
  modify (set_counters (S (forward_calls w)) (num_reads w) (num_early_reads w)) ;;
  record (CallForward inputs) ;;
  mret (module_forward (forward_calls w) inputs).

(** A call outside any [try]: what it throws is thrown on. *)
Definition rethrow {A} (r : ForwardResult) (k : IValue -> M A) : M A :=
  match r with
  | Returned output => k output
  | ThrewRuntimeError what => throw (RuntimeError what)
  | ThrewOther what => throw (OtherException what)
  end.

(** The [try]/[catch] around [module.forward]. *)
Definition forward_with_retry (inputs : Inputs) : M IValue :=
  r ← call_forward inputs;
  match r with
  | Returned output => mret output
  | ThrewRuntimeError what =>
      if DORADO_CUDA_BUILD then
        record (LogWarn ("Caught Torch error '" +:+ what +:+
                         "', clearing CUDA cache and retrying.")) ;;
        record CallEmptyCache ;;
        r' ← call_forward inputs;
        rethrow r' mret
      else throw (RuntimeError what)
  | ThrewOther what => throw (OtherException what)
  end.

(** The [move_to_device] block.  The lambda handed to [std::for_each] calls
    [t.to(device)] and drops the tensor it returns, so the elements of
    [indices_batch] are the ones pushed into [inputs]. *)
Definition move_to_device (device : Device)
    (batched_bases batched_quals length_tensor : Tensor)
    (indices_batch : list Tensor) : Inputs :=
  let indices_batch' := (fun t => let _ := tensor_to t device in t) <$> indices_batch in
  {| in_bases := tensor_to batched_bases device;
     in_quals := tensor_to batched_quals device;
     in_lengths := tensor_to length_tensor device;
     in_indices := indices_batch' |}.

(** The closure [batch_infer]. *)
Definition batch_infer (device : Device) (batch_size : Z) (b : Batcher) : M Batcher :=
  record (CallBatchInfer (wfs b)) ;;
  let length_tensor := from_blob (lengths b) in
  let batched_bases := collate (bases_batch b) 11 in
  let batched_quals := collate (quals_batch b) 0 in
  let inputs := move_to_device device batched_bases batched_quals length_tensor
                               (indices_batch b) in
  output ← forward_with_retry inputs;
  match output with
  | IVOther => throw (RuntimeError "Expected inference result to be tuple.")
  | IVTuple elements =>
      base_logits ← defined (elements !! 1%nat);
      let preds := argmax1 base_logits in
      match split_with_sizes preds (sizes b) with
      | None => throw (OtherException "split_with_sizes")
      | Some split_preds =>
          wfs' ← defined (assign_inferred 0 split_preds (wfs b));
          for_each push_inferred wfs' ;;
          mret (new_batcher batch_size)
      end
  end.

(** [(int)item.bases.sizes()[1] / 5120 + 1]; C++ division truncates. *)
Definition required_batch_slots (item : WindowFeatures) : option Z :=
  W ← t_sizes (bases item) !! 1%nat;
  Some (Z.quot (to_int W) 5120 + 1).

(** The pushes that take a window into the accumulators, from
    [wfs.push_back(std::move(item))] to
    [remaining_batch_slots -= required_batch_slots]. *)
Definition accept (item : WindowFeatures) (required : Z) (b : Batcher) : Batcher :=
  let wf := item in
  let b_ := transpose01 (bases wf) in
  let q := transpose01 (quals wf) in
  {| bases_batch := bases_batch b ++ [b_];
     quals_batch := quals_batch b ++ [q];
     lengths := lengths b ++ [length_ wf];
     sizes := sizes b ++ [length_ wf];
     indices_batch := indices_batch b ++ [indices wf];
     wfs := wfs b ++ [wf];
     remaining_batch_slots := remaining_batch_slots b - required |}.

(** The body of the loop of [infer_fn] after a successful pop. *)
Definition infer_on_item (device : Device) (batch_size : Z)
    (item : WindowFeatures) (b : Batcher) : M Batcher :=
  required ← defined (required_batch_slots item);
  b ← (if decide (required > remaining_batch_slots b)
       then batch_infer device batch_size b
       else mret b);
  mret (accept item required b).

(** The body of the loop after a timeout, which is also the code after the
    loop: flush when there are samples. *)
Definition flush_if_any (device : Device) (batch_size : Z) (b : Batcher) : M Batcher :=
  if decide (0 < length (bases_batch b))%nat
  then batch_infer device batch_size b
  else mret b.

Definition infer_iteration (device : Device) (batch_size : Z)
    (p : Popped) (b : Batcher) : M Batcher :=
  match p with
  | Item item => infer_on_item device batch_size item b
  | TimedOut => flush_if_any device batch_size b
  end.

Fixpoint infer_loop (device : Device) (batch_size : Z)
    (pops : list Popped) (b : Batcher) : M Batcher :=
  match pops with
  | [] => mret b
  | p :: pops' =>
      b' ← infer_iteration device batch_size p b;
      infer_loop device batch_size pops' b'
  end.

(** [infer_fn] on the pop results [pops] that precede [Terminate]: the
    loop, then the flush after the loop.  The result is the state of the
    accumulators when the worker leaves. *)
Definition infer_fn (device : Device) (batch_size : Z) (pops : list Popped) : M Batcher :=
  b ← infer_loop device batch_size pops (new_batcher batch_size);
  flush_if_any device batch_size b.

(** ** The input worker *)

(** The test [wfs[w].n_alns > 1 && wfs[w].supported.size() > 0]. *)
Definition needs_inference (wf : WindowFeatures) : bool :=
  bool_decide (n_alns wf > 1) && bool_decide (0 < length (supported wf))%nat.

(** The loop over [w] that moves the windows to infer into
    [features_to_infer] and decodes the others into [corrected_seqs[w]]. *)
Fixpoint sort_windows (w : nat) (wfs : list WindowFeatures)
    (corrected_seqs : list string) (features_to_infer : list WindowFeatures)
  : list string * list WindowFeatures :=
  match wfs with
  | [] => (corrected_seqs, features_to_infer)
  | wf :: rest =>
      if needs_inference wf
      then sort_windows (S w) rest corrected_seqs (features_to_infer ++ [wf])
      else sort_windows (S w) rest (<[w := decode_window wf]> corrected_seqs) features_to_infer
  end.

(** [std::unordered_map::insert]: an existing key keeps its value. *)
Definition umap_insert {V} (k : string) (v : V) (m : gmap string V) : gmap string V :=
  match m !! k with
  | Some _ => m
  | None => <[k := v]> m
  end.

Definition bump_early_reads : M unit :=
  modify (fun w => set_counters (forward_calls w) (num_reads w) (S (num_early_reads w)) w).

Definition bump_reads : M unit :=
  modify (fun w => set_counters (forward_calls w) (S (num_reads w)) (num_early_reads w) w).

(** The body of the loop of [input_thread_fn] for one message. *)
Definition input_message (message : Message) : M unit :=
  match message with
  | CorrectionAlignments tname None => mret tt
  | CorrectionAlignments tname (Some wfs) =>
      let '(corrected_seqs, features_to_infer) :=
        sort_windows 0 wfs (replicate (length wfs) EmptyString) [] in
      match features_to_infer with
      | [] =>
          bump_early_reads ;;
          concat_features_and_send corrected_seqs tname ;;
          for_each push_features features_to_infer ;;
          bump_reads
      | _ :: _ =>
          w ← get;
          match m_features_by_id w !! tname with
          | None =>
              modify (set_maps
                        (umap_insert tname corrected_seqs (m_features_by_id w))
                        (umap_insert tname (to_int (Z.of_nat (length features_to_infer)))
                                     (m_pending_features_by_id w))) ;;
              for_each push_features features_to_infer ;;
              bump_reads
          | Some _ =>
              record (LogError ("Features for " +:+ tname +:+ " already exist! Skipping."))
          end
      end
  | OtherMessage payload => send_message_to_sink (PassedThrough payload)
  end.

(** ** The decode worker *)

(** The body of the loop of [decode_fn] for one popped item.  The index
    [pos] is converted to [size_t], so a negative [window_idx] is out of
    range like one that is too large. *)
Definition decode_iteration (item : WindowFeatures) : M unit :=
  let name := read_name item in
  let pos := window_idx item in
  let corrected_seq := decode_window item in
  w ← get;
  match m_features_by_id w !! name with
  | None => record (LogError ("Decoded feature list not found for " +:+ name +:+ "."))
  | Some output_features =>
      if decide (0 <= pos < Z.of_nat (length output_features)) then
        let output_features := <[Z.to_nat pos := corrected_seq]> output_features in
        pending ← defined (m_pending_features_by_id w !! name);
        if decide (pending = INT_MIN) then undefined else
        let pending := pending - 1 in
        if decide (pending = 0) then
          let to_decode := output_features in
          modify (set_maps (delete name (m_features_by_id w))
                           (delete name (m_pending_features_by_id w))) ;;
          match to_decode with
          | [] => mret tt
          | _ :: _ => concat_features_and_send to_decode name
          end
        else
          modify (set_maps (<[name := output_features]> (m_features_by_id w))
                           (<[name := pending]> (m_pending_features_by_id w)))
      else undefined
  end.

(** ** The node as a transition system *)

Record InferWorker := mkInferWorker {
  iw_device : Device;
  iw_batch_size : Z;
  iw_batcher : Batcher;
}.

Record Sys := mkSys {
  world : World;
  workers : list InferWorker;
}.

(** The steps of the workers.  Each is one loop iteration; the critical
    sections under [m_features_mutex] lie inside single steps.  The queues
    have several consumers, and a consumer that popped first may act last,
    so a step may take any queued item. *)
Inductive Label :=
| InputStep (message : Message)
| InferPop (i k : nat)        (* worker [i] takes the queued item [k] *)
| InferFlush (i : nat)        (* worker [i] times out, or leaves its loop *)
| DecodeStep (k : nat).       (* a decode worker takes the queued item [k] *)

(** A computation that throws or runs into undefined behaviour ends the
    process: there is no next state. *)
Definition exec {A} (c : M A) (w : World) : option (A * World) :=
  match c w with
  | (Ok a, w') => Some (a, w')
  | _ => None
  end.

Definition with_batcher (iw : InferWorker) (b : Batcher) : InferWorker :=
  {| iw_device := iw_device iw; iw_batch_size := iw_batch_size iw; iw_batcher := b |}.

Definition sys_step (l : Label) (s : Sys) : option Sys :=
  match l with
  | InputStep message =>
      '(_, w') ← exec (input_message message) (world s);
      Some {| world := w'; workers := workers s |}
  | InferPop i k =>
      iw ← workers s !! i;
      item ← m_features_queue (world s) !! k;
      '(b', w') ← exec (infer_on_item (iw_device iw) (iw_batch_size iw) item (iw_batcher iw))
                       (set_features_queue (delete k (m_features_queue (world s))) (world s));
      Some {| world := w'; workers := <[i := with_batcher iw b']> (workers s) |}
  | InferFlush i =>
      iw ← workers s !! i;
      '(b', w') ← exec (flush_if_any (iw_device iw) (iw_batch_size iw) (iw_batcher iw))
                       (world s);
      Some {| world := w'; workers := <[i := with_batcher iw b']> (workers s) |}
  | DecodeStep k =>
      item ← m_inferred_features_queue (world s) !! k;
      '(_, w') ← exec (decode_iteration item)
                      (set_inferred_features_queue
                         (delete k (m_inferred_features_queue (world s))) (world s));
      Some {| world := w'; workers := workers s |}
  end.

Fixpoint run (ls : list Label) (s : Sys) : option Sys :=
  match ls with
  | [] => Some s
  | l :: ls' => s' ← sys_step l s; run ls' s'
  end.

(** The node as the constructor leaves it: empty maps and queues, one
    inference worker per [(device, batch_size)]. *)
Definition init_sys (cfgs : list (Device * Z)) : Sys :=
  {| world := empty_world;
     workers := (fun c => {| iw_device := c.1; iw_batch_size := c.2;
                             iw_batcher := new_batcher c.2 |}) <$> cfgs |}.

(** What is taken from [extract_features], whose code lies elsewhere:
    every window carries the name of its read and its own position, and
    the window count fits an [int]. *)
Definition wf_message (m : Message) : Prop :=
  match m with
  | CorrectionAlignments tname (Some wfs) =>
      Z.of_nat (length wfs) < 2 ^ 31 /\
      forall (w : nat) wf, wfs !! w = Some wf ->
        read_name wf = tname /\ window_idx wf = Z.of_nat w
  | _ => True
  end.

Definition wf_label (l : Label) : Prop :=
  match l with
  | InputStep m => wf_message m
  | _ => True
  end.

(** The windows between the input worker and the decode worker. *)
Definition in_flight (s : Sys) : list WindowFeatures :=
  m_features_queue (world s)
  ++ concat ((fun iw => wfs (iw_batcher iw)) <$> workers s)
  ++ m_inferred_features_queue (world s).

(** The slots of read [n] that windows in flight will write. *)
Definition in_flight_idx (n : string) (s : Sys) : list Z :=
  window_idx <$> filter (fun wf => read_name wf = n) (in_flight s).

(** *** A history variable: assignments per slot

    For every pending record, how often each slot has been assigned since
    the record was made: once for a window decoded at ingestion
    ([corrected_seqs[w] = decode_window(wfs[w])]), and once more for each
    [output_features[pos] = ...] of the decode worker. *)
Definition initial_writes (wfs : list WindowFeatures) : list nat :=
  (fun wf => if needs_inference wf then 0%nat else 1%nat) <$> wfs.

Definition bump_slot (pos : nat) (wr : list nat) : list nat :=
  match wr !! pos with
  | Some c => <[pos := S c]> wr
  | None => wr
  end.

Definition track_writes (l : Label) (s s' : Sys) (g : gmap string (list nat))
  : gmap string (list nat) :=
  match l with
  | InputStep (CorrectionAlignments tname (Some wfs)) =>
      match m_features_by_id (world s) !! tname, m_features_by_id (world s') !! tname with
      | None, Some _ => <[tname := initial_writes wfs]> g
      | _, _ => g
      end
  | DecodeStep k =>
      match m_inferred_features_queue (world s) !! k with
      | Some item =>
          match m_features_by_id (world s) !! read_name item,
                m_features_by_id (world s') !! read_name item with
          | Some _, Some _ => alter (bump_slot (Z.to_nat (window_idx item))) (read_name item) g
          | Some _, None => delete (read_name item) g
          | None, _ => g
          end
      | None => g
      end
  | _ => g
  end.

Fixpoint run_tracked (ls : list Label) (s : Sys) (g : gmap string (list nat))
  : option (Sys * gmap string (list nat)) :=
  match ls with
  | [] => Some (s, g)
  | l :: ls' =>
      s' ← sys_step l s;
      run_tracked ls' s' (track_writes l s s' g)
  end.

(** The windows handed to [batch_infer] so far, call after call. *)
Definition batched (evs : list Event) : list WindowFeatures :=
  concat ((fun e => match e with CallBatchInfer batch => batch | _ => [] end) <$> evs).

Definition items (pops : list Popped) : list WindowFeatures :=
  concat ((fun p => match p with Item item => [item] | TimedOut => [] end) <$> pops).

(** Two worlds that differ at most in their log. *)
Definition same_but_events (w1 w2 : World) : Prop :=
  set_events [] w1 = set_events [] w2.

(** What holds between the accumulators of a worker. *)
Definition batcher_ok (b : Batcher) : Prop :=
  sizes b = length_ <$> wfs b /\
  lengths b = length_ <$> wfs b /\
  indices_batch b = indices <$> wfs b /\
  length (bases_batch b) = length (wfs b) /\
  length (quals_batch b) = length (wfs b).

(** The slot vector the input worker builds: the decoded string for a
    window decoded at ingestion, the empty string of [resize] for a window
    that goes to inference. *)
Definition initial_slots (wfs : list WindowFeatures) : list string :=
  (fun wf => if needs_inference wf then EmptyString else decode_window wf) <$> wfs.

(** The windows [features_to_infer] holds after the loop. *)
Definition to_infer (wfs : list WindowFeatures) : list WindowFeatures :=
  filter (fun wf => needs_inference wf = true) wfs.

(** The inputs [batch_infer] builds from the accumulators. *)
Definition batch_inputs (device : Device) (b : Batcher) : Inputs :=
  move_to_device device (collate (bases_batch b) 11) (collate (quals_batch b) 0)
                 (from_blob (lengths b)) (indices_batch b).

(** What reassembly reads of a window: its read and its slot. *)
Definition key (wf : WindowFeatures) : string * Z := (read_name wf, window_idx wf).

Definition flight_keys (s : Sys) : list (string * Z) := key <$> in_flight s.

Definition slots_of (n : string) (ks : list (string * Z)) : list Z :=
  snd <$> filter (fun k => k.1 = n) ks.

(** A pending record against the windows of its read in flight: the
    slots in flight are distinct, they are the slots not assigned yet, no
    slot has been assigned twice, and the counter counts them. *)
Definition record_inv (slots : list string) (pending : Z) (wr : list nat) (idx : list Z)
  : Prop :=
  length wr = length slots /\
  NoDup idx /\
  (forall i, i ∈ idx <-> exists k : nat, i = Z.of_nat k /\ wr !! k = Some 0%nat) /\
  Forall (fun c => c <= 1)%nat wr /\
  pending = Z.of_nat (length idx) /\
  0 < pending < 2 ^ 31.

Definition tracker_inv (f : gmap string (list string)) (p : gmap string Z)
    (g : gmap string (list nat)) (ks : list (string * Z)) : Prop :=
  forall n,
    match f !! n with
    | Some slots =>
        exists pending wr,
          p !! n = Some pending /\ g !! n = Some wr /\
          record_inv slots pending wr (slots_of n ks)
    | None => p !! n = None /\ g !! n = None /\ slots_of n ks = []
    end.

Definition sys_inv (s : Sys) (g : gmap string (list nat)) : Prop :=
  tracker_inv (m_features_by_id (world s)) (m_pending_features_by_id (world s)) g
              (flight_keys s).

(** The keys of the windows in the accumulators of the workers. *)
Definition worker_keys (ws : list InferWorker) : list (string * Z) :=
  concat ((fun iw => key <$> wfs (iw_batcher iw)) <$> ws).

(** ** A small read and a small backend, for reference

    Windows of the shape [extract_features] makes, a decoder, and a
    backend that predicts class 0 for every supported column, or throws on
    its first calls. *)
Definition ex_tensor (cols : Z) : Tensor :=
  {| t_device := CPU; t_sizes := [2; cols]; t_data := [] |}.

Definition ex_window (name : string) (idx n_alns : Z) (supported : list (Z * Z)) (cols : Z)
  : WindowFeatures :=
  {| bases := ex_tensor cols; quals := ex_tensor cols;
     indices := {| t_device := CPU; t_sizes := [Z.of_nat (length supported)]; t_data := [] |};
     length_ := Z.of_nat (length supported); supported := supported;
     inferred_bases := []; n_alns := n_alns; read_name := name; window_idx := idx |}.

Definition ex_decode_window (wf : WindowFeatures) : string :=
  match inferred_bases wf with
  | [] => "ACGT"
  | bs => string_of_list_ascii bs
  end.

Definition ex_collate (ts : list Tensor) (pad : Z) : Tensor :=
  {| t_device := CPU; t_sizes := [Z.of_nat (length ts)]; t_data := [pad] |}.

Definition ex_transpose01 (t : Tensor) : Tensor :=
  {| t_device := t_device t;
     t_sizes := match t_sizes t with a :: b :: r => b :: a :: r | r => r end;
     t_data := t_data t |}.

Definition ex_argmax1 (t : Tensor) : list Z := t_data t.

Definition ex_forward (calls : nat) (inputs : Inputs) : ForwardResult :=
  let rows := Z.to_nat (sum_list_Z (t_data (in_lengths inputs))) in
  Returned (IVTuple
    [ {| t_device := t_device (in_bases inputs); t_sizes := [Z.of_nat rows; 1]; t_data := [] |};
      {| t_device := t_device (in_bases inputs); t_sizes := [Z.of_nat rows; 5];
         t_data := replicate rows 0 |} ]).

Definition ex_forward_failing (n : nat) (calls : nat) (inputs : Inputs) : ForwardResult :=
  if decide (calls < n)%nat then ThrewRuntimeError "CUDA out of memory"
  else ex_forward calls inputs.

(** Window 0 of ["read1"] goes to inference; window 1 is trivial. *)
Definition ex_w0 : WindowFeatures := ex_window "read1" 0 2 [(3, 0)] 12000.
Definition ex_w1 : WindowFeatures := ex_window "read1" 1 1 [] 4096.
Definition ex_message : Message := CorrectionAlignments "read1" (Some [ex_w0; ex_w1]).

(** A message of the same name with trivial windows only. *)
Definition ex_trivial_message : Message := CorrectionAlignments "read1" (Some [ex_w1]).

(** ** Ingestion before the windows: CIGARs and alignments *)

(** The operations [parse_cigar] produces, and [struct CigarOp]. *)
Inductive CigarOpType :=
| MATCH
| INS
| DEL.

Record CigarOp := mkCigarOp {
  op_type : CigarOpType;
  op_len : Z;                      (* [uint32_t] *)
}.

(** The fields of an overlap that [populate_alignments] reads. *)
Record Overlap := mkOverlap {
  ov_qlen : Z;
  ov_tlen : Z;
}.

(** [struct CorrectionAlignments], by the fields this file touches. *)
Record Alignments := mkAlignments {
  al_read_name : string;
  al_read_seq : string;
  al_read_qual : string;
  al_qnames : list string;
  al_seqs : list string;
  al_quals : list string;
  al_cigars : list (list CigarOp);
  al_mm2_cigars : list (list Z);   (* [uint32_t] words *)
  al_overlaps : list Overlap;
}.

Definition set_target (seq qual : string) (a : Alignments) : Alignments :=
  {| al_read_name := al_read_name a; al_read_seq := seq; al_read_qual := qual;
     al_qnames := al_qnames a; al_seqs := al_seqs a; al_quals := al_quals a;
     al_cigars := al_cigars a; al_mm2_cigars := al_mm2_cigars a;
     al_overlaps := al_overlaps a |}.

Definition set_seqs (seqs : list string) (a : Alignments) : Alignments :=
  {| al_read_name := al_read_name a; al_read_seq := al_read_seq a;
     al_read_qual := al_read_qual a;
     al_qnames := al_qnames a; al_seqs := seqs; al_quals := al_quals a;
     al_cigars := al_cigars a; al_mm2_cigars := al_mm2_cigars a;
     al_overlaps := al_overlaps a |}.

Definition set_quals (quals : list string) (a : Alignments) : Alignments :=
  {| al_read_name := al_read_name a; al_read_seq := al_read_seq a;
     al_read_qual := al_read_qual a;
     al_qnames := al_qnames a; al_seqs := al_seqs a; al_quals := quals;
     al_cigars := al_cigars a; al_mm2_cigars := al_mm2_cigars a;
     al_overlaps := al_overlaps a |}.

Definition set_cigars (cigars : list (list CigarOp)) (mm2 : list (list Z)) (a : Alignments)
  : Alignments :=
  {| al_read_name := al_read_name a; al_read_seq := al_read_seq a;
     al_read_qual := al_read_qual a;
     al_qnames := al_qnames a; al_seqs := al_seqs a; al_quals := al_quals a;
     al_cigars := cigars; al_mm2_cigars := mm2;
     al_overlaps := al_overlaps a |}.

(** The value of a conversion to [uint32_t] and to [size_t]. *)
Definition to_uint32 (z : Z) : Z := z mod 2 ^ 32.
Definition to_size_t (z : Z) : Z := z mod 2 ^ 64.

(** [{}] of an [int] in a log line. *)
Definition fmt_int (z : Z) : string := NilEmpty.string_of_int (Z.to_int z).

(** The phases of a worker with respect to the counter of active threads
    of its stage: before [m_num_active...++], in its loop, after
    [m_num_active...--], and after the test [load() == 0]. *)
Inductive Phase :=
| NotStarted
| Running
| Decremented
| Left.

Global Instance Phase_eq_dec : EqDecision Phase.
Proof. solve_decision. Defined.

(** A stage: the atomic counter, the number of [terminate()] calls on the
    queue the stage feeds, and the phase of each worker. *)
Record Stage := mkStage {
  active : Z;
  terminate_calls : nat;
  phases : list Phase;
}.

(** Worker [i] takes its next step. *)
Definition stage_step (i : nat) (st : Stage) : option Stage :=
  ph ← phases st !! i;
  match ph with
  | NotStarted =>
      Some {| active := active st + 1; terminate_calls := terminate_calls st;
              phases := <[i := Running]> (phases st) |}
  | Running =>
      Some {| active := active st - 1; terminate_calls := terminate_calls st;
              phases := <[i := Decremented]> (phases st) |}
  | Decremented =>
      Some {| active := active st;
              terminate_calls := if decide (active st = 0)
                                 then S (terminate_calls st) else terminate_calls st;
              phases := <[i := Left]> (phases st) |}
  | Left => None
  end.

Fixpoint stage_run (sched : list nat) (st : Stage) : option Stage :=
  match sched with
  | [] => Some st
  | i :: sched' => st' ← stage_step i st; stage_run sched' st'
  end.

Definition stage_init (n : nat) : Stage :=
  {| active := 0; terminate_calls := 0; phases := replicate n NotStarted |}.

Definition count_phase (ph : Phase) (st : Stage) : nat :=
  length (filter (fun x => x = ph) (phases st)).

(** The threads the constructor makes. *)
Record InferThread := mkInferThread {
  it_device : string;
  it_mtx_idx : Z;
  it_batch_size : Z;
}.

Record Threads := mkThreads {
  infer_threads_made : list InferThread;
  decode_threads_made : nat;
}.

(** What the body of the constructor has done when it returns or throws:
    the inference and decode threads started, the number of calls of
    [calculate_batch_size], the error lines logged, whether
    [start_input_processing] was reached, and the exception thrown in the
    body, if any. *)
Record Construction := mkConstruction {
  c_infer_threads : list InferThread;
  c_batch_size_calls : nat;
  c_decode_threads : nat;
  c_log : list Event;
  c_input_started : bool;
  c_thrown : option Exn;
}.

(** How a construction ends.  The threads are [std::thread] objects that
    the body pushes into the members [m_infer_threads] and
    [m_decode_threads] (and that [terminate] joins).  An exception that
    leaves the body of the constructor destroys the members, and the
    destructor of a [std::thread] that is still joinable calls
    [std::terminate]: the exception reaches the caller only when no thread
    has been started. *)
Inductive Ending :=
| Constructed
| Propagated (e : Exn)
| ProcessTerminated.

Definition ending (c : Construction) : Ending :=
  match c_thrown c with
  | None => Constructed
  | Some e =>
      match c_infer_threads c, c_decode_threads c with
      | [], O => Propagated e
      | _, _ => ProcessTerminated
      end
  end.

(** A message as [get_input_message] hands it over, before
    [populate_alignments]. *)
Inductive InputMessage :=
| AlignmentsMessage (alignments : Alignments)
| OtherInput (payload : string).

(** A result of a call that has no effect on the node. *)
Definition lift {A} (r : Res A) : M A := fun w => (r, w).

(** [v[i] = x] on a [std::vector]: unchecked. *)
Definition assign {A} (i : nat) (x : A) (v : list A) : M (list A) :=
  if decide (i < length v)%nat then mret (<[i := x]> v) else undefined.

(** ** Code outside [CorrectionNode.cpp] that ingestion and construction call

    The reader and [check_consistent_overlaps] are taken as functions of
    their arguments that return: a failure of the reader is not modelled,
    and neither is what [check_consistent_overlaps] writes to the log. *)

Variable MM_CIGAR_MATCH : Z.             (* [minimap.h] *)
Variable MM_CIGAR_INS : Z.
Variable MM_CIGAR_DEL : Z.
Variable cigar_op_default : CigarOp.     (* a value-initialised [CigarOp] *)
Variable fetch_seq : string -> string.   (* [FastxRandomReader] on [m_fastq] *)
Variable fetch_qual : string -> string.
Variable check_consistent_overlaps : Alignments -> bool.
Variable Windows : Type.                 (* [std::vector<std::vector<OverlapWindow>>] *)
Variable extract_windows : Z -> Alignments -> Z -> option Windows.
Variable extract_features : Windows -> Alignments -> Z -> list WindowFeatures.
Variable starts_with : string -> string -> bool.
Variable parse_cuda_device_string : string -> list string.
Variable calculate_batch_size : nat -> string -> Z.   (* by number of earlier calls *)

(** ** [parse_cigar] *)

(** The body of the loop for one word: [op = cigar[i] & 0xf],
    [len = cigar[i] >> 4], then the chain of comparisons. *)
Definition parse_cigar_op (c : Z) : Exn + CigarOp :=
  let op := Z.land c 15 in
  let len := Z.shiftr c 4 in
  if decide (op = MM_CIGAR_MATCH) then inr {| op_type := MATCH; op_len := len |}
  else if decide (op = MM_CIGAR_INS) then inr {| op_type := INS; op_len := len |}
  else if decide (op = MM_CIGAR_DEL) then inr {| op_type := DEL; op_len := len |}
  else inl (RuntimeError ("Unknown cigar op: " +:+ to_string (Z.to_nat op))).

(** The loop over [i]; [cigar[i]] is an unchecked read. *)
Fixpoint parse_cigar_loop (cigar : list Z) (idx : list nat) (cigar_ops : list CigarOp)
  : Res (list CigarOp) :=
  match idx with
  | [] => Ok cigar_ops
  | i :: idx' =>
      match cigar !! i with
      | None => Undefined
      | Some c =>
          match parse_cigar_op c with
          | inl e => Throw e
          | inr o => parse_cigar_loop cigar idx' (<[i := o]> cigar_ops)
          end
      end
  end.

Definition parse_cigar (cigar : list Z) (n_cigar : Z) : Res (list CigarOp) :=
  let cigar_ops := resize (Z.to_nat n_cigar) cigar_op_default [] in
  parse_cigar_loop cigar (seq 0 (Z.to_nat n_cigar)) cigar_ops.

(** ** [populate_alignments] *)

Definition qlen_mismatch (qlen : Z) (len : nat) (qname : string) : string :=
  "qlen from before " +:+ fmt_int qlen +:+ " and qlen from after " +:+ to_string len
  +:+ " don't match for " +:+ qname.

Definition tlen_mismatch (tlen_before tlen : Z) (tname : string) : string :=
  "tlen from before " +:+ fmt_int tlen_before +:+ " and tlen from after " +:+ fmt_int tlen
  +:+ " don't match for " +:+ tname.

(** One iteration of the loop over the query names.  The result is [false]
    where the code returns [false] from inside the loop.  [overlaps[i]] and
    [mm2_cigars[i]] are unchecked. *)
Definition populate_entry (tname : string) (tlen : Z) (i : nat) (a : Alignments)
  : M (bool * Alignments) :=
  qname ← defined (al_qnames a !! i);
  seqs ← assign i (fetch_seq qname) (al_seqs a);
  let a := set_seqs seqs a in
  seq_i ← defined (al_seqs a !! i);
  ov ← defined (al_overlaps a !! i);
  if decide (to_int (Z.of_nat (String.length seq_i)) <> ov_qlen ov) then
    record (LogError (qlen_mismatch (ov_qlen ov) (String.length seq_i) qname)) ;;
    mret (false, a)
  else
    quals ← assign i (fetch_qual qname) (al_quals a);
    let a := set_quals quals a in
    if decide (ov_tlen ov <> tlen) then
      record (LogError (tlen_mismatch (ov_tlen ov) tlen tname)) ;;
      mret (false, a)
    else
      mm2 ← defined (al_mm2_cigars a !! i);
      ops ← lift (parse_cigar mm2 (to_uint32 (Z.of_nat (length mm2))));
      cigars ← assign i ops (al_cigars a);
      mret (true, set_cigars cigars (<[i := []]> (al_mm2_cigars a)) a).

Fixpoint populate_loop (tname : string) (tlen : Z) (idx : list nat) (a : Alignments)
  : M (bool * Alignments) :=
  match idx with
  | [] => mret (true, a)
  | i :: idx' =>
      '(ok, a') ← populate_entry tname tlen i a;
      if (ok : bool) then populate_loop tname tlen idx' a' else mret (false, a')
  end.

(** [populate_alignments]: the result and the alignments as the call
    leaves them. *)
Definition populate_alignments (alignments : Alignments) : M (bool * Alignments) :=
  let tname := al_read_name alignments in
  let a := set_target (fetch_seq tname) (fetch_qual tname) alignments in
  let tlen := to_int (Z.of_nat (String.length (al_read_seq a))) in
  let num_qnames := length (al_qnames a) in
  let a := set_seqs (resize num_qnames EmptyString (al_seqs a)) a in
  let a := set_quals (resize num_qnames EmptyString (al_quals a)) a in
  let a := set_cigars (resize num_qnames [] (al_cigars a)) (al_mm2_cigars a) a in
  '(ok, a') ← populate_loop tname tlen (seq 0 num_qnames) a;
  if (ok : bool) then mret (check_consistent_overlaps a', a') else mret (false, a').

(** ** The loop of [input_thread_fn] from the message on *)

(** [(read_seq.length() + m_window_size - 1) / m_window_size] in [size_t]
    arithmetic; a division by zero has no defined result. *)
Definition n_windows (len : nat) (window_size : Z) : option Z :=
  let ws := to_size_t window_size in
  if decide (ws = 0) then None
  else Some (to_size_t (to_size_t (Z.of_nat len + ws) - 1) / ws).

(** One iteration of the loop of [input_thread_fn]: [populate_alignments],
    the windows, the features, and then the part [input_message] holds. *)
Definition input_iteration (window_size : Z) (message : InputMessage) : M unit :=
  match message with
  | AlignmentsMessage alignments =>
      let tname := al_read_name alignments in
      '(ok, alignments) ← populate_alignments alignments;
      if negb (ok : bool) then mret tt
      else
        n ← defined (n_windows (String.length (al_read_seq alignments)) window_size);
        match extract_windows n alignments window_size with
        | None => mret tt
        | Some windows =>
            let wfs := extract_features windows alignments window_size in
            input_message (CorrectionAlignments tname (Some wfs))
        end
  | OtherInput payload => input_message (OtherMessage payload)
  end.

(** ** The constructor *)

(** The choice of devices; the result is the list [devices] and the value
    of [infer_threads] the loops use. *)
Definition select_devices (device : string) (infer_threads : Z)
  : Exn + (list string * Z) :=
  if decide (device = "cpu") then inr ([device], 1)
  else if DORADO_CUDA_BUILD then
    if starts_with device "cuda" then
      let devices := parse_cuda_device_string device in
      match devices with
      | [] => inl (RuntimeError "CUDA device requested but no devices found.")
      | _ :: _ => inr (devices, infer_threads)
      end
    else inr ([], infer_threads)
  else inl (RuntimeError ("Unsupported device: " +:+ device)).

(** The inner loop, [n] iterations for device [dev] of index [d]; the
    state is the threads made and the number of calls of
    [calculate_batch_size] so far. *)
Fixpoint spawn_on_device (dev : string) (d : nat) (batch_size : Z) (n : nat)
    (made : list InferThread) (calls : nat) : list InferThread * nat * option Exn :=
  match n with
  | O => (made, calls, None)
  | S n' =>
      if decide (batch_size = 0) then
        let device_batch_size := calculate_batch_size calls dev in
        if decide (device_batch_size = 0) then
          (made, S calls,
           Some (RuntimeError ("Insufficient memory to run inference on " +:+ dev)))
        else
          spawn_on_device dev d batch_size n'
            (made ++ [{| it_device := dev; it_mtx_idx := to_int (Z.of_nat d);
                         it_batch_size := device_batch_size |}])
            (S calls)
      else
        spawn_on_device dev d batch_size n'
          (made ++ [{| it_device := dev; it_mtx_idx := to_int (Z.of_nat d);
                       it_batch_size := batch_size |}])
          calls
  end.

(** The outer loop over [devices], from index [d] on. *)
Fixpoint spawn_infer_threads (devices : list string) (d : nat) (infer_threads batch_size : Z)
    (made : list InferThread) (calls : nat) : list InferThread * nat * option Exn :=
  match devices with
  | [] => (made, calls, None)
  | dev :: rest =>
      match spawn_on_device dev d batch_size (Z.to_nat infer_threads) made calls with
      | (made', calls', None) =>
          spawn_infer_threads rest (S d) infer_threads batch_size made' calls'
      | r => r
      end
  end.

(** The body of the constructor.  [index_exists] is the result of
    [std::filesystem::exists(idx_name)] and [fai_build] the result of
    [fai_build(fastq)]. *)
Definition construct (fastq device : string) (infer_threads batch_size : Z)
    (index_exists : bool) (fai_build : Z) : Construction :=
  match select_devices device infer_threads with
  | inl e =>
      {| c_infer_threads := []; c_batch_size_calls := 0; c_decode_threads := 0;
         c_log := []; c_input_started := false; c_thrown := Some e |}
  | inr (devices, infer_threads) =>
      match spawn_infer_threads devices 0 infer_threads batch_size [] 0 with
      | (made, calls, Some e) =>
          {| c_infer_threads := made; c_batch_size_calls := calls; c_decode_threads := 0;
             c_log := []; c_input_started := false; c_thrown := Some e |}
      | (made, calls, None) =>
          if negb index_exists && negb (bool_decide (fai_build = 0)) then
            {| c_infer_threads := made; c_batch_size_calls := calls; c_decode_threads := 4;
               c_log := [LogError ("Failed to build index for file " +:+ fastq)];
               c_input_started := false; c_thrown := Some (RuntimeError EmptyString) |}
          else
            {| c_infer_threads := made; c_batch_size_calls := calls; c_decode_threads := 4;
               c_log := []; c_input_started := true; c_thrown := None |}
      end
  end.

(** ** What [populate_alignments] leaves behind *)

(** Entry [i] of [a'] has been filled in from [a]: the sequence and the
    qualities of the query, whose length is the [qlen] of the overlap; the
    parsed CIGAR; and the packed CIGAR emptied.  [tlen] is the length of the
    target as loaded. *)
Definition entry_populated (tlen : Z) (a a' : Alignments) (i : nat) : Prop :=
  exists qname ov mm2 ops,
    al_qnames a !! i = Some qname /\
    al_overlaps a !! i = Some ov /\
    al_mm2_cigars a !! i = Some mm2 /\
    to_int (Z.of_nat (String.length (fetch_seq qname))) = ov_qlen ov /\
    ov_tlen ov = tlen /\
    parse_cigar mm2 (to_uint32 (Z.of_nat (length mm2))) = Ok ops /\
    al_seqs a' !! i = Some (fetch_seq qname) /\
    al_quals a' !! i = Some (fetch_qual qname) /\
    al_cigars a' !! i = Some ops /\
    al_mm2_cigars a' !! i = Some [].

(** Entry [i] of [a] fails one of the two length checks, and the world
    goes from [w] to [w'] by the error line of that check. *)
Definition entry_rejected (tname : string) (tlen : Z) (a : Alignments) (i : nat)
    (w w' : World) : Prop :=
  exists qname ov,
    al_qnames a !! i = Some qname /\
    al_overlaps a !! i = Some ov /\
    ((to_int (Z.of_nat (String.length (fetch_seq qname))) <> ov_qlen ov /\
      w' = set_events
             (events w ++ [LogError (qlen_mismatch (ov_qlen ov)
                                       (String.length (fetch_seq qname)) qname)]) w) \/
     (to_int (Z.of_nat (String.length (fetch_seq qname))) = ov_qlen ov /\
      ov_tlen ov <> tlen /\
      w' = set_events (events w ++ [LogError (tlen_mismatch (ov_tlen ov) tlen tname)]) w)).

(** [a'] is [a] but for the entries from [lo] up to [hi] of the four
    vectors. *)
Definition frame_outside (a a' : Alignments) (lo hi : nat) : Prop :=
  al_read_name a' = al_read_name a /\
  al_read_seq a' = al_read_seq a /\
  al_read_qual a' = al_read_qual a /\
  al_qnames a' = al_qnames a /\
  al_overlaps a' = al_overlaps a /\
  length (al_seqs a') = length (al_seqs a) /\
  length (al_quals a') = length (al_quals a) /\
  length (al_cigars a') = length (al_cigars a) /\
  length (al_mm2_cigars a') = length (al_mm2_cigars a) /\
  forall j : nat, (j < lo \/ hi <= j)%nat ->
    al_seqs a' !! j = al_seqs a !! j /\
    al_quals a' !! j = al_quals a !! j /\
    al_cigars a' !! j = al_cigars a !! j /\
    al_mm2_cigars a' !! j = al_mm2_cigars a !! j.

(** ** Counting, for the properties *)

(** The number of calls of [concat_features_and_send] in a log. *)
Definition is_concat_call (e : Event) : bool :=
  match e with
  | CallConcat _ _ => true
  | _ => false
  end.

Definition concat_calls (evs : list Event) : nat :=
  length (filter (fun e => is_concat_call e = true) evs).

(** The batches handed to [batch_infer], call by call. *)
Definition batches (evs : list Event) : list (list WindowFeatures) :=
  omap (fun e => match e with CallBatchInfer batch => Some batch | _ => None end) evs.

(** The slots a batch takes. *)
Definition batch_slots (batch : list WindowFeatures) : Z :=
  sum_list_Z ((fun wf => default 0 (required_batch_slots wf)) <$> batch).

(** A window after inference: as before, but for [inferred_bases]. *)
Definition inferred_from (wf wf' : WindowFeatures) : Prop :=
  exists d, wf' = set_inferred_bases wf d.

(** ** A small set of alignments, for reference

    A target of six bases with one query of four, aligned by [4M]; the
    codes of [minimap.h] are match 0, insertion 1, deletion 2. *)
Definition ex_fetch_seq (name : string) : string :=
  if decide (name = "read1") then "ACGTAC"
  else if decide (name = "q1") then "ACGT"
  else EmptyString.

Definition ex_fetch_qual (name : string) : string :=
  if decide (name = "read1") then "IIIIII"
  else if decide (name = "q1") then "IIII"
  else EmptyString.

Definition ex_alignments (qlen : Z) (mm2_cigars : list (list Z)) : Alignments :=
  {| al_read_name := "read1"; al_read_seq := EmptyString; al_read_qual := EmptyString;
     al_qnames := ["q1"]; al_seqs := []; al_quals := []; al_cigars := [];
     al_mm2_cigars := mm2_cigars;
     al_overlaps := [{| ov_qlen := qlen; ov_tlen := 6 |}] |}.

(** Windows by their number, and features with nothing to infer. *)
Definition ex_extract_windows (n : Z) (a : Alignments) (window_size : Z) : option nat :=
  if decide (al_overlaps a = []) then None else Some (Z.to_nat n).

Definition ex_extract_features (windows : nat) (a : Alignments) (window_size : Z)
  : list WindowFeatures :=
  (fun i => ex_window (al_read_name a) (Z.of_nat i) 1 [] window_size) <$> seq 0 windows.

(** The events of one call of [module.forward] with its retry. *)
Definition backend_event (e : Event) : bool :=
  match e with
  | CallForward _ | LogWarn _ | CallEmptyCache => true
  | _ => false
  end.

(** A batch within the slots of a worker, or a single window that alone
    needs more. *)
Definition within_budget (batch_size : Z) (batch : list WindowFeatures) : Prop :=
  batch_slots batch <= batch_size \/ (length batch <= 1)%nat.

(** What holds of the slot counter of a worker between two iterations:
    it is what the windows held have left of the batch size, and it is
    negative only when a single window is held. *)
Definition slots_ok (batch_size : Z) (b : Batcher) : Prop :=
  batcher_ok b /\
  remaining_batch_slots b = batch_size - batch_slots (wfs b) /\
  (0 <= remaining_batch_slots b \/ (length (wfs b) <= 1)%nat).

(** From [w] to [w'] an inference worker has flushed the windows [orig]:
    they reach the queue of the decode worker in order, as they were but
    for [inferred_bases], in batches within the budget; the maps, the
    input queue and the sink are as before. *)
Definition delivered (batch_size : Z) (w w' : World) (orig : list WindowFeatures) : Prop :=
  m_features_by_id w' = m_features_by_id w /\
  m_pending_features_by_id w' = m_pending_features_by_id w /\
  m_features_queue w' = m_features_queue w /\
  sink w' = sink w /\
  exists moved new,
    m_inferred_features_queue w' = m_inferred_features_queue w ++ moved /\
    Forall2 inferred_from orig moved /\
    batches (events w') = batches (events w) ++ new /\
    Forall (within_budget batch_size) new /\
    concat new = orig.

(** A read with two windows that both go to inference. *)
Definition ex_pair_message : Message :=
  CorrectionAlignments "read2"
    (Some [ex_window "read2" 0 2 [(3, 0)] 100; ex_window "read2" 1 2 [(5, 0)] 100]).

(** *** A second history variable: the windows of every pending read

    For every pending record, the windows that [extract_features] had
    returned for the message that made the record. *)
Definition track_windows (l : Label) (s s' : Sys) (h : gmap string (list WindowFeatures))
  : gmap string (list WindowFeatures) :=
  match l with
  | InputStep (CorrectionAlignments tname (Some wfs)) =>
      match m_features_by_id (world s) !! tname, m_features_by_id (world s') !! tname with
      | None, Some _ => <[tname := wfs]> h
      | _, _ => h
      end
  | DecodeStep k =>
      match m_inferred_features_queue (world s) !! k with
      | Some item =>
          match m_features_by_id (world s) !! read_name item,
                m_features_by_id (world s') !! read_name item with
          | Some _, None => delete (read_name item) h
          | _, _ => h
          end
      | None => h
      end
  | _ => h
  end.

Fixpoint run_traced (ls : list Label) (s : Sys) (g : gmap string (list nat))
    (h : gmap string (list WindowFeatures))
  : option (Sys * gmap string (list nat) * gmap string (list WindowFeatures)) :=
  match ls with
  | [] => Some (s, g, h)
  | l :: ls' =>
      s' ← sys_step l s;
      run_traced ls' s' (track_writes l s s' g) (track_windows l s s' h)
  end.

(** [wf'] is [wf] as a flush returns it, in a node whose log is [evs]:
    [batch_infer] was called on a batch that held [wf] at position [j],
    with its sizes in step, and [module.forward] on the inputs made of that
    batch; the model returned a tuple; [argmax] on element 1 of the tuple,
    split by the sizes of the batch, gave a chunk for position [j]; and
    [wf'] is [wf] with the decoding of that chunk as [inferred_bases]. *)
Definition flushed (evs : list Event) (wf wf' : WindowFeatures) : Prop :=
  exists device (b : Batcher) (calls : nat) elements base_logits split_preds (j : nat) chunk,
    CallBatchInfer (wfs b) ∈ evs /\
    CallForward (batch_inputs device b) ∈ evs /\
    batcher_ok b /\
    wfs b !! j = Some wf /\
    module_forward calls (batch_inputs device b) = Returned (IVTuple elements) /\
    elements !! 1%nat = Some base_logits /\
    split_with_sizes (argmax1 base_logits) (sizes b) = Some split_preds /\
    split_preds !! j = Some chunk /\
    decode_preds chunk = Some (inferred_bases wf') /\
    wf' = set_inferred_bases wf (inferred_bases wf').

(** The windows that no flush has taken yet: queued for inference, or in
    the accumulators of a worker. *)
Definition unflushed (s : Sys) : list WindowFeatures :=
  m_features_queue (world s) ++ concat ((fun iw => wfs (iw_batcher iw)) <$> workers s).

(** The string of a slot is the decoding of its window: of the window as
    it came when it needs no inference, of the window as a flush returned
    it otherwise. *)
Definition slot_decoded (evs : list Event) (wf : WindowFeatures) (slot : string) : Prop :=
  if needs_inference wf
  then exists wf', flushed evs wf wf' /\ slot = decode_window wf'
  else slot = decode_window wf.

(** A pending record against the windows of its read: the slots that have
    been assigned hold the decoding of their windows; the windows that need
    no inference have been assigned; the windows that no flush has taken
    are windows of the read as they came; and the windows queued for
    decoding are windows of the read as a flush returned them, the
    flushes being among the events [evs].  The accumulators of every worker
    are in step. *)
Definition windows_inv_at (evs : list Event) (s : Sys) (g : gmap string (list nat))
    (h : gmap string (list WindowFeatures)) : Prop :=
  Forall (fun iw => batcher_ok (iw_batcher iw)) (workers s) /\
  forall n slots, m_features_by_id (world s) !! n = Some slots ->
    exists wfs0 wr,
      h !! n = Some wfs0 /\ g !! n = Some wr /\ length wfs0 = length slots /\
      (forall (i : nat) wf, wfs0 !! i = Some wf -> needs_inference wf = false ->
         wr !! i = Some 1%nat) /\
      (forall (i : nat) wf slot, wfs0 !! i = Some wf -> wr !! i = Some 1%nat ->
         slots !! i = Some slot -> slot_decoded evs wf slot) /\
      (forall wf', wf' ∈ unflushed s -> read_name wf' = n ->
         exists i : nat, window_idx wf' = Z.of_nat i /\ wfs0 !! i = Some wf') /\
      (forall wf', wf' ∈ m_inferred_features_queue (world s) -> read_name wf' = n ->
         exists (i : nat) wf, window_idx wf' = Z.of_nat i /\ wfs0 !! i = Some wf /\
                              flushed evs wf wf').

(** The same against the log of the node itself. *)
Definition windows_inv (s : Sys) (g : gmap string (list nat))
    (h : gmap string (list WindowFeatures)) : Prop :=
  windows_inv_at (events (world s)) s g h.

(** Modelled from the spec: [extract_features], which fills the fields
    [length] and [supported] of a window, lies outside this file; section 3
    of the specification gives [length] as the number of MSA columns and
    [supported] as a list of columns.  A window of three columns, of which
    column 1 is supported. *)
Definition ex_wide_window : WindowFeatures :=
  {| bases := ex_tensor 3; quals := ex_tensor 3;
     indices := {| t_device := CPU; t_sizes := [3]; t_data := [] |};
     length_ := 3; supported := [(1, 0)]; inferred_bases := [];
     n_alns := 2; read_name := "read3"; window_idx := 0 |}.

(** ** The node, access by access

    [sys_step] takes a loop iteration of a worker as one step.  The
    critical sections under [m_features_mutex] cover less than that: the
    input worker leaves its section before it pushes the windows and
    counts the read, and the decode worker pops before it enters its
    section and calls [concat_features_and_send] after it.  Below, every
    access to the maps, the queues and the counters is a step of its own:
    a pop, a push, a critical section, an increment of an atomic counter;
    and so is a call of [concat_features_and_send], which touches the sink
    only.  What a worker holds between two accesses is part of the state.
    As before, a push is one on a queue that has not been terminated, and
    has room. *)

(** Where an input worker is in its iteration: at [get_input_message];
    after [num_early_reads++], with the strings to hand to
    [concat_features_and_send]; or in the loop of pushes, with the windows
    still to push, [num_reads++] to follow. *)
Inductive InputPhase :=
| AtMessage
| EarlyCounted (corrected_seqs : list string) (tname : string)
| Pushing (features_to_infer : list WindowFeatures).

(** Where an inference worker is, besides its accumulators: with a window
    it has popped, or pushing the windows of a flush (with none left, it is
    at the pop). *)
Inductive InferPhase :=
| Holding (item : WindowFeatures)
| Delivering (out : list WindowFeatures).

(** Where a decode worker is: at the pop; with a window it has popped,
    before its critical section; or after the section that completed a
    read, before the call of [concat_features_and_send]. *)
Inductive DecodePhase :=
| AtPop
| Decoding (item : WindowFeatures)
| Sending (to_decode : list string) (name : string).

Record Node := mkNode {
  shared : World;
  input_workers : list InputPhase;
  infer_workers : list (InferWorker * InferPhase);
  decode_workers : list DecodePhase;
}.

Definition with_input (s : Node) (w : World) (i : nat) (ph : InputPhase) : Node :=
  {| shared := w; input_workers := <[i := ph]> (input_workers s);
     infer_workers := infer_workers s; decode_workers := decode_workers s |}.

Definition with_infer (s : Node) (w : World) (i : nat) (iw : InferWorker * InferPhase) : Node :=
  {| shared := w; input_workers := input_workers s;
     infer_workers := <[i := iw]> (infer_workers s); decode_workers := decode_workers s |}.

Definition with_decode (s : Node) (w : World) (j : nat) (ph : DecodePhase) : Node :=
  {| shared := w; input_workers := input_workers s;
     infer_workers := infer_workers s; decode_workers := <[j := ph]> (decode_workers s) |}.

(** The first access of an input worker for a message: the pass to the
    sink; [num_early_reads++] when no window needs inference; the critical
    section that makes the record of the read, or finds its name taken,
    otherwise. *)
Definition input_enter (message : Message) : M InputPhase :=
  match message with
  | CorrectionAlignments tname None => mret AtMessage
  | CorrectionAlignments tname (Some wfs) =>
      let '(corrected_seqs, features_to_infer) :=
        sort_windows 0 wfs (replicate (length wfs) EmptyString) [] in
      match features_to_infer with
      | [] => bump_early_reads ;; mret (EarlyCounted corrected_seqs tname)
      | _ :: _ =>
          w ← get;
          match m_features_by_id w !! tname with
          | None =>
              modify (set_maps
                        (umap_insert tname corrected_seqs (m_features_by_id w))
                        (umap_insert tname (to_int (Z.of_nat (length features_to_infer)))
                                     (m_pending_features_by_id w))) ;;
              mret (Pushing features_to_infer)
          | Some _ =>
              record (LogError ("Features for " +:+ tname +:+ " already exist! Skipping.")) ;;
              mret AtMessage
          end
      end
  | OtherMessage payload => send_message_to_sink (PassedThrough payload) ;; mret AtMessage
  end.

(** The next access of an input worker inside an iteration: the call of
    [concat_features_and_send], one push, or [num_reads++]. *)
Definition input_resume (ph : InputPhase) : option (M InputPhase) :=
  match ph with
  | AtMessage => None
  | EarlyCounted corrected_seqs tname =>
      Some (concat_features_and_send corrected_seqs tname ;; mret (Pushing []))
  | Pushing (wf :: rest) => Some (push_features wf ;; mret (Pushing rest))
  | Pushing [] => Some (bump_reads ;; mret AtMessage)
  end.

(** What is left of the iteration of an input worker, taken in one go. *)
Definition input_rest (ph : InputPhase) : M unit :=
  match ph with
  | AtMessage => mret tt
  | EarlyCounted corrected_seqs tname =>
      concat_features_and_send corrected_seqs tname ;;
      for_each push_features [] ;;
      bump_reads
  | Pushing features_to_infer =>
      for_each push_features features_to_infer ;;
      bump_reads
  end.

(** The critical section of the decode worker; the result is [to_decode]
    as the section leaves it. *)
Definition decode_locked (item : WindowFeatures) : M (list string) :=
  let name := read_name item in
  let pos := window_idx item in
  let corrected_seq := decode_window item in
  w ← get;
  match m_features_by_id w !! name with
  | None =>
      record (LogError ("Decoded feature list not found for " +:+ name +:+ ".")) ;;
      mret []
  | Some output_features =>
      if decide (0 <= pos < Z.of_nat (length output_features)) then
        let output_features := <[Z.to_nat pos := corrected_seq]> output_features in
        pending ← defined (m_pending_features_by_id w !! name);
        if decide (pending = INT_MIN) then undefined else
        let pending := pending - 1 in
        if decide (pending = 0) then
          let to_decode := output_features in
          modify (set_maps (delete name (m_features_by_id w))
                           (delete name (m_pending_features_by_id w))) ;;
          mret to_decode
        else
          modify (set_maps (<[name := output_features]> (m_features_by_id w))
                           (<[name := pending]> (m_pending_features_by_id w))) ;;
          mret []
      else undefined
  end.

(** A flush pushes its windows one by one, as its last accesses.
    [collect c w] runs [c] up to these pushes: the result is the value of
    [c], the windows to push, in order, and the world without them. *)
Definition collect {A} (c : M A) (w : World) : option (A * list WindowFeatures * World) :=
  match c (set_inferred_features_queue [] w) with
  | (Ok a, w') =>
      Some (a, m_inferred_features_queue w',
            set_inferred_features_queue (m_inferred_features_queue w) w')
  | _ => None
  end.

(** The accesses.  An input worker takes a message or goes on; an
    inference worker pops the head of the features queue, times out at the
    pop (or leaves its loop), or goes on; a decode worker goes on, which
    at the pop takes the head of the inferred queue. *)
Inductive Access :=
| InputTakes (i : nat) (message : Message)
| InputGoes (i : nat)
| InferPops (i : nat)
| InferTimesOut (i : nat)
| InferGoes (i : nat)
| DecodeGoes (j : nat).

Definition access (a : Access) (s : Node) : option Node :=
  match a with
  | InputTakes i message =>
      ph ← input_workers s !! i;
      match ph with
      | AtMessage =>
          '(ph', w') ← exec (input_enter message) (shared s);
          Some (with_input s w' i ph')
      | _ => None
      end
  | InputGoes i =>
      ph ← input_workers s !! i;
      c ← input_resume ph;
      '(ph', w') ← exec c (shared s);
      Some (with_input s w' i ph')
  | InferPops i =>
      iw ← infer_workers s !! i;
      match iw.2, m_features_queue (shared s) with
      | Delivering [], item :: rest =>
          Some (with_infer s (set_features_queue rest (shared s)) i (iw.1, Holding item))
      | _, _ => None
      end
  | InferTimesOut i =>
      iw ← infer_workers s !! i;
      match iw.2 with
      | Delivering [] =>
          '(b', out, w') ← collect (flush_if_any (iw_device iw.1) (iw_batch_size iw.1)
                                                 (iw_batcher iw.1)) (shared s);
          Some (with_infer s w' i (with_batcher iw.1 b', Delivering out))
      | _ => None
      end
  | InferGoes i =>
      iw ← infer_workers s !! i;
      match iw.2 with
      | Holding item =>
          '(b', out, w') ← collect (infer_on_item (iw_device iw.1) (iw_batch_size iw.1)
                                                  item (iw_batcher iw.1)) (shared s);
          Some (with_infer s w' i (with_batcher iw.1 b', Delivering out))
      | Delivering (wf :: rest) =>
          Some (with_infer s
                  (set_inferred_features_queue
                     (m_inferred_features_queue (shared s) ++ [wf]) (shared s))
                  i (iw.1, Delivering rest))
      | Delivering [] => None
      end
  | DecodeGoes j =>
      ph ← decode_workers s !! j;
      match ph with
      | AtPop =>
          match m_inferred_features_queue (shared s) with
          | item :: rest =>
              Some (with_decode s (set_inferred_features_queue rest (shared s)) j
                                (Decoding item))
          | [] => None
          end
      | Decoding item =>
          '(to_decode, w') ← exec (decode_locked item) (shared s);
          Some (with_decode s w' j
                  (match to_decode with
                   | [] => AtPop
                   | _ :: _ => Sending to_decode (read_name item)
                   end))
      | Sending to_decode name =>
          '(_, w') ← exec (concat_features_and_send to_decode name) (shared s);
          Some (with_decode s w' j AtPop)
      end
  end.

Fixpoint accesses (acts : list Access) (s : Node) : option Node :=
  match acts with
  | [] => Some s
  | a :: acts' => s' ← access a s; accesses acts' s'
  end.

(** The node as the constructor leaves it, with [inputs] input workers,
    one inference worker per [(device, batch_size)] and [decoders] decode
    workers. *)
Definition node_init (inputs : nat) (cfgs : list (Device * Z)) (decoders : nat) : Node :=
  {| shared := empty_world;
     input_workers := replicate inputs AtMessage;
     infer_workers := (fun c => ({| iw_device := c.1; iw_batch_size := c.2;
                                    iw_batcher := new_batcher c.2 |}, Delivering [])) <$> cfgs;
     decode_workers := replicate decoders AtPop |}.

Definition wf_access (a : Access) : Prop :=
  match a with
  | InputTakes _ m => wf_message m
  | _ => True
  end.

(** The windows an input worker has still to push, the windows an
    inference worker holds, and the window a decode worker has popped. *)
Definition waiting (ph : InputPhase) : list WindowFeatures :=
  match ph with
  | Pushing l => l
  | _ => []
  end.

Definition held (iw : InferWorker * InferPhase) : list WindowFeatures :=
  wfs (iw_batcher iw.1) ++
  match iw.2 with
  | Holding item => [item]
  | Delivering out => out
  end.

Definition taken (ph : DecodePhase) : list WindowFeatures :=
  match ph with
  | Decoding item => [item]
  | _ => []
  end.

(** The windows between the critical section that made the record of
    their read and the critical section that writes their slot. *)
Definition on_the_way (s : Node) : list WindowFeatures :=
  concat (waiting <$> input_workers s)
  ++ m_features_queue (shared s)
  ++ concat (held <$> infer_workers s)
  ++ m_inferred_features_queue (shared s)
  ++ concat (taken <$> decode_workers s).

(** The slots of read [n] that windows on the way will write. *)
Definition slots_on_the_way (n : string) (s : Node) : list Z :=
  window_idx <$> filter (fun wf => read_name wf = n) (on_the_way s).

(** Counting the workers by where they are. *)
Definition is_pushing (ph : InputPhase) : bool :=
  match ph with Pushing _ => true | _ => false end.

Definition is_early_counted (ph : InputPhase) : bool :=
  match ph with EarlyCounted _ _ => true | _ => false end.

Definition is_sending (ph : DecodePhase) : bool :=
  match ph with Sending _ _ => true | _ => false end.

Definition count_where {A} (f : A -> bool) (l : list A) : nat :=
  length (filter (fun x => f x = true) l).

(** What one inference worker of batch size 4 on the CPU, one input worker
    and two decode workers do with the small read, access by access: the
    record is made, the window is pushed, the read is counted, the window
    is popped, taken in, flushed at the timeout and pushed, popped and
    written. *)
Definition ex_accesses : list Access :=
  [InputTakes 0 ex_message; InputGoes 0; InputGoes 0; InferPops 0; InferGoes 0;
   InferTimesOut 0; InferGoes 0; DecodeGoes 1; DecodeGoes 1; DecodeGoes 1].

(** What holds of the maps and the windows on the way, whatever the
    accesses so far: the records match the windows on the way as in
    [tracker_inv], for some count of assignments per slot. *)
Definition node_inv (s : Node) : Prop :=
  exists g, tracker_inv (m_features_by_id (shared s)) (m_pending_features_by_id (shared s)) g
                        (key <$> on_the_way s).

(** Every read that an input worker has taken past its first access
    either is counted in [num_reads] or is still to be; and it has been
    handed to [concat_features_and_send], is about to be, or is pending. *)
Definition reads_accounted_at (s : Node) : Prop :=
  (num_reads (shared s) + count_where is_pushing (input_workers s))%nat
  = (concat_calls (events (shared s)) + count_where is_sending (decode_workers s)
     + size (m_features_by_id (shared s)))%nat /\
  (num_early_reads (shared s)
   <= num_reads (shared s) + count_where is_pushing (input_workers s)
      + count_where is_early_counted (input_workers s))%nat.

(** * Properties *)

(** ** The monad *)

Lemma bind_ok {A B} (c : M A) (k : A -> M B) w a w' :
  c w = (Ok a, w') -> (c ≫= k) w = k a w'.
Proof. intros H. unfold mbind, M_bind, bind. by rewrite H. Qed.

Lemma bind_throw {A B} (c : M A) (k : A -> M B) w e w' :
  c w = (Throw e, w') -> (c ≫= k) w = (Throw e, w').
Proof. intros H. unfold mbind, M_bind, bind. by rewrite H. Qed.

Lemma bind_undefined {A B} (c : M A) (k : A -> M B) w w' :
  c w = (Undefined, w') -> (c ≫= k) w = (Undefined, w').
Proof. intros H. unfold mbind, M_bind, bind. by rewrite H. Qed.

Lemma for_each_send_records (rs : list BamRecord) w :
  for_each (fun r => send_message_to_sink (BamMessage r)) rs w
  = (Ok tt, set_sink (sink w ++ (BamMessage <$> rs)) w).
Proof.
  revert w. induction rs as [|r rs IH]; intros w; simpl.
  - rewrite app_nil_r. by destruct w.
  - unfold mbind, M_bind, bind. simpl. rewrite IH. simpl.
    by rewrite <- app_assoc.
Qed.

Lemma for_each_push_features (l : list WindowFeatures) w :
  for_each push_features l w
  = (Ok tt, set_features_queue (m_features_queue w ++ l) w).
Proof.
  revert w. induction l as [|x l IH]; intros w; simpl.
  - rewrite app_nil_r. by destruct w.
  - unfold mbind, M_bind, bind. simpl. rewrite IH. simpl.
    by rewrite <- app_assoc.
Qed.

Lemma for_each_push_inferred (l : list WindowFeatures) w :
  for_each push_inferred l w
  = (Ok tt, set_inferred_features_queue (m_inferred_features_queue w ++ l) w).
Proof.
  revert w. induction l as [|x l IH]; intros w; simpl.
  - rewrite app_nil_r. by destruct w.
  - unfold mbind, M_bind, bind. simpl. rewrite IH. simpl.
    by rewrite <- app_assoc.
Qed.

(** ** Concatenation *)

Lemma empty_str_true s : empty_str s = true <-> s = EmptyString.
Proof. destruct s; simpl; split; congruence. Qed.

Lemma empty_str_false s : empty_str s = false <-> s <> EmptyString.
Proof. destruct s; simpl; split; congruence. Qed.

Lemma append_nil t : EmptyString +:+ t = t.
Proof. reflexivity. Qed.

Lemma append_cons a s t : String a s +:+ t = String a (s +:+ t).
Proof. reflexivity. Qed.

Lemma append_empty_r s : s +:+ EmptyString = s.
Proof. induction s; rewrite ?append_nil, ?append_cons; congruence. Qed.

Lemma append_assoc s1 s2 s3 : (s1 +:+ s2) +:+ s3 = s1 +:+ (s2 +:+ s3).
Proof. induction s1; rewrite ?append_nil, ?append_cons; congruence. Qed.

Lemma join_nonempty r :
  r <> [] -> Forall (fun s => s <> EmptyString) r -> join r <> EmptyString.
Proof.
  destruct r as [|s r]; [done|]. intros _ H. inversion_clear H. simpl.
  destruct s; [done|]. by rewrite append_cons.
Qed.

Lemma concatenate_unfold cons :
  concatenate_corrected_windows cons = finish (foldl concat_iter ([], EmptyString) cons).
Proof. done. Qed.

Lemma concat_loop_prefix l acc cur :
  finish (foldl concat_iter (acc, cur) l) = acc ++ finish (foldl concat_iter ([], cur) l).
Proof.
  revert acc cur. induction l as [|s l IH]; intros acc cur; simpl.
  - unfold finish; simpl. destruct (empty_str cur); simpl; by rewrite ?app_nil_r.
  - destruct (empty_str s); [|apply IH].
    destruct (empty_str cur); simpl; [apply IH|].
    rewrite (IH (acc ++ [cur])), (IH [cur]). by rewrite <- app_assoc.
Qed.

Lemma concat_loop_run r l acc cur :
  Forall (fun s => s <> EmptyString) r ->
  foldl concat_iter (acc, cur) (r ++ l) = foldl concat_iter (acc, cur +:+ join r) l.
Proof.
  intros Hr. revert cur. induction Hr as [|s r Hs Hr IH]; intros cur; simpl.
  - by rewrite append_empty_r.
  - apply empty_str_false in Hs. rewrite Hs, IH. by rewrite append_assoc.
Qed.

Lemma runs_of_nil_inv rs : runs_of [] rs -> rs = [].
Proof.
  intros H. remember [] as l eqn:El.
  destruct H as [|l rs H|r l rs Hne Hr Hl H]; [done|discriminate|].
  destruct r; [done|discriminate].
Qed.

Lemma concat_loop_runs l rs :
  runs_of l rs -> finish (foldl concat_iter ([], EmptyString) l) = join <$> rs.
Proof.
  induction 1 as [|l rs _ IH|r l rs Hne Hr Hl Hruns IH]; simpl; [done..|].
  rewrite concat_loop_run by done. simpl.
  pose proof (join_nonempty r Hne Hr) as Hj.
  destruct Hl as [->|[l' ->]].
  - apply runs_of_nil_inv in Hruns as ->. simpl. unfold finish. simpl.
    rewrite append_nil. apply empty_str_false in Hj. by rewrite Hj.
  - simpl in *. rewrite append_nil. apply empty_str_false in Hj. rewrite Hj. simpl.
    rewrite concat_loop_prefix. simpl. by rewrite IH.
Qed.

Lemma runs_of_total l : exists rs, runs_of l rs.
Proof.
  induction l as [|s l [rs IH]]; [exists []; constructor|].
  destruct (decide (s = EmptyString)) as [->|Hs].
  { exists rs. by constructor. }
  inversion IH as [|l0 rs0 H0|r l0 rs0 Hne Hr Hl H0]; subst.
  - exists [[s]]. apply (runs_run [s] [] []); auto using runs_nil.
  - exists ([s] :: rs). apply (runs_run [s] (EmptyString :: l0) rs); eauto.
  - exists ((s :: r) :: rs0). apply (runs_run (s :: r) l0 rs0); auto.
Qed.

Lemma imap_names (f : nat -> string) (l : list string) k :
  imap (fun s seq => create_bam_record (f (k + s)%nat) seq) l
  = zip_with create_bam_record (f <$> seq k (length l)) l.
Proof.
  revert k. induction l as [|x l IH]; intros k; simpl; [done|].
  rewrite Nat.add_0_r. f_equal.
  rewrite <- IH. apply imap_ext. intros i y _. simpl. f_equal. f_equal. lia.
Qed.

Lemma records_to_send_names to_decode name :
  records_to_send to_decode name
  = zip_with create_bam_record
      (record_names name (length (concatenate_corrected_windows to_decode)))
      (concatenate_corrected_windows to_decode).
Proof.
  unfold records_to_send, record_names.
  destruct (decide (length (concatenate_corrected_windows to_decode) = 1%nat)) as [H1|H1].
  - destruct (concatenate_corrected_windows to_decode) as [|s [|]]; done.
  - apply (imap_names (fun s => name +:+ ":" +:+ to_string s) _ 0).
Qed.

(** C1.  Whatever the window strings, their maximal runs of non-empty
    strings exist, and for these runs [rs] the node emits exactly one record
    per run, in order, carrying the run joined; the record is named after
    the read when there is one run and ["<name>:0"], ["<name>:1"], ... when
    there are several (none when there is no run). *)
Theorem concat_emits_maximal_runs (cons : list string) (name : string) (w : World) :
  (exists rs, runs_of cons rs) /\
  forall rs, runs_of cons rs ->
    concatenate_corrected_windows cons = join <$> rs /\
    concat_features_and_send cons name w
    = (Ok tt,
       set_sink (sink w ++ (BamMessage <$>
                   zip_with create_bam_record (record_names name (length rs)) (join <$> rs)))
         (set_events (events w ++ [CallConcat name cons]) w)).
Proof.
  split; [apply runs_of_total|]. intros rs Hrs.
  assert (concatenate_corrected_windows cons = join <$> rs) as Hc.
  { rewrite concatenate_unfold. by apply concat_loop_runs. }
  split; [done|].
  unfold concat_features_and_send, mbind, M_bind, bind. simpl.
  rewrite for_each_send_records, records_to_send_names, Hc.
  by rewrite length_fmap.
Qed.

(** ** The inference batcher *)

Ltac munfold :=
  unfold mbind, M_bind, bind, mret, M_ret, ret, get, modify, record, defined,
    throw, undefined.

Lemma to_int_small z : - 2 ^ 31 <= z < 2 ^ 31 -> to_int z = z.
Proof.
  intros H. unfold to_int.
  rewrite Z.mod_small by lia. lia.
Qed.

Lemma batch_infer_resets device batch_size b w b' w' :
  batch_infer device batch_size b w = (Ok b', w') -> b' = new_batcher batch_size.
Proof.
  unfold batch_infer. munfold. simpl.
  destruct (forward_with_retry _ _) as [[[elements|]| |] w1]; simpl; try done.
  destruct (elements !! 1%nat); simpl; [|done].
  destruct (split_with_sizes _ _); simpl; [|done].
  destruct (assign_inferred _ _ _); simpl; [|done].
  rewrite for_each_push_inferred. by intros [= <- _].
Qed.


(** The [try]/[catch] on its own: what a first [std::runtime_error] leads
    to, by build. *)
Lemma forward_retry_policy inputs what w
    (Hfail : module_forward (forward_calls w) inputs = ThrewRuntimeError what) :
  let r := forward_with_retry inputs w in
  if DORADO_CUDA_BUILD then
    events r.2 = events w ++
      [CallForward inputs;
       LogWarn ("Caught Torch error '" +:+ what +:+ "', clearing CUDA cache and retrying.");
       CallEmptyCache;
       CallForward inputs] /\
    forward_calls r.2 = S (S (forward_calls w)) /\
    r.1 = match module_forward (S (forward_calls w)) inputs with
          | Returned output => Ok output
          | ThrewRuntimeError what' => Throw (RuntimeError what')
          | ThrewOther what' => Throw (OtherException what')
          end
  else
    events r.2 = events w ++ [CallForward inputs] /\
    forward_calls r.2 = S (forward_calls w) /\
    r.1 = Throw (RuntimeError what).
Proof.
  unfold forward_with_retry, call_forward. munfold. simpl. rewrite Hfail.
  destruct DORADO_CUDA_BUILD; simpl.
  - destruct (module_forward (S _) _); simpl; by rewrite <- !app_assoc.
  - done.
Qed.

(** The [move_to_device] block: the collated bases and quals and the
    length tensor end up on the worker's device; the elements of
    [indices_batch] are handed over where they were. *)
Lemma move_to_device_placement device batched_bases batched_quals length_tensor idx :
  let inputs := move_to_device device batched_bases batched_quals length_tensor idx in
  t_device (in_bases inputs) = device /\
  t_device (in_quals inputs) = device /\
  t_device (in_lengths inputs) = device /\
  in_indices inputs = idx.
Proof.
  simpl. repeat split. apply list_fmap_id.
Qed.

Lemma batch_infer_unfold device batch_size b w :
  batch_infer device batch_size b w
  = (forward_with_retry (batch_inputs device b) ≫= fun output =>
       match output with
       | IVOther => throw (RuntimeError "Expected inference result to be tuple.")
       | IVTuple elements =>
           base_logits ← defined (elements !! 1%nat);
           match split_with_sizes (argmax1 base_logits) (sizes b) with
           | None => throw (OtherException "split_with_sizes")
           | Some split_preds =>
               wfs' ← defined (assign_inferred 0 split_preds (wfs b));
               for_each push_inferred wfs' ;;
               mret (new_batcher batch_size)
           end
       end)
      (set_events (events w ++ [CallBatchInfer (wfs b)]) w).
Proof. reflexivity. Qed.

(** After the backend call a flush touches the inferred queue only. *)
Lemma batch_infer_tail_world batch_size b output w :
  let r := match output with
           | IVOther => throw (RuntimeError "Expected inference result to be tuple.")
           | IVTuple elements =>
               base_logits ← defined (elements !! 1%nat);
               match split_with_sizes (argmax1 base_logits) (sizes b) with
               | None => throw (OtherException "split_with_sizes")
               | Some split_preds =>
                   wfs' ← defined (assign_inferred 0 split_preds (wfs b));
                   for_each push_inferred wfs' ;;
                   mret (new_batcher batch_size)
               end
           end w in
  events r.2 = events w /\ forward_calls r.2 = forward_calls w.
Proof.
  destruct output as [elements|]; simpl; [|done]. munfold.
  destruct (elements !! 1%nat); simpl; [|done].
  destruct (split_with_sizes _ _); simpl; [|done].
  destruct (assign_inferred _ _ _); simpl; [|done].
  by rewrite for_each_push_inferred.
Qed.

(** C7, as the code has it.  In a CUDA build, when [module.forward] throws
    a [std::runtime_error] during a flush, the flush logs a warning, empties
    the allocator cache once and calls [module.forward] once more with the
    same inputs; what that second call throws is not caught and ends the
    flush.  In a build without CUDA the first error is thrown on, with no
    cache clearing and no second call. *)
Theorem flush_retry_policy device batch_size b what w
    (Hfail : module_forward (forward_calls w) (batch_inputs device b) = ThrewRuntimeError what) :
  let inputs := batch_inputs device b in
  let r := batch_infer device batch_size b w in
  if DORADO_CUDA_BUILD then
    events r.2 = events w ++
      [CallBatchInfer (wfs b);
       CallForward inputs;
       LogWarn ("Caught Torch error '" +:+ what +:+ "', clearing CUDA cache and retrying.");
       CallEmptyCache;
       CallForward inputs] /\
    forward_calls r.2 = S (S (forward_calls w)) /\
    (forall what', module_forward (S (forward_calls w)) inputs = ThrewRuntimeError what' ->
       r.1 = Throw (RuntimeError what')) /\
    (forall what', module_forward (S (forward_calls w)) inputs = ThrewOther what' ->
       r.1 = Throw (OtherException what'))
  else
    events r.2 = events w ++ [CallBatchInfer (wfs b); CallForward inputs] /\
    forward_calls r.2 = S (forward_calls w) /\
    r.1 = Throw (RuntimeError what).
Proof.
  intros inputs r. subst r inputs. rewrite batch_infer_unfold.
  set (w0 := set_events _ w).
  pose proof (forward_retry_policy (batch_inputs device b) what w0 Hfail) as Hp.
  cbv zeta in Hp.
  destruct (forward_with_retry (batch_inputs device b) w0) as [o w1] eqn:Hfw.
  destruct o as [output| |].
  - rewrite (bind_ok _ _ _ _ _ Hfw).
    destruct (batch_infer_tail_world batch_size b output w1) as [He Hc].
    cbv zeta in He, Hc. rewrite He, Hc.
    destruct DORADO_CUDA_BUILD; simpl in Hp; destruct Hp as (Hev & Hcalls & Hres).
    + rewrite <- app_assoc in Hev. simpl in Hev.
      split; [done|]. split; [done|].
      split; intros what' Hw'; rewrite Hw' in Hres; congruence.
    + done.
  - rewrite (bind_throw _ _ _ _ _ Hfw).
    destruct DORADO_CUDA_BUILD; simpl in Hp; destruct Hp as (Hev & Hcalls & Hres).
    + rewrite <- app_assoc in Hev. simpl in Hev. simpl.
      split; [done|]. split; [done|].
      split; intros what' Hw'; rewrite Hw' in Hres; congruence.
    + rewrite <- app_assoc in Hev. simpl in Hev. simpl. repeat split; congruence.
  - rewrite (bind_undefined _ _ _ _ Hfw).
    destruct DORADO_CUDA_BUILD; simpl in Hp; destruct Hp as (Hev & Hcalls & Hres).
    + rewrite <- app_assoc in Hev. simpl in Hev. simpl.
      split; [done|]. split; [done|].
      split; intros what' Hw'; rewrite Hw' in Hres; congruence.
    + simpl. done.
Qed.

(** ** The input worker *)

Lemma needs_inference_iff wf :
  needs_inference wf = true <-> n_alns wf > 1 /\ supported wf <> [].
Proof.
  unfold needs_inference. rewrite andb_true_iff, !bool_decide_eq_true.
  destruct (supported wf); simpl; split; intros [??]; split; try done; lia.
Qed.

Lemma sort_windows_spec wfs pre fti :
  sort_windows (length pre) wfs (pre ++ replicate (length wfs) EmptyString) fti
  = (pre ++ initial_slots wfs, fti ++ to_infer wfs).
Proof.
  revert pre fti. induction wfs as [|wf wfs IH]; intros pre fti; simpl.
  - by rewrite !app_nil_r.
  - unfold to_infer, initial_slots. rewrite filter_cons. simpl.
    destruct (needs_inference wf) eqn:Hn.
    + rewrite decide_True by done.
      specialize (IH (pre ++ [EmptyString]) (fti ++ [wf])).
      rewrite length_app, Nat.add_1_r, <- !app_assoc in IH. simpl in IH.
      rewrite IH. done.
    + rewrite decide_False by done.
      replace (length pre) with (length pre + 0)%nat at 2 by lia.
      rewrite insert_app_r. simpl.
      specialize (IH (pre ++ [decode_window wf]) fti).
      rewrite length_app, Nat.add_1_r, <- !app_assoc in IH. simpl in IH.
      rewrite IH. done.
Qed.

Lemma sort_windows_initial wfs :
  sort_windows 0 wfs (replicate (length wfs) EmptyString) []
  = (initial_slots wfs, to_infer wfs).
Proof. apply (sort_windows_spec wfs [] []). Qed.

Lemma to_infer_nil_iff wfs :
  to_infer wfs = [] <-> Forall (fun wf => needs_inference wf = false) wfs.
Proof.
  unfold to_infer. induction wfs as [|wf wfs IH]; [done|].
  rewrite filter_cons, Forall_cons.
  destruct (needs_inference wf); simpl.
  - split; [done|]. by intros [? _].
  - rewrite IH. split; [by split|by intros [_ ?]].
Qed.

Lemma initial_slots_trivial wfs :
  Forall (fun wf => needs_inference wf = false) wfs ->
  initial_slots wfs = decode_window <$> wfs.
Proof.
  induction 1 as [|wf wfs Hwf _ IH]; [done|].
  unfold initial_slots in *. rewrite !fmap_cons, Hwf. by f_equal.
Qed.

(** The input worker on a message with windows, by case. *)
Lemma input_message_unfold tname wfs w :
  input_message (CorrectionAlignments tname (Some wfs)) w
  = match to_infer wfs with
    | [] =>
        (bump_early_reads ;;
         concat_features_and_send (initial_slots wfs) tname ;;
         for_each push_features [] ;;
         bump_reads) w
    | _ :: _ =>
        match m_features_by_id w !! tname with
        | None =>
            (modify (set_maps
                       (umap_insert tname (initial_slots wfs) (m_features_by_id w))
                       (umap_insert tname (to_int (Z.of_nat (length (to_infer wfs))))
                                    (m_pending_features_by_id w))) ;;
             for_each push_features (to_infer wfs) ;;
             bump_reads) w
        | Some _ =>
            record (LogError ("Features for " +:+ tname +:+ " already exist! Skipping.")) w
        end
    end.
Proof.
  unfold input_message. rewrite sort_windows_initial.
  destruct (to_infer wfs); [done|].
  unfold mbind at 1, M_bind at 1, bind at 1, get. simpl.
  by destruct (m_features_by_id w !! tname).
Qed.

(** C5.  A window goes into [features_to_infer] iff [n_alns > 1] and its
    supported list is non-empty; every other window is decoded into its
    slot at ingestion.  The windows pushed to the features queue for a
    read that gets a pending record are those of [features_to_infer], in
    order.  A message all of whose windows are trivial is completed in
    the input worker by one call of [concat_features_and_send] on the
    decoded windows; the maps and both queues stay as they were. *)
Theorem trivial_windows_complete_at_ingestion tname wfs w :
  let r := input_message (CorrectionAlignments tname (Some wfs)) w in
  (forall wf, needs_inference wf = true <-> n_alns wf > 1 /\ supported wf <> []) /\
  sort_windows 0 wfs (replicate (length wfs) EmptyString) []
    = (initial_slots wfs, filter (fun wf => needs_inference wf = true) wfs) /\
  (forall (i : nat) wf, wfs !! i = Some wf -> needs_inference wf = false ->
     initial_slots wfs !! i = Some (decode_window wf)) /\
  (to_infer wfs <> [] -> m_features_by_id w !! tname = None ->
     r.1 = Ok tt /\ m_features_queue r.2 = m_features_queue w ++ to_infer wfs) /\
  (Forall (fun wf => needs_inference wf = false) wfs ->
     r.1 = Ok tt /\
     m_features_by_id r.2 = m_features_by_id w /\
     m_pending_features_by_id r.2 = m_pending_features_by_id w /\
     m_features_queue r.2 = m_features_queue w /\
     m_inferred_features_queue r.2 = m_inferred_features_queue w /\
     events r.2 = events w ++ [CallConcat tname (decode_window <$> wfs)] /\
     sink r.2 = sink w ++ (BamMessage <$> records_to_send (decode_window <$> wfs) tname) /\
     num_early_reads r.2 = S (num_early_reads w) /\
     num_reads r.2 = S (num_reads w)).
Proof.
  intros r. split; [apply needs_inference_iff|].
  split; [apply sort_windows_initial|].
  split.
  { intros i wf Hi Hn. unfold initial_slots.
    rewrite list_lookup_fmap, Hi. simpl. by rewrite Hn. }
  subst r. rewrite input_message_unfold. split.
  - intros Hne Hnone. destruct (to_infer wfs) as [|x l] eqn:Hti; [done|].
    rewrite <- Hti, Hnone. unfold bump_reads. munfold.
    rewrite for_each_push_features. done.
  - intros Htriv. pose proof Htriv as Hnil. apply to_infer_nil_iff in Hnil.
    rewrite Hnil, (initial_slots_trivial _ Htriv).
    unfold concat_features_and_send, bump_early_reads, bump_reads. munfold. simpl.
    rewrite for_each_send_records. done.
Qed.

Lemma decode_iteration_log_irrelevant item evs w :
  (decode_iteration item (set_events evs w)).1 = (decode_iteration item w).1 /\
  same_but_events (decode_iteration item (set_events evs w)).2 (decode_iteration item w).2.
Proof.
  unfold decode_iteration, same_but_events. munfold. simpl.
  destruct (m_features_by_id w !! read_name item) as [slots|]; simpl; [|done].
  destruct (decide _); simpl; [|done].
  destruct (m_pending_features_by_id w !! read_name item) as [p|]; simpl; [|done].
  destruct (decide (p = INT_MIN)); simpl; [done|].
  destruct (decide (p - 1 = 0)); simpl; [|done].
  destruct (<[_ := _]> slots); simpl; [done|].
  unfold concat_features_and_send. munfold. simpl.
  rewrite !for_each_send_records. done.
Qed.

(** C8, as the code has it.  When a message has at least one window to
    infer and its read name already has an entry in the maps, the input
    worker logs an error and drops the message: apart from the log line
    the world is as before (no map entry changed, nothing pushed, nothing
    sent, the read not counted), so every later decode step for the first
    read with that name does what it would have done without the
    duplicate. *)
Theorem duplicate_name_is_dropped tname wfs slots w
    (Hdup : m_features_by_id w !! tname = Some slots)
    (Hinfer : Exists (fun wf => needs_inference wf = true) wfs) :
  let w' := set_events
              (events w ++ [LogError ("Features for " +:+ tname +:+ " already exist! Skipping.")])
              w in
  input_message (CorrectionAlignments tname (Some wfs)) w = (Ok tt, w') /\
  forall item,
    (decode_iteration item w').1 = (decode_iteration item w).1 /\
    same_but_events (decode_iteration item w').2 (decode_iteration item w).2.
Proof.
  intros w'. split; [|intros item; apply decode_iteration_log_irrelevant].
  rewrite input_message_unfold.
  destruct (to_infer wfs) as [|x l] eqn:Hti.
  - apply to_infer_nil_iff in Hti. apply Exists_exists in Hinfer as (wf & Hin & Hwf).
    rewrite Forall_forall in Hti. specialize (Hti wf Hin). congruence.
  - by rewrite Hdup.
Qed.

(** ** The inference worker as a whole *)

Lemma batched_app evs1 evs2 : batched (evs1 ++ evs2) = batched evs1 ++ batched evs2.
Proof. unfold batched. by rewrite fmap_app, concat_app. Qed.

Lemma batched_one e :
  batched [e] = match e with CallBatchInfer batch => batch | _ => [] end.
Proof. unfold batched. simpl. apply app_nil_r. Qed.

Ltac batched_norm :=
  rewrite ?batched_app, ?batched_one; simpl; rewrite ?app_nil_r, <- ?app_assoc.

Lemma items_cons p pops :
  items (p :: pops) = items [p] ++ items pops.
Proof. unfold items. simpl. by rewrite app_nil_r. Qed.

Lemma forward_with_retry_batched inputs w :
  batched (events (forward_with_retry inputs w).2) = batched (events w).
Proof.
  unfold forward_with_retry, call_forward. munfold. simpl.
  destruct (module_forward (forward_calls w) inputs); simpl.
  - by batched_norm.
  - destruct DORADO_CUDA_BUILD; simpl.
    + destruct (module_forward (S _) _); simpl; by batched_norm.
    + by batched_norm.
  - by batched_norm.
Qed.

Lemma batch_infer_batched device batch_size b w :
  batched (events (batch_infer device batch_size b w).2) = batched (events w) ++ wfs b.
Proof.
  rewrite batch_infer_unfold. set (w0 := set_events _ w).
  pose proof (forward_with_retry_batched (batch_inputs device b) w0) as Hb.
  destruct (forward_with_retry (batch_inputs device b) w0) as [[output| |] w1] eqn:Hfw;
    simpl in Hb.
  - rewrite (bind_ok _ _ _ _ _ Hfw).
    destruct (batch_infer_tail_world batch_size b output w1) as [He _].
    cbv zeta in He. rewrite He, Hb. subst w0. simpl. by batched_norm.
  - rewrite (bind_throw _ _ _ _ _ Hfw). simpl. rewrite Hb. subst w0. simpl.
    by batched_norm.
  - rewrite (bind_undefined _ _ _ _ Hfw). simpl. rewrite Hb. subst w0. simpl.
    by batched_norm.
Qed.

Lemma new_batcher_ok batch_size : batcher_ok (new_batcher batch_size).
Proof. by repeat split. Qed.

Lemma accept_ok item required b : batcher_ok b -> batcher_ok (accept item required b).
Proof.
  intros (Hs & Hl & Hi & Hb & Hq). unfold batcher_ok, accept. simpl.
  rewrite !fmap_app, !length_app, Hs, Hl, Hi, Hb, Hq. done.
Qed.

Lemma flush_if_any_flushes device batch_size b w :
  batcher_ok b -> wfs b <> [] ->
  flush_if_any device batch_size b w = batch_infer device batch_size b w.
Proof.
  intros (_ & _ & _ & Hb & _) Hne. unfold flush_if_any.
  destruct (decide _) as [|Hn]; [done|].
  destruct (wfs b); [done|]. simpl in Hb. lia.
Qed.

Lemma flush_if_any_idle device batch_size b w :
  batcher_ok b -> wfs b = [] ->
  flush_if_any device batch_size b w = (Ok b, w).
Proof.
  intros (_ & _ & _ & Hb & _) He. unfold flush_if_any.
  rewrite He in Hb. simpl in Hb.
  destruct (decide _) as [Hn|]; [lia|done].
Qed.

(** One iteration: what it does to the accumulators and to the windows
    handed to [batch_infer]. *)
Lemma infer_iteration_spec device batch_size p b w :
  batcher_ok b ->
  match infer_iteration device batch_size p b w with
  | (Ok b', w') =>
      batcher_ok b' /\
      batched (events w') ++ wfs b' = batched (events w) ++ wfs b ++ items [p]
  | (Throw _, w') => batched (events w') = batched (events w) ++ wfs b
  | (Undefined, _) => True
  end.
Proof.
  intros Hok. destruct p as [item|]; simpl.
  - unfold infer_on_item.
    destruct (required_batch_slots item) as [required|]; simpl; [|done].
    munfold. simpl. destruct (decide _); simpl.
    + pose proof (batch_infer_batched device batch_size b w) as Hb.
      destruct (batch_infer device batch_size b w) as [[b'| |] w'] eqn:Hbi; simpl in *;
        [|done..].
      apply batch_infer_resets in Hbi as ->. split.
      * apply accept_ok, new_batcher_ok.
      * rewrite Hb. unfold items. simpl. by rewrite <- app_assoc.
    + split; [by apply accept_ok|]. unfold items. simpl. done.
  - unfold items. simpl. rewrite app_nil_r.
    destruct (decide (wfs b = [])) as [He|Hne].
    + rewrite flush_if_any_idle by done. done.
    + rewrite flush_if_any_flushes by done.
      pose proof (batch_infer_batched device batch_size b w) as Hb.
      destruct (batch_infer device batch_size b w) as [[b'| |] w'] eqn:Hbi; simpl in *;
        [|done..].
      apply batch_infer_resets in Hbi as ->. split; [apply new_batcher_ok|].
      simpl. by rewrite app_nil_r.
Qed.

Lemma infer_loop_cons device batch_size p pops b w :
  infer_loop device batch_size (p :: pops) b w
  = (infer_iteration device batch_size p b ≫= infer_loop device batch_size pops) w.
Proof. reflexivity. Qed.

(** The loop: on return every popped window is in a batch handed to
    [batch_infer] or still in the accumulators; when an iteration throws,
    the windows of the iterations before it have all been handed over. *)
Lemma infer_loop_spec device batch_size pops b w :
  batcher_ok b ->
  match infer_loop device batch_size pops b w with
  | (Ok b', w') =>
      batcher_ok b' /\
      batched (events w') ++ wfs b' = batched (events w) ++ wfs b ++ items pops
  | (Throw e, w') =>
      exists pre p suf b1 w1,
        pops = pre ++ p :: suf /\
        infer_loop device batch_size pre b w = (Ok b1, w1) /\
        infer_iteration device batch_size p b1 w1 = (Throw e, w') /\
        batched (events w') = batched (events w) ++ wfs b ++ items pre
  | (Undefined, _) => True
  end.
Proof.
  revert b w. induction pops as [|p pops IH]; intros b w Hok.
  - simpl. split; [done|]. unfold items. simpl. by rewrite app_nil_r.
  - rewrite infer_loop_cons.
    pose proof (infer_iteration_spec device batch_size p b w Hok) as Hit.
    destruct (infer_iteration device batch_size p b w) as [[b'| |] w'] eqn:Hstep.
    + rewrite (bind_ok _ _ _ _ _ Hstep). destruct Hit as [Hok' Heq].
      specialize (IH b' w' Hok').
      destruct (infer_loop device batch_size pops b' w') as [[b''| |] w''] eqn:Hloop;
        [| |done].
      * destruct IH as [Hok'' Heq']. split; [done|].
        rewrite Heq', (items_cons p pops), !app_assoc. f_equal.
        rewrite <- !app_assoc. done.
      * destruct IH as (pre & p' & suf & b1 & w1 & -> & Hpre & Hthrow & Heq').
        exists (p :: pre), p', suf, b1, w1. split; [done|]. split.
        { rewrite infer_loop_cons. by rewrite (bind_ok _ _ _ _ _ Hstep). }
        split; [done|].
        rewrite Heq', (items_cons p pre), !app_assoc. f_equal.
        rewrite <- !app_assoc. done.
    + rewrite (bind_throw _ _ _ _ _ Hstep).
      exists [], p, pops, b, w. split; [done|]. split; [done|]. split; [done|].
      unfold items at 1. simpl. by rewrite app_nil_r.
    + by rewrite (bind_undefined _ _ _ _ Hstep).
Qed.

(** C6.  Whatever the worker pops before the queue terminates: a timeout
    with windows in the accumulators is a call of [batch_infer] on them,
    and so is the code after the loop; a flush that returns leaves the
    accumulators empty, and the loop goes on from there.  On return of
    [infer_fn] the calls of [batch_infer] have been handed every popped
    window, in order, and none is left behind.  When a flush throws, the
    windows accepted by the iterations before it have all been handed to
    [batch_infer]: the throwing call is the one that holds the last of
    them. *)
Theorem infer_worker_flushes_all device batch_size pops w :
  (forall pre b w1,
     infer_loop device batch_size pre (new_batcher batch_size) w = (Ok b, w1) ->
     wfs b <> [] ->
     infer_iteration device batch_size TimedOut b w1 = batch_infer device batch_size b w1 /\
     flush_if_any device batch_size b w1 = batch_infer device batch_size b w1 /\
     forall b' w2, batch_infer device batch_size b w1 = (Ok b', w2) ->
       wfs b' = [] /\
       forall rest, infer_loop device batch_size (TimedOut :: rest) b w1
                    = infer_loop device batch_size rest (new_batcher batch_size) w2) /\
  match infer_fn device batch_size pops w with
  | (Ok b, w') =>
      wfs b = [] /\ batched (events w') = batched (events w) ++ items pops
  | (Throw e, w') =>
      (exists pre p suf b1 w1,
         pops = pre ++ p :: suf /\
         infer_loop device batch_size pre (new_batcher batch_size) w = (Ok b1, w1) /\
         infer_iteration device batch_size p b1 w1 = (Throw e, w') /\
         batched (events w') = batched (events w) ++ items pre) \/
      (exists b1 w1,
         infer_loop device batch_size pops (new_batcher batch_size) w = (Ok b1, w1) /\
         flush_if_any device batch_size b1 w1 = (Throw e, w') /\
         batched (events w') = batched (events w) ++ items pops)
  | (Undefined, _) => True
  end.
Proof.
  split.
  - intros pre b w1 Hloop Hne.
    pose proof (infer_loop_spec device batch_size pre (new_batcher batch_size) w
                  (new_batcher_ok batch_size)) as Hspec.
    rewrite Hloop in Hspec. destruct Hspec as [Hok _].
    assert (flush_if_any device batch_size b w1 = batch_infer device batch_size b w1) as Hf
      by by apply flush_if_any_flushes.
    split; [done|]. split; [done|]. intros b' w2 Hbi.
    pose proof (batch_infer_resets _ _ _ _ _ _ Hbi) as ->. split; [done|].
    intros rest. rewrite infer_loop_cons. simpl.
    by rewrite (bind_ok _ _ _ _ _ (eq_trans Hf Hbi)).
  - unfold infer_fn.
    pose proof (infer_loop_spec device batch_size pops (new_batcher batch_size) w
                  (new_batcher_ok batch_size)) as Hspec.
    destruct (infer_loop device batch_size pops (new_batcher batch_size) w)
      as [[b| |] w1] eqn:Hloop.
    + rewrite (bind_ok _ _ _ _ _ Hloop). destruct Hspec as [Hok Heq]. simpl in Heq.
      pose proof (infer_iteration_spec device batch_size TimedOut b w1 Hok) as Hit.
      simpl in Hit.
      destruct (flush_if_any device batch_size b w1) as [[b'| |] w'] eqn:Hflush; [| |done].
      * destruct Hit as [Hok' Heq'].
        unfold items in Heq' at 1. simpl in Heq'. rewrite app_nil_r in Heq'.
        destruct (decide (wfs b = [])) as [He|Hne].
        { rewrite flush_if_any_idle in Hflush by done. injection Hflush as <- <-.
          split; [done|]. rewrite He, app_nil_r in Heq. done. }
        { rewrite flush_if_any_flushes in Hflush by done.
          apply batch_infer_resets in Hflush as ->. simpl in *.
          split; [done|]. rewrite app_nil_r in Heq'. by rewrite Heq', Heq. }
      * right. exists b, w1. split; [done|]. split; [done|]. by rewrite Hit, Heq.
    + rewrite (bind_throw _ _ _ _ _ Hloop). left.
      destruct Hspec as (pre & p & suf & b1 & w1' & -> & Hpre & Hthrow & Heq).
      exists pre, p, suf, b1, w1'. by repeat split.
    + by rewrite (bind_undefined _ _ _ _ Hloop).
Qed.

(** ** Splitting and decoding the predictions *)

Lemma split_chunks_length l sizes : length (split_chunks l sizes) = length sizes.
Proof. revert l. induction sizes; intros l; simpl; auto. Qed.

Lemma split_chunks_lookup sizes (l : list Z) (i : nat) n (P : Z -> Prop) :
  Forall (fun n => 0 <= n) sizes ->
  sum_list_Z sizes <= Z.of_nat (length l) ->
  Forall P l ->
  sizes !! i = Some n ->
  exists chunk, split_chunks l sizes !! i = Some chunk /\
                length chunk = Z.to_nat n /\ Forall P chunk.
Proof.
  intros Hpos. revert l i. induction Hpos as [|m sizes Hm Hpos IH]; intros l i Hsum HP Hi.
  { done. }
  simpl in Hsum.
  assert (0 <= sum_list_Z sizes) as Hs.
  { clear -Hpos. induction Hpos; simpl; lia. }
  destruct i as [|i]; simpl in *.
  - injection Hi as <-. eexists. split; [done|]. split.
    + rewrite length_take. lia.
    + by apply Forall_take.
  - apply IH; [|by apply Forall_drop|done].
    rewrite length_drop. lia.
Qed.

Lemma decode_preds_ok (p : list Z) :
  Forall (fun c => 0 <= c < 5) p ->
  exists d, decode_preds p = Some d /\ length d = length p.
Proof.
  intros Hp. destruct (decode_preds p) as [d|] eqn:Hd.
  - exists d. split; [done|]. apply mapM_Some_1, Forall2_length in Hd. done.
  - exfalso. apply mapM_None_1, Exists_exists in Hd as (c & Hin & Hc).
    rewrite Forall_forall in Hp. specialize (Hp c Hin).
    destruct (decide (0 <= c)); [|lia].
    apply lookup_ge_None in Hc. simpl in Hc. lia.
Qed.

Lemma assign_inferred_spec split_preds pre rest :
  length split_preds = length rest ->
  Forall (fun p => is_Some (decode_preds p)) split_preds ->
  exists wfs',
    assign_inferred (length pre) split_preds (pre ++ rest) = Some (pre ++ wfs') /\
    length wfs' = length rest /\
    forall (i : nat) wf p, rest !! i = Some wf -> split_preds !! i = Some p ->
      exists d, decode_preds p = Some d /\ wfs' !! i = Some (set_inferred_bases wf d).
Proof.
  revert pre rest. induction split_preds as [|p ps IH]; intros pre rest Hlen Hdec.
  - destruct rest; [|done]. exists []. by repeat split.
  - destruct rest as [|wf rest]; [done|]. simpl in Hlen.
    inversion Hdec as [|? ? [d Hd] Hdec']; subst. simpl.
    rewrite Hd. rewrite lookup_app_r by lia. rewrite Nat.sub_diag. simpl.
    rewrite insert_app_r_alt by lia. rewrite Nat.sub_diag. simpl.
    destruct (IH (pre ++ [set_inferred_bases wf d]) rest) as (wfs' & Has & Hl & Hlk);
      [lia|done|].
    rewrite length_app, Nat.add_1_r, <- !app_assoc in Has. simpl in Has.
    exists (set_inferred_bases wf d :: wfs'). split; [done|]. split; [simpl; lia|].
    intros [|i] wf0 p0 Hwf0 Hp0; simpl in *.
    + injection Hwf0 as <-. injection Hp0 as <-. by exists d.
    + by apply Hlk.
Qed.

Lemma split_chunks_concat sizes (l : list Z) :
  Forall (fun n => 0 <= n) sizes ->
  sum_list_Z sizes = Z.of_nat (length l) ->
  concat (split_chunks l sizes) = l.
Proof.
  intros Hpos. revert l. induction Hpos as [|m sizes Hm Hpos IH]; intros l Hsum; simpl in *.
  - symmetry. apply length_zero_iff_nil. lia.
  - assert (0 <= sum_list_Z sizes) as Hs.
    { clear -Hpos. induction Hpos; simpl; lia. }
    rewrite IH; [apply take_drop|]. rewrite length_drop. lia.
Qed.

Lemma loop_sizes_are_lengths device batch_size pops w0 b w :
  infer_loop device batch_size pops (new_batcher batch_size) w0 = (Ok b, w) ->
  sizes b = length_ <$> wfs b.
Proof.
  intros Hloop.
  pose proof (infer_loop_spec device batch_size pops (new_batcher batch_size) w0
                (new_batcher_ok batch_size)) as Hspec.
  rewrite Hloop in Hspec. by destruct Hspec as [(Hsizes & _) _].
Qed.


(** ** What the steps do to the maps and the queues *)

Lemma concat_features_and_send_run to_decode name w :
  concat_features_and_send to_decode name w
  = (Ok tt,
     set_sink (sink w ++ (BamMessage <$> records_to_send to_decode name))
       (set_events (events w ++ [CallConcat name to_decode]) w)).
Proof.
  unfold concat_features_and_send. munfold. simpl.
  by rewrite for_each_send_records.
Qed.

Lemma forward_with_retry_frame inputs w :
  let w' := (forward_with_retry inputs w).2 in
  m_features_by_id w' = m_features_by_id w /\
  m_pending_features_by_id w' = m_pending_features_by_id w /\
  m_features_queue w' = m_features_queue w /\
  m_inferred_features_queue w' = m_inferred_features_queue w /\
  sink w' = sink w.
Proof.
  unfold forward_with_retry, call_forward. munfold. simpl.
  destruct (module_forward (forward_calls w) inputs); simpl; [done| |done].
  destruct DORADO_CUDA_BUILD; simpl; [|done].
  by destruct (module_forward (S _) _).
Qed.

Lemma assign_inferred_keys split_preds (w : nat) l l' :
  assign_inferred w split_preds l = Some l' -> key <$> l' = key <$> l.
Proof.
  revert w l. induction split_preds as [|p ps IH]; intros w l; simpl.
  - by intros [= ->].
  - destruct (decode_preds p) as [d|]; [|done].
    destruct (l !! w) as [wf|] eqn:Hw; [|done].
    intros Has. apply IH in Has. rewrite Has, list_fmap_insert.
    apply list_insert_id. by rewrite list_lookup_fmap, Hw.
Qed.

Lemma batch_infer_effect device batch_size b w b' w' :
  batch_infer device batch_size b w = (Ok b', w') ->
  b' = new_batcher batch_size /\
  m_features_by_id w' = m_features_by_id w /\
  m_pending_features_by_id w' = m_pending_features_by_id w /\
  m_features_queue w' = m_features_queue w /\
  exists moved,
    m_inferred_features_queue w' = m_inferred_features_queue w ++ moved /\
    key <$> moved = key <$> wfs b.
Proof.
  intros Hbi. split; [by eapply batch_infer_resets|].
  rewrite batch_infer_unfold in Hbi. set (w0 := set_events _ w) in Hbi.
  pose proof (forward_with_retry_frame (batch_inputs device b) w0) as Hf.
  destruct (forward_with_retry (batch_inputs device b) w0) as [[output| |] w1] eqn:Hfw.
  - rewrite (bind_ok _ _ _ _ _ Hfw) in Hbi. simpl in Hf.
    destruct Hf as (Hf1 & Hf2 & Hf3 & Hf4 & _).
    destruct output as [elements|]; [|done]. revert Hbi. munfold.
    destruct (elements !! 1%nat); simpl; [|done].
    destruct (split_with_sizes _ _); simpl; [|done].
    destruct (assign_inferred _ _ _) as [wfs'|] eqn:Has; simpl; [|done].
    rewrite for_each_push_inferred. intros [= _ <-]. simpl.
    rewrite Hf1, Hf2, Hf3, Hf4. repeat split; try done.
    exists wfs'. split; [done|]. by eapply assign_inferred_keys.
  - by rewrite (bind_throw _ _ _ _ _ Hfw) in Hbi.
  - by rewrite (bind_undefined _ _ _ _ Hfw) in Hbi.
Qed.

Lemma flush_if_any_effect device batch_size b w b' w' :
  flush_if_any device batch_size b w = (Ok b', w') ->
  m_features_by_id w' = m_features_by_id w /\
  m_pending_features_by_id w' = m_pending_features_by_id w /\
  m_features_queue w' = m_features_queue w /\
  exists moved,
    m_inferred_features_queue w' = m_inferred_features_queue w ++ moved /\
    (key <$> moved) ++ (key <$> wfs b') = key <$> wfs b.
Proof.
  unfold flush_if_any. destruct (decide _).
  - intros Hbi. apply batch_infer_effect in Hbi as (-> & ? & ? & ? & moved & ? & Hk).
    repeat split; try done. exists moved. split; [done|]. simpl.
    by rewrite app_nil_r.
  - intros [= <- <-]. repeat split; try done. exists []. by rewrite app_nil_r.
Qed.

Lemma infer_on_item_effect device batch_size item b w b' w' :
  infer_on_item device batch_size item b w = (Ok b', w') ->
  m_features_by_id w' = m_features_by_id w /\
  m_pending_features_by_id w' = m_pending_features_by_id w /\
  m_features_queue w' = m_features_queue w /\
  exists moved,
    m_inferred_features_queue w' = m_inferred_features_queue w ++ moved /\
    (key <$> moved) ++ (key <$> wfs b') = (key <$> wfs b) ++ [key item].
Proof.
  unfold infer_on_item.
  destruct (required_batch_slots item) as [required|]; [|done].
  munfold. simpl. destruct (decide _).
  - destruct (batch_infer device batch_size b w) as [[b1| |] w1] eqn:Hbi; [|done..].
    intros [= <- <-].
    apply batch_infer_effect in Hbi as (-> & ? & ? & ? & moved & ? & Hk).
    repeat split; try done. exists moved. split; [done|]. simpl. by rewrite Hk.
  - intros [= <- <-]. repeat split; try done. exists []. split; [by rewrite app_nil_r|].
    simpl. by rewrite fmap_app.
Qed.

(** The input worker never throws; it either leaves maps and features
    queue alone, or makes the record of a new read and pushes its windows. *)
Lemma input_message_effect message w :
  exists w', input_message message w = (Ok tt, w') /\
    m_inferred_features_queue w' = m_inferred_features_queue w /\
    ((m_features_by_id w' = m_features_by_id w /\
      m_pending_features_by_id w' = m_pending_features_by_id w /\
      m_features_queue w' = m_features_queue w) \/
     (exists tname wfs,
        message = CorrectionAlignments tname (Some wfs) /\
        to_infer wfs <> [] /\
        m_features_by_id w !! tname = None /\
        m_features_by_id w' = <[tname := initial_slots wfs]> (m_features_by_id w) /\
        m_pending_features_by_id w'
          = umap_insert tname (to_int (Z.of_nat (length (to_infer wfs))))
                        (m_pending_features_by_id w) /\
        m_features_queue w' = m_features_queue w ++ to_infer wfs)).
Proof.
  destruct message as [tname [wfs|]|payload].
  - rewrite input_message_unfold.
    destruct (to_infer wfs) as [|x l] eqn:Hti.
    + unfold bump_early_reads, bump_reads. munfold. simpl.
      rewrite concat_features_and_send_run. simpl. eexists. split; [done|]. simpl.
      split; [done|]. by left.
    + rewrite <- Hti. destruct (m_features_by_id w !! tname) eqn:Hf.
      * eexists. split; [done|]. simpl. split; [done|]. by left.
      * unfold bump_reads. munfold. rewrite for_each_push_features. simpl.
        eexists. split; [done|]. simpl. split; [done|]. right.
        exists tname, wfs. rewrite Hti. repeat split; try done.
        unfold umap_insert. by rewrite Hf.
  - eexists. split; [done|]. split; [done|]. by left.
  - eexists. split; [done|]. split; [done|]. by left.
Qed.

(** The decode worker, when it returns: it only logged, or it completed
    the read and erased both entries, or it updated both entries. *)
Lemma decode_iteration_effect item w w' :
  decode_iteration item w = (Ok tt, w') ->
  let n := read_name item in
  m_features_queue w' = m_features_queue w /\
  m_inferred_features_queue w' = m_inferred_features_queue w /\
  match m_features_by_id w !! n with
  | None =>
      w' = set_events (events w ++ [LogError ("Decoded feature list not found for " +:+ n +:+ ".")]) w
  | Some slots =>
      exists pending (pos : nat),
        m_pending_features_by_id w !! n = Some pending /\
        window_idx item = Z.of_nat pos /\ (pos < length slots)%nat /\
        pending <> INT_MIN /\
        let slots' := <[pos := decode_window item]> slots in
        if decide (pending - 1 = 0) then
          w' = set_sink (sink w ++ (BamMessage <$> records_to_send slots' n))
                 (set_events (events w ++ [CallConcat n slots'])
                    (set_maps (delete n (m_features_by_id w))
                              (delete n (m_pending_features_by_id w)) w))
        else
          w' = set_maps (<[n := slots']> (m_features_by_id w))
                        (<[n := pending - 1]> (m_pending_features_by_id w)) w
  end.
Proof.
  unfold decode_iteration. munfold. simpl.
  destruct (m_features_by_id w !! read_name item) as [slots|] eqn:Hf; simpl.
  2:{ intros [= <-]. done. }
  destruct (decide (0 <= window_idx item < Z.of_nat (length slots))) as [Hr|]; [|done].
  destruct (m_pending_features_by_id w !! read_name item) as [pending|] eqn:Hp;
    simpl; [|done].
  destruct (decide (pending = INT_MIN)); [done|].
  destruct (decide (pending - 1 = 0)) as [Hz|Hz]; simpl.
  - destruct (<[Z.to_nat (window_idx item) := decode_window item]> slots) as [|s0 sl] eqn:Hs.
    { apply (f_equal length) in Hs. rewrite length_insert in Hs. simpl in Hs. lia. }
    rewrite concat_features_and_send_run. simpl. intros [= <-]. simpl.
    split; [done|]. split; [done|].
    exists pending, (Z.to_nat (window_idx item)).
    split; [done|]. split; [lia|]. split; [lia|]. split; [done|].
    simpl. rewrite decide_True by done. by rewrite Hs.
  - intros [= <-]. simpl. split; [done|]. split; [done|].
    exists pending, (Z.to_nat (window_idx item)).
    split; [done|]. split; [lia|]. split; [lia|]. split; [done|].
    simpl. by rewrite decide_False by done.
Qed.

(** ** The maps have the same keys *)

Lemma sys_step_dom l s s' :
  sys_step l s = Some s' ->
  dom (m_features_by_id (world s)) = dom (m_pending_features_by_id (world s)) ->
  dom (m_features_by_id (world s')) = dom (m_pending_features_by_id (world s')).
Proof.
  intros Hstep Hdom. destruct l as [message|i k|i|k]; simpl in Hstep.
  - destruct (input_message_effect message (world s)) as (w' & Hin & _ & Hcase).
    unfold exec in Hstep. rewrite Hin in Hstep. simpl in Hstep.
    injection Hstep as <-. simpl.
    destruct Hcase as [(-> & -> & _)|(tname & wfs & _ & _ & Hnone & -> & -> & _)]; [done|].
    unfold umap_insert.
    assert (m_pending_features_by_id (world s) !! tname = None) as ->.
    { apply not_elem_of_dom. rewrite <- Hdom. by apply not_elem_of_dom. }
    by rewrite !dom_insert_L, Hdom.
  - destruct (workers s !! i) as [iw|]; [|done]. simpl in Hstep.
    destruct (m_features_queue (world s) !! k) as [item|]; [|done]. simpl in Hstep.
    unfold exec in Hstep.
    destruct (infer_on_item _ _ _ _ _) as [[b'| |] w'] eqn:Hit; [|done..].
    simpl in Hstep. injection Hstep as <-. simpl.
    apply infer_on_item_effect in Hit as (-> & -> & _). done.
  - destruct (workers s !! i) as [iw|]; [|done]. simpl in Hstep.
    unfold exec in Hstep.
    destruct (flush_if_any _ _ _ _) as [[b'| |] w'] eqn:Hfl; [|done..].
    simpl in Hstep. injection Hstep as <-. simpl.
    apply flush_if_any_effect in Hfl as (-> & -> & _). done.
  - destruct (m_inferred_features_queue (world s) !! k) as [item|]; [|done].
    simpl in Hstep. unfold exec in Hstep.
    destruct (decode_iteration _ _) as [[[]| |] w'] eqn:Hdec; [|done..].
    simpl in Hstep. injection Hstep as <-. simpl.
    apply decode_iteration_effect in Hdec as (_ & _ & Hcase). simpl in Hcase.
    destruct (m_features_by_id (world s) !! read_name item) as [slots|] eqn:Hf.
    + destruct Hcase as (pending & pos & Hp & _ & _ & _ & Hw'). simpl in Hw'.
      destruct (decide (pending - 1 = 0)); subst w'; simpl.
      * by rewrite !dom_delete_L, Hdom.
      * by rewrite !dom_insert_L, Hdom.
    + by subst w'.
Qed.

Lemma run_dom ls s0 s :
  run ls s0 = Some s ->
  dom (m_features_by_id (world s0)) = dom (m_pending_features_by_id (world s0)) ->
  dom (m_features_by_id (world s)) = dom (m_pending_features_by_id (world s)).
Proof.
  revert s0. induction ls as [|l ls IH]; intros s0; simpl.
  - by intros [= ->].
  - destruct (sys_step l s0) as [s1|] eqn:Hstep; [|done]. simpl.
    intros Hrun Hdom. eapply IH; [done|]. by eapply sys_step_dom.
Qed.

(** C10.  In every state the node reaches, whatever the messages and
    however the workers interleave, the two maps hold the same read names:
    a read has consensus slots iff it has a pending counter.  (A state is
    what lies between two steps; the critical sections are inside
    steps.) *)
Theorem maps_have_same_keys cfgs ls s :
  run ls (init_sys cfgs) = Some s ->
  dom (m_features_by_id (world s)) = dom (m_pending_features_by_id (world s)) /\
  forall n, is_Some (m_features_by_id (world s) !! n)
            <-> is_Some (m_pending_features_by_id (world s) !! n).
Proof.
  intros Hrun.
  assert (dom (m_features_by_id (world s)) = dom (m_pending_features_by_id (world s))) as Hd.
  { eapply run_dom; [done|]. done. }
  split; [done|]. intros n. by rewrite <- !elem_of_dom, Hd.
Qed.

(** ** Pending records and windows in flight *)

Lemma slots_of_cons n k ks :
  slots_of n (k :: ks) = if decide (k.1 = n) then k.2 :: slots_of n ks else slots_of n ks.
Proof. unfold slots_of. rewrite filter_cons. by destruct (decide _). Qed.

Lemma slots_of_app n ks1 ks2 : slots_of n (ks1 ++ ks2) = slots_of n ks1 ++ slots_of n ks2.
Proof. unfold slots_of. by rewrite filter_app, fmap_app. Qed.

Lemma slots_of_perm n ks ks' : ks ≡ₚ ks' -> slots_of n ks ≡ₚ slots_of n ks'.
Proof. intros H. unfold slots_of. by rewrite H. Qed.

Lemma record_inv_perm slots pending wr idx idx' :
  idx ≡ₚ idx' -> record_inv slots pending wr idx -> record_inv slots pending wr idx'.
Proof.
  intros Hp (H1 & H2 & H3 & H4 & H5 & H6). unfold record_inv.
  rewrite <- Hp. repeat split; try done; try lia.
  - intros Hi. apply H3. by rewrite Hp.
  - intros Hk. rewrite <- Hp. by apply H3.
Qed.

Lemma tracker_inv_perm f p g ks ks' :
  ks ≡ₚ ks' -> tracker_inv f p g ks -> tracker_inv f p g ks'.
Proof.
  intros Hp Hinv n. specialize (Hinv n). pose proof (slots_of_perm n _ _ Hp) as Hs.
  destruct (f !! n).
  - destruct Hinv as (pending & wr & ? & ? & Hr). exists pending, wr.
    split; [done|]. split; [done|]. by eapply record_inv_perm.
  - destruct Hinv as (? & ? & He). repeat split; try done.
    rewrite He in Hs. symmetry in Hs. by apply Permutation_nil_r in Hs.
Qed.

Lemma slots_of_same_name n (l : list WindowFeatures) :
  Forall (fun wf => read_name wf = n) l ->
  slots_of n (key <$> l) = window_idx <$> l.
Proof.
  induction 1 as [|wf l Hwf _ IH]; [done|].
  rewrite !fmap_cons, slots_of_cons. simpl. rewrite decide_True by done. by rewrite IH.
Qed.

Lemma slots_of_other_name n m (l : list WindowFeatures) :
  Forall (fun wf => read_name wf = n) l -> m <> n ->
  slots_of m (key <$> l) = [].
Proof.
  intros Hl Hne. induction Hl as [|wf l Hwf _ IH]; [done|].
  rewrite !fmap_cons, slots_of_cons. simpl. rewrite decide_False by congruence. done.
Qed.

(** The slots of the windows to infer of one read: distinct, and exactly
    the slots the input worker did not assign. *)
Lemma to_infer_slots wfs (off : nat) :
  (forall (w : nat) wf, wfs !! w = Some wf -> window_idx wf = Z.of_nat (off + w)) ->
  NoDup (window_idx <$> to_infer wfs) /\
  forall i, i ∈ window_idx <$> to_infer wfs
            <-> exists k : nat, i = Z.of_nat (off + k) /\ initial_writes wfs !! k = Some 0%nat.
Proof.
  revert off. induction wfs as [|wf wfs IH]; intros off Hpos.
  - split; [constructor|]. intros i. split; [by intros ?%elem_of_nil|].
    by intros (k & _ & ?).
  - destruct (IH (S off)) as [IHn IHm].
    { intros w wf' Hw. rewrite (Hpos (S w) wf' Hw). f_equal. lia. }
    pose proof (Hpos 0%nat wf eq_refl) as H0. rewrite Nat.add_0_r in H0.
    unfold to_infer, initial_writes in *.
    rewrite filter_cons, (fmap_cons (fun wf => if needs_inference wf then _ else _)).
    destruct (decide (needs_inference wf = true)) as [Hn|Hn].
    + rewrite Hn, fmap_cons. split.
      * apply NoDup_cons. split; [|done]. intros Hin. apply IHm in Hin as (k & Hk & _). lia.
      * intros i. rewrite elem_of_cons, IHm. split.
        -- intros [->|(k & -> & Hk)].
           ++ exists 0%nat. rewrite Nat.add_0_r. done.
           ++ exists (S k). split; [f_equal; lia|done].
        -- intros ([|k] & -> & Hk).
           ++ left. by rewrite Nat.add_0_r.
           ++ right. exists k. split; [f_equal; lia|done].
    + apply not_true_is_false in Hn. rewrite Hn. split; [done|].
      intros i. rewrite IHm. split.
      * intros (k & -> & Hk). exists (S k). split; [f_equal; lia|done].
      * intros ([|k] & -> & Hk); [done|]. exists k. split; [f_equal; lia|done].
Qed.

Lemma to_infer_length wfs : (length (to_infer wfs) <= length wfs)%nat.
Proof. apply length_filter. Qed.

Lemma initial_writes_le wfs : Forall (fun c => c <= 1)%nat (initial_writes wfs).
Proof.
  unfold initial_writes. apply Forall_fmap, Forall_forall. intros wf _. simpl.
  destruct (needs_inference wf); lia.
Qed.

Lemma tracker_inv_accept f p g ks tname wfs :
  wf_message (CorrectionAlignments tname (Some wfs)) ->
  f !! tname = None ->
  to_infer wfs <> [] ->
  tracker_inv f p g ks ->
  tracker_inv (<[tname := initial_slots wfs]> f)
              (umap_insert tname (to_int (Z.of_nat (length (to_infer wfs)))) p)
              (<[tname := initial_writes wfs]> g)
              (ks ++ (key <$> to_infer wfs)).
Proof.
  intros [Hsmall Hwf] Hnone Hne Hinv.
  pose proof (Hinv tname) as Ht. rewrite Hnone in Ht. destruct Ht as (Hp & Hg & Hs).
  unfold umap_insert. rewrite Hp.
  assert (Forall (fun wf => read_name wf = tname) (to_infer wfs)) as Hnames.
  { apply Forall_forall. intros wf [_ Hin]%list_elem_of_filter.
    apply list_elem_of_lookup in Hin as [w Hw]. by apply (Hwf w). }
  intros n. destruct (decide (n = tname)) as [->|Hn].
  - rewrite !lookup_insert_eq. eexists _, _. split; [done|]. split; [done|].
    rewrite slots_of_app, Hs, slots_of_same_name by done. simpl.
    destruct (to_infer_slots wfs 0) as [Hnd Hmem].
    { intros w wf Hw. by apply (Hwf w). }
    pose proof (to_infer_length wfs) as Hle.
    unfold record_inv. rewrite length_fmap.
    rewrite to_int_small by lia.
    split; [unfold initial_writes, initial_slots; by rewrite !length_fmap|].
    split; [done|]. split; [done|]. split; [apply initial_writes_le|].
    split; [done|]. destruct (to_infer wfs); [done|]. simpl in *. lia.
  - rewrite !lookup_insert_ne by done. specialize (Hinv n).
    rewrite slots_of_app, (slots_of_other_name tname n) by done. rewrite app_nil_r. done.
Qed.

Lemma tracker_inv_decode f p g ks n i :
  tracker_inv f p g ((n, i) :: ks) ->
  exists slots pending wr (pos : nat),
    f !! n = Some slots /\ p !! n = Some pending /\ g !! n = Some wr /\
    i = Z.of_nat pos /\ wr !! pos = Some 0%nat /\ (pos < length slots)%nat /\
    0 < pending < 2 ^ 31 /\
    (pending - 1 = 0 <-> Forall (fun c => c = 1%nat) (<[pos := 1%nat]> wr)) /\
    (pending - 1 = 0 -> slots_of n ks = [] /\
       tracker_inv (delete n f) (delete n p) (delete n g) ks) /\
    (pending - 1 <> 0 -> forall slots', length slots' = length slots ->
       tracker_inv (<[n := slots']> f) (<[n := pending - 1]> p)
                   (<[n := <[pos := 1%nat]> wr]> g) ks).
Proof.
  intros Hinv. pose proof (Hinv n) as Hn. rewrite slots_of_cons in Hn. simpl in Hn.
  rewrite decide_True in Hn by done.
  destruct (f !! n) as [slots|] eqn:Hf; [|by destruct Hn as (_ & _ & ?)].
  destruct Hn as (pending & wr & Hp & Hg & Hlen & Hnd & Hmem & Hle & Hcount & Hrange).
  apply NoDup_cons in Hnd as [Hi Hnd].
  destruct (proj1 (Hmem i)) as (pos & -> & Hpos); [by left|].
  assert (pos < length slots)%nat as Hposlt.
  { rewrite <- Hlen. by eapply lookup_lt_Some. }
  simpl in Hcount.
  assert (forall k : nat, Z.of_nat k ∈ slots_of n ks <->
                          (<[pos := 1%nat]> wr) !! k = Some 0%nat) as Hmem'.
  { intros k. destruct (decide (k = pos)) as [->|Hk].
    - rewrite list_lookup_insert_eq by (by eapply lookup_lt_Some). split; [done|done].
    - rewrite list_lookup_insert_ne by done. split.
      + intros Hin. destruct (proj1 (Hmem (Z.of_nat k))) as (k' & Hk' & Hw); [by right|].
        apply Nat2Z.inj in Hk' as <-. done.
      + intros Hw.
        assert (Z.of_nat k ∈ Z.of_nat pos :: slots_of n ks) as Hin
          by (apply Hmem; by exists k).
        apply elem_of_cons in Hin as [Heq|Hin]; [|done].
        apply Nat2Z.inj in Heq. done. }
  assert (forall j, j ∈ slots_of n ks -> exists k : nat, j = Z.of_nat k) as Hnat.
  { intros j Hj. destruct (proj1 (Hmem j)) as (k & -> & _); [by right|]. by exists k. }
  assert (Forall (fun c => c <= 1)%nat (<[pos := 1%nat]> wr)) as Hle'.
  { apply Forall_insert; [done|lia]. }
  assert (pending - 1 = 0 <-> slots_of n ks = []) as Hzero.
  { split.
    - intros Hz. apply length_zero_iff_nil. lia.
    - intros Hz. rewrite Hz in Hcount. simpl in Hcount. lia. }
  assert (forall m, m <> n -> slots_of m ((n, Z.of_nat pos) :: ks) = slots_of m ks) as Hother.
  { intros m Hm. rewrite slots_of_cons. simpl. by rewrite decide_False. }
  exists slots, pending, wr, pos.
  do 6 (split; [done|]). split; [lia|]. split; [split|split].
  - intros Hz. apply Hzero in Hz. apply Forall_lookup_2. intros k c Hk.
    rewrite Forall_lookup in Hle'. specialize (Hle' k c Hk).
    destruct c as [|[|c]]; [|done|lia].
    apply Hmem' in Hk. rewrite Hz in Hk. by apply elem_of_nil in Hk.
  - intros Hall. apply Hzero. destruct (slots_of n ks) as [|j idx] eqn:Hidx; [done|].
    destruct (Hnat j) as [k ->]; [by left|].
    assert (Z.of_nat k ∈ Z.of_nat k :: idx) as Hin by by left.
    apply Hmem' in Hin. rewrite Forall_lookup in Hall. by specialize (Hall k _ Hin).
  - intros Hz. split; [by apply Hzero|]. intros m.
    destruct (decide (m = n)) as [->|Hm].
    + rewrite !lookup_delete_eq. repeat split. by apply Hzero.
    + rewrite !lookup_delete_ne by done. specialize (Hinv m). by rewrite Hother in Hinv.
  - intros Hnz slots' Hlen' m. destruct (decide (m = n)) as [->|Hm].
    + rewrite !lookup_insert_eq. eexists _, _. split; [done|]. split; [done|].
      unfold record_inv. rewrite length_insert.
      split; [congruence|]. split; [done|]. split; [|split; [done|lia]].
      intros j. split.
      * intros Hj. destruct (Hnat _ Hj) as [k ->]. exists k. split; [done|].
        by apply Hmem'.
      * intros (k & -> & Hk). by apply Hmem'.
    + rewrite !lookup_insert_ne by done. specialize (Hinv m). by rewrite Hother in Hinv.
Qed.

Lemma flight_keys_unfold s :
  flight_keys s
  = (key <$> m_features_queue (world s)) ++ worker_keys (workers s)
    ++ (key <$> m_inferred_features_queue (world s)).
Proof.
  unfold flight_keys, in_flight, worker_keys. rewrite !fmap_app. do 2 f_equal.
  induction (workers s) as [|iw ws IH]; [done|].
  rewrite !fmap_cons. simpl. by rewrite fmap_app, IH.
Qed.

Lemma worker_keys_insert ws (i : nat) iw b' :
  ws !! i = Some iw ->
  worker_keys (<[i := with_batcher iw b']> ws) ++ (key <$> wfs (iw_batcher iw))
  ≡ₚ worker_keys ws ++ (key <$> wfs b').
Proof.
  unfold worker_keys. revert i. induction ws as [|x ws IH]; intros i Hi; [done|].
  destruct i as [|i]; simpl in *.
  - injection Hi as ->. solve_Permutation.
  - rewrite <- !app_assoc. by rewrite (IH i Hi).
Qed.

Lemma alter_bump_slot (g : gmap string (list nat)) n wr (pos : nat) :
  g !! n = Some wr -> wr !! pos = Some 0%nat ->
  alter (bump_slot pos) n g = <[n := <[pos := 1%nat]> wr]> g.
Proof.
  intros Hg Hpos. apply map_eq. intros m. rewrite lookup_alter, lookup_insert.
  destruct (decide (n = m)) as [->|]; [|done].
  rewrite Hg. simpl. unfold bump_slot. by rewrite Hpos.
Qed.

Lemma perm_pop {T} (x : T) F A W W' I Mv B B' :
  F ≡ₚ x :: A -> W' ++ B ≡ₚ W ++ B' -> Mv ++ B' = B ++ [x] ->
  F ++ W ++ I ≡ₚ A ++ W' ++ I ++ Mv.
Proof.
  intros HF HW HB. apply (inj (.++ B)). rewrite HF.
  transitivity (A ++ (W' ++ B) ++ I ++ Mv); [|solve_Permutation].
  rewrite HW.
  transitivity (A ++ W ++ I ++ (Mv ++ B')); [|solve_Permutation].
  rewrite HB. solve_Permutation.
Qed.

Lemma perm_flush {T} (A W W' I Mv B B' : list T) :
  W' ++ B ≡ₚ W ++ B' -> Mv ++ B' = B ->
  A ++ W ++ I ≡ₚ A ++ W' ++ I ++ Mv.
Proof.
  intros HW HB. apply (inj (.++ B)).
  transitivity (A ++ (W' ++ B) ++ I ++ Mv); [|solve_Permutation].
  rewrite HW.
  transitivity (A ++ W ++ I ++ (Mv ++ B')); [|solve_Permutation].
  rewrite HB. solve_Permutation.
Qed.

(** Every step keeps the records and the windows in flight in step. *)
Lemma sys_step_inv l s s' g :
  wf_label l -> sys_step l s = Some s' -> sys_inv s g ->
  sys_inv s' (track_writes l s s' g).
Proof.
  intros Hwf Hstep Hinv. unfold sys_inv in *.
  rewrite flight_keys_unfold in *.
  destruct l as [message|i k|i|k]; simpl in Hstep.
  - destruct (input_message_effect message (world s)) as (w' & Hin & Hiq & Hcase).
    unfold exec in Hstep. rewrite Hin in Hstep. simpl in Hstep.
    injection Hstep as <-. simpl.
    destruct Hcase as [(Hf & Hp & Hq)|(tname & wfs & -> & Hne & Hnone & Hf & Hp & Hq)].
    + rewrite Hf, Hp, Hq, Hiq.
      destruct message as [tname [wfs|]|]; [|done..].
      destruct (m_features_by_id (world s) !! tname); done.
    + rewrite Hnone, Hf, lookup_insert_eq, Hp, Hq, Hiq, fmap_app.
      eapply tracker_inv_perm; [|by apply tracker_inv_accept].
      solve_Permutation.
  - destruct (workers s !! i) as [iw|] eqn:Hiw; [|done]. simpl in Hstep.
    destruct (m_features_queue (world s) !! k) as [item|] eqn:Hk; [|done].
    simpl in Hstep. unfold exec in Hstep.
    destruct (infer_on_item _ _ _ _ _) as [[b'| |] w'] eqn:Hit; [|done..].
    simpl in Hstep. injection Hstep as <-. simpl.
    apply infer_on_item_effect in Hit as (-> & -> & -> & moved & -> & Hkeys). simpl.
    eapply tracker_inv_perm; [|done]. rewrite fmap_app.
    eapply perm_pop; [|by apply worker_keys_insert|done].
    rewrite <- fmap_cons. apply fmap_Permutation. by apply delete_Permutation.
  - destruct (workers s !! i) as [iw|] eqn:Hiw; [|done]. simpl in Hstep.
    unfold exec in Hstep.
    destruct (flush_if_any _ _ _ _) as [[b'| |] w'] eqn:Hfl; [|done..].
    simpl in Hstep. injection Hstep as <-. simpl.
    apply flush_if_any_effect in Hfl as (-> & -> & -> & moved & -> & Hkeys). simpl.
    eapply tracker_inv_perm; [|done]. rewrite fmap_app.
    eapply perm_flush; [by apply worker_keys_insert|done].
  - destruct (m_inferred_features_queue (world s) !! k) as [item|] eqn:Hk; [|done].
    simpl in Hstep. unfold exec in Hstep.
    destruct (decode_iteration _ _) as [[[]| |] w'] eqn:Hdec; [|done..].
    simpl in Hstep. injection Hstep as <-. simpl.
    apply decode_iteration_effect in Hdec as (Hq & Hiq & Hcase).
    simpl in Hq, Hiq, Hcase. rewrite Hq, Hiq.
    assert (tracker_inv (m_features_by_id (world s)) (m_pending_features_by_id (world s)) g
              ((read_name item, window_idx item) ::
               (key <$> m_features_queue (world s)) ++ worker_keys (workers s) ++
               (key <$> delete k (m_inferred_features_queue (world s))))) as Hinv'.
    { eapply tracker_inv_perm; [|done].
      rewrite (delete_Permutation _ _ _ Hk) at 1. rewrite fmap_cons.
      unfold key at 2. solve_Permutation. }
    destruct (tracker_inv_decode _ _ _ _ _ _ Hinv')
      as (slots & pending & wr & pos & Hf & Hp & Hg & Hpos & Hwr & Hlt & Hr & Hiff & Hz & Hnz).
    rewrite Hf in Hcase. rewrite Hk, Hf.
    destruct Hcase as (pending' & pos' & Hp' & Hpos' & _ & _ & Hw').
    rewrite Hp in Hp'. injection Hp' as <-.
    assert (pos' = pos) as -> by lia. simpl in Hw'.
    destruct (decide (pending - 1 = 0)) as [Hzero|Hnzero]; subst w'; simpl.
    + rewrite lookup_delete_eq. by apply Hz.
    + rewrite lookup_insert_eq. rewrite Hpos, Nat2Z.id.
      rewrite (alter_bump_slot _ _ _ _ Hg Hwr). apply Hnz; [done|].
      by rewrite length_insert.
Qed.

Lemma init_sys_inv cfgs : sys_inv (init_sys cfgs) ∅.
Proof.
  unfold sys_inv. rewrite flight_keys_unfold. simpl.
  assert (worker_keys ((fun c : Device * Z =>
            {| iw_device := c.1; iw_batch_size := c.2; iw_batcher := new_batcher c.2 |})
            <$> cfgs) = []) as ->.
  { unfold worker_keys. induction cfgs as [|c cfgs IH]; [done|]. by rewrite fmap_cons. }
  intros n. by rewrite !lookup_empty.
Qed.

Lemma run_tracked_inv ls s0 g0 s g :
  Forall wf_label ls -> run_tracked ls s0 g0 = Some (s, g) ->
  sys_inv s0 g0 -> sys_inv s g.
Proof.
  intros Hwf. revert s0 g0. induction Hwf as [|l ls Hl _ IH]; intros s0 g0; simpl.
  - by intros [= -> ->].
  - destruct (sys_step l s0) as [s1|] eqn:Hstep; [|done]. simpl.
    intros Hrun Hinv. eapply IH; [done|]. by apply sys_step_inv.
Qed.

Lemma in_flight_idx_slots n s : in_flight_idx n s = slots_of n (flight_keys s).
Proof.
  unfold in_flight_idx, slots_of, flight_keys.
  induction (in_flight s) as [|wf l IH]; [done|].
  rewrite fmap_cons, !filter_cons. simpl.
  destruct (decide (read_name wf = n)); [|done]. by rewrite !fmap_cons, IH.
Qed.

Lemma decode_iteration_run item w slots pending (pos : nat) :
  m_features_by_id w !! read_name item = Some slots ->
  m_pending_features_by_id w !! read_name item = Some pending ->
  window_idx item = Z.of_nat pos -> (pos < length slots)%nat ->
  pending <> INT_MIN ->
  let n := read_name item in
  let slots' := <[pos := decode_window item]> slots in
  decode_iteration item w
  = (Ok tt,
     if decide (pending - 1 = 0) then
       set_sink (sink w ++ (BamMessage <$> records_to_send slots' n))
         (set_events (events w ++ [CallConcat n slots'])
            (set_maps (delete n (m_features_by_id w))
                      (delete n (m_pending_features_by_id w)) w))
     else
       set_maps (<[n := slots']> (m_features_by_id w))
                (<[n := pending - 1]> (m_pending_features_by_id w)) w).
Proof.
  intros Hf Hp Hpos Hlt Hmin. unfold decode_iteration. munfold. simpl.
  rewrite Hf. rewrite decide_True by lia. rewrite Hp. simpl.
  rewrite decide_False by done. rewrite Hpos, Nat2Z.id.
  destruct (decide (pending - 1 = 0)); simpl; [|done].
  destruct (<[pos := decode_window item]> slots) as [|s0 sl] eqn:Hs.
  { apply (f_equal length) in Hs. rewrite length_insert in Hs. simpl in Hs. lia. }
  by rewrite concat_features_and_send_run.
Qed.

(** C2.  Take any state the node reaches on messages as
    [extract_features] makes them, a window [item] waiting in the inferred
    queue, and the pending record of its read.  The decode step on [item]
    is defined: it writes the decoded string into slot [window_idx] of the
    record and takes one off the counter.  The counter arrives at 0
    exactly when, that write counted, every slot of the record has been
    written once (at ingestion or by a decode step).  When it does, both
    map entries are gone after the step, no window of the read is left
    in flight, and [concat_features_and_send] has been called once, on the
    slot vector; when it does not, the record stays, with the new slot and
    the new counter, and nothing is sent. *)
Theorem pending_reaches_zero_iff_all_written cfgs ls s g (k : nat) item slots
    (Hwf : Forall wf_label ls)
    (Hrun : run_tracked ls (init_sys cfgs) ∅ = Some (s, g))
    (Hitem : m_inferred_features_queue (world s) !! k = Some item)
    (Hrec : m_features_by_id (world s) !! read_name item = Some slots) :
  let n := read_name item in
  exists pending wr (pos : nat) s',
    m_pending_features_by_id (world s) !! n = Some pending /\
    g !! n = Some wr /\
    window_idx item = Z.of_nat pos /\ (pos < length slots)%nat /\
    sys_step (DecodeStep k) s = Some s' /\
    let slots' := <[pos := decode_window item]> slots in
    let wr' := bump_slot pos wr in
    (pending - 1 = 0 <-> Forall (fun c => c = 1%nat) wr') /\
    if decide (pending - 1 = 0) then
      m_features_by_id (world s') !! n = None /\
      m_pending_features_by_id (world s') !! n = None /\
      track_writes (DecodeStep k) s s' g !! n = None /\
      in_flight_idx n s' = [] /\
      events (world s') = events (world s) ++ [CallConcat n slots'] /\
      sink (world s') = sink (world s) ++ (BamMessage <$> records_to_send slots' n)
    else
      m_features_by_id (world s') !! n = Some slots' /\
      m_pending_features_by_id (world s') !! n = Some (pending - 1) /\
      track_writes (DecodeStep k) s s' g !! n = Some wr' /\
      events (world s') = events (world s) /\
      sink (world s') = sink (world s).
Proof.
  intros n. subst n.
  pose proof (run_tracked_inv _ _ _ _ _ Hwf Hrun (init_sys_inv cfgs)) as Hinv.
  unfold sys_inv in Hinv. rewrite flight_keys_unfold in Hinv.
  assert (tracker_inv (m_features_by_id (world s)) (m_pending_features_by_id (world s)) g
            ((read_name item, window_idx item) ::
             (key <$> m_features_queue (world s)) ++ worker_keys (workers s) ++
             (key <$> delete k (m_inferred_features_queue (world s))))) as Hinv'.
  { eapply tracker_inv_perm; [|done].
    rewrite (delete_Permutation _ _ _ Hitem) at 1. rewrite fmap_cons.
    unfold key at 2. solve_Permutation. }
  destruct (tracker_inv_decode _ _ _ _ _ _ Hinv')
    as (slots0 & pending & wr & pos & Hf & Hp & Hg & Hpos & Hwr & Hlt & Hr & Hiff & Hz & Hnz).
  rewrite Hrec in Hf. injection Hf as <-.
  set (w0 := set_inferred_features_queue
               (delete k (m_inferred_features_queue (world s))) (world s)).
  pose proof (decode_iteration_run item w0 slots pending pos Hrec Hp Hpos Hlt) as Hdec.
  simpl in Hdec.
  assert (pending <> INT_MIN) as Hmin by (unfold INT_MIN; lia).
  specialize (Hdec Hmin).
  assert (bump_slot pos wr = <[pos := 1%nat]> wr) as Hbump.
  { unfold bump_slot. by rewrite Hwr. }
  exists pending, wr, pos. eexists.
  split; [done|]. split; [done|]. split; [done|]. split; [done|]. split.
  { simpl. rewrite Hitem. simpl. unfold exec. fold w0. rewrite Hdec. simpl. reflexivity. }
  simpl. rewrite Hitem, Hrec, Hbump. split; [done|].
  destruct (decide (pending - 1 = 0)) as [Hzero|Hnzero]; simpl.
  - rewrite !lookup_delete_eq. destruct (Hz Hzero) as [Hnone _].
    repeat split; try done.
    rewrite in_flight_idx_slots, flight_keys_unfold. simpl. done.
  - rewrite !lookup_insert_eq. repeat split; try done.
    rewrite Hpos, Nat2Z.id, (alter_bump_slot _ _ _ _ Hg Hwr). by rewrite lookup_insert_eq.
Qed.

(** ** What reassembly keeps and what it drops *)

Lemma join_app r1 r2 : join (r1 ++ r2) = join r1 +:+ join r2.
Proof.
  induction r1 as [|s r1 IH]; simpl.
  - by rewrite append_nil.
  - by rewrite IH, append_assoc.
Qed.

Lemma concat_loop_join l acc cur :
  join (finish (foldl concat_iter (acc, cur) l)) = join acc +:+ cur +:+ join l.
Proof.
  revert acc cur. induction l as [|s l IH]; intros acc cur.
  - unfold finish. simpl. destruct cur as [|a cur]; simpl.
    + by rewrite !append_empty_r.
    + rewrite join_app. simpl. by rewrite !append_empty_r.
  - simpl. destruct s as [|a s]; simpl.
    + destruct cur as [|c cur]; simpl; rewrite IH.
      * by rewrite !append_nil.
      * rewrite join_app. simpl. by rewrite !append_assoc, !append_nil.
    + rewrite IH. by rewrite !append_assoc.
Qed.

Lemma concat_loop_nonempty l acc cur :
  Forall (fun s => s <> EmptyString) acc ->
  Forall (fun s => s <> EmptyString) (finish (foldl concat_iter (acc, cur) l)).
Proof.
  revert acc cur. induction l as [|s l IH]; intros acc cur Hacc.
  - unfold finish. simpl. destruct cur as [|a cur]; simpl; [done|].
    apply Forall_app. split; [done|]. by repeat constructor.
  - simpl. destruct s as [|a s]; simpl.
    + destruct cur as [|c cur]; simpl; apply IH; [done|].
      apply Forall_app. split; [done|]. by repeat constructor.
    + by apply IH.
Qed.

Lemma concat_loop_nil l cur :
  finish (foldl concat_iter ([], cur) l) = []
  <-> cur = EmptyString /\ Forall (fun s => s = EmptyString) l.
Proof.
  revert cur. induction l as [|s l IH]; intros cur.
  - unfold finish. simpl. destruct cur as [|a cur]; simpl; split; try done.
    by intros [? _].
  - simpl. destruct s as [|a s]; simpl.
    + destruct cur as [|c cur]; simpl.
      * rewrite IH. split; intros [? ?]; split; try done.
        -- by constructor.
        -- by inversion H0.
      * rewrite concat_loop_prefix. split.
        -- intros H. by apply app_eq_nil in H as [? _].
        -- by intros [? _].
    + rewrite IH. split.
      * intros [H _]. by destruct cur.
      * intros [_ H]. by inversion H.
Qed.

Lemma record_names_length name k : length (record_names name k) = k.
Proof.
  unfold record_names. destruct (decide (k = 1%nat)) as [->|_]; [done|].
  by rewrite length_fmap, length_seq.
Qed.

Lemma zip_with_create_seq (names seqs : list string) :
  length names = length seqs ->
  bam_seq <$> zip_with create_bam_record names seqs = seqs /\
  bam_qname <$> zip_with create_bam_record names seqs = names.
Proof.
  revert seqs. induction names as [|n names IH]; intros [|s seqs] Hlen; try done.
  simpl in Hlen. destruct (IH seqs) as [H1 H2]; [lia|].
  cbn [zip_with]. by rewrite !fmap_cons, H1, H2.
Qed.

Lemma records_to_send_seqs cons name :
  bam_seq <$> records_to_send cons name = concatenate_corrected_windows cons /\
  bam_qname <$> records_to_send cons name
  = record_names name (length (concatenate_corrected_windows cons)).
Proof.
  rewrite records_to_send_names. apply zip_with_create_seq, record_names_length.
Qed.

Lemma append_inj_l s t1 t2 : s +:+ t1 = s +:+ t2 -> t1 = t2.
Proof.
  induction s as [|a s IH]; [by rewrite !append_nil|].
  rewrite !append_cons. intros H. apply IH. congruence.
Qed.

Lemma to_string_inj n1 n2 : to_string n1 = to_string n2 -> n1 = n2.
Proof.
  unfold to_string. intros H.
  apply Unsigned.to_uint_inj.
  assert (Some (Nat.to_uint n1) = Some (Nat.to_uint n2)) as Hs; [|congruence].
  by rewrite <- !NilEmpty.usu, H.
Qed.

(** X1.  Reassembly neither loses nor invents a base: the sequences that
    [concatenate_corrected_windows] returns, joined, are the window strings,
    joined; and the records handed to the sink carry exactly these
    sequences, in order. *)
Theorem reassembly_keeps_every_base (cons : list string) (name : string) :
  join (concatenate_corrected_windows cons) = join cons /\
  bam_seq <$> records_to_send cons name = concatenate_corrected_windows cons /\
  join (bam_seq <$> records_to_send cons name) = join cons.
Proof.
  assert (join (concatenate_corrected_windows cons) = join cons) as H.
  { rewrite concatenate_unfold, concat_loop_join. simpl. by rewrite !append_nil. }
  destruct (records_to_send_seqs cons name) as [Hs _].
  split; [done|]. split; [done|]. by rewrite Hs.
Qed.

(** X2.  No record with an empty sequence is ever sent, and a read sends
    no record at all exactly when every one of its windows is the empty
    string. *)
Theorem empty_windows_give_no_record (cons : list string) (name : string) :
  Forall (fun r => bam_seq r <> EmptyString) (records_to_send cons name) /\
  (records_to_send cons name = [] <-> Forall (fun s => s = EmptyString) cons).
Proof.
  destruct (records_to_send_seqs cons name) as [Hs _].
  assert (Forall (fun s => s <> EmptyString) (concatenate_corrected_windows cons)) as Hne.
  { rewrite concatenate_unfold. by apply concat_loop_nonempty. }
  split.
  - rewrite <- Hs in Hne.
    apply Forall_forall. intros r Hr.
    by apply (proj1 (Forall_forall _ _) Hne), list_elem_of_fmap_2.
  - transitivity (concatenate_corrected_windows cons = []).
    + rewrite <- Hs. split; [by intros ->|apply fmap_nil_inv].
    + rewrite concatenate_unfold, concat_loop_nil. split; [by intros [_ ?]|done].
Qed.

(** X3.  The records of one read have pairwise distinct names: the read
    name alone for a single record, the read name with [":0"], [":1"], ...
    otherwise. *)
Theorem record_names_are_distinct (cons : list string) (name : string) :
  NoDup (bam_qname <$> records_to_send cons name) /\
  forall k, NoDup (record_names name k).
Proof.
  assert (forall k, NoDup (record_names name k)) as H.
  { intros k. unfold record_names. destruct (decide (k = 1%nat)) as [_|_].
    - apply NoDup_singleton.
    - apply NoDup_fmap_2_strong; [|apply NoDup_seq].
      intros a b _ _ Hab. by apply append_inj_l, append_inj_l, to_string_inj in Hab. }
  split; [|done].
  destruct (records_to_send_seqs cons name) as [_ Hn]. rewrite Hn. apply H.
Qed.

(** ** [parse_cigar] *)

Lemma parse_cigar_loop_ok pre mid suf opre omid0 omid osuf :
  length opre = length pre ->
  length omid0 = length mid ->
  Forall2 (fun c o => parse_cigar_op c = inr o) mid omid ->
  parse_cigar_loop (pre ++ mid ++ suf) (seq (length pre) (length mid))
                   (opre ++ omid0 ++ osuf)
  = Ok (opre ++ omid ++ osuf).
Proof.
  intros Hpre Hmid H. revert pre opre omid0 Hpre Hmid.
  induction H as [|c o mid omid Hc H IH]; intros pre opre omid0 Hpre Hmid.
  - by destruct omid0.
  - destruct omid0 as [|o0 omid0]; [done|]. simpl in Hmid.
    cbn [length seq parse_cigar_loop].
    rewrite lookup_app_r by lia. rewrite Nat.sub_diag. cbn [app lookup list_lookup].
    rewrite Hc.
    rewrite insert_app_r_alt by lia.
    rewrite Hpre, Nat.sub_diag. cbn [app insert list_insert].
    replace (S (length pre)) with (length (pre ++ [c])) by (rewrite length_app; simpl; lia).
    replace (pre ++ c :: mid ++ suf) with ((pre ++ [c]) ++ mid ++ suf)
      by (by rewrite <- app_assoc).
    replace (opre ++ o :: omid0 ++ osuf) with ((opre ++ [o]) ++ omid0 ++ osuf)
      by (by rewrite <- app_assoc).
    replace (opre ++ o :: omid ++ osuf) with ((opre ++ [o]) ++ omid ++ osuf)
      by (by rewrite <- app_assoc).
    apply IH; [rewrite !length_app; simpl|]; lia.
Qed.

Lemma parse_cigar_loop_throw pre c suf e opre omid0 :
  length opre = length pre ->
  parse_cigar_op c = inl e ->
  parse_cigar_loop (pre ++ c :: suf) (seq (length pre) (S (length suf))) (opre ++ omid0)
  = Throw e.
Proof.
  intros Hpre Hc. cbn [seq parse_cigar_loop].
  rewrite lookup_app_r by lia. rewrite Nat.sub_diag. cbn [lookup list_lookup].
  by rewrite Hc.
Qed.

Lemma parse_cigar_loop_app cigar idx1 idx2 ops0 ops1 :
  parse_cigar_loop cigar idx1 ops0 = Ok ops1 ->
  parse_cigar_loop cigar (idx1 ++ idx2) ops0 = parse_cigar_loop cigar idx2 ops1.
Proof.
  revert ops0. induction idx1 as [|i idx1 IH]; intros ops0 H; simpl in *.
  - congruence.
  - destruct (cigar !! i) as [c|]; [|done].
    destruct (parse_cigar_op c) as [e|o]; [done|]. by apply IH.
Qed.

Lemma parse_cigar_op_known c :
  Z.land c 15 ∈ [MM_CIGAR_MATCH; MM_CIGAR_INS; MM_CIGAR_DEL] ->
  exists o, parse_cigar_op c = inr o /\ op_len o = Z.shiftr c 4.
Proof.
  rewrite !elem_of_cons, elem_of_nil. intros Hin. unfold parse_cigar_op.
  repeat (destruct (decide _) as [?|?]; [by eexists|]).
  destruct Hin as [?|[?|[?|[]]]]; congruence.
Qed.

Lemma parse_cigar_op_unknown c :
  Z.land c 15 ∉ [MM_CIGAR_MATCH; MM_CIGAR_INS; MM_CIGAR_DEL] ->
  parse_cigar_op c
  = inl (RuntimeError ("Unknown cigar op: " +:+ to_string (Z.to_nat (Z.land c 15)))).
Proof.
  rewrite !not_elem_of_cons. intros (? & ? & ? & _). unfold parse_cigar_op.
  repeat (destruct (decide _) as [?|?]; [done|]).
  done.
Qed.

Lemma cigar_word_fields op len :
  0 <= op < 16 -> 0 <= len ->
  Z.land (Z.lor (Z.shiftl len 4) op) 15 = op /\
  Z.shiftr (Z.lor (Z.shiftl len 4) op) 4 = len.
Proof.
  intros Hop Hlen. split.
  - rewrite Z.land_lor_distr_l.
    change 15 with (Z.ones 4). rewrite !Z.land_ones by lia.
    rewrite Z.shiftl_mul_pow2 by lia. rewrite Z_mod_mult.
    rewrite Z.mod_small by lia. apply Z.lor_0_l.
  - rewrite Z.shiftr_lor, Z.shiftr_shiftl_l by lia.
    rewrite (Z.shiftr_div_pow2 op) by lia. rewrite Z.div_small by lia.
    rewrite Z.sub_diag, Z.shiftl_0_r. apply Z.lor_0_r.
Qed.

(** X4.  [parse_cigar] on a CIGAR whose words all carry a match, insertion
    or deletion code returns one operation per word, in order: the type
    that [word & 0xf] selects and the length [word >> 4].  The value that
    [resize] filled the vector with does not show. *)
Theorem parse_cigar_reads_every_word (cigar : list Z)
    (Hops : Forall (fun c => Z.land c 15 ∈ [MM_CIGAR_MATCH; MM_CIGAR_INS; MM_CIGAR_DEL])
                   cigar) :
  exists ops,
    parse_cigar cigar (Z.of_nat (length cigar)) = Ok ops /\
    length ops = length cigar /\
    forall (i : nat) c, cigar !! i = Some c ->
      exists o, ops !! i = Some o /\ parse_cigar_op c = inr o /\ op_len o = Z.shiftr c 4.
Proof.
  assert (exists ops, Forall2 (fun c o => parse_cigar_op c = inr o /\ op_len o = Z.shiftr c 4)
                              cigar ops) as [ops Hall].
  { induction Hops as [|c cigar Hc _ [ops IH]]; [by exists []|].
    destruct (parse_cigar_op_known c Hc) as (o & ? & ?). exists (o :: ops). by constructor. }
  exists ops. split; [|split].
  - unfold parse_cigar. rewrite Nat2Z.id, resize_nil.
    pose proof (parse_cigar_loop_ok [] cigar [] []
                  (replicate (length cigar) cigar_op_default) ops []) as H.
    rewrite !app_nil_r in H. simpl in H. apply H; [done|by rewrite length_replicate|].
    eapply Forall2_impl; [exact Hall|]. by intros c o [? _].
  - symmetry. by eapply Forall2_length.
  - intros i c Hi. destruct (Forall2_lookup_l _ _ _ _ _ Hall Hi) as (o & Ho & ? & ?).
    by exists o.
Qed.

(** X5.  [parse_cigar] throws at the first word whose code is none of the
    three: a [std::runtime_error] that names the code in decimal.  The
    words after it are not looked at. *)
Theorem parse_cigar_rejects_unknown_op (pre suf : list Z) (c : Z)
    (Hpre : Forall (fun c => Z.land c 15 ∈ [MM_CIGAR_MATCH; MM_CIGAR_INS; MM_CIGAR_DEL]) pre)
    (Hc : Z.land c 15 ∉ [MM_CIGAR_MATCH; MM_CIGAR_INS; MM_CIGAR_DEL]) :
  parse_cigar (pre ++ c :: suf) (Z.of_nat (length (pre ++ c :: suf)))
  = Throw (RuntimeError ("Unknown cigar op: " +:+ to_string (Z.to_nat (Z.land c 15)))).
Proof.
  assert (exists ops, Forall2 (fun c o => parse_cigar_op c = inr o) pre ops) as [ops Hall].
  { induction Hpre as [|c' pre Hc' _ [ops IH]]; [by exists []|].
    destruct (parse_cigar_op_known c' Hc') as (o & ? & ?). exists (o :: ops). by constructor. }
  unfold parse_cigar. rewrite Nat2Z.id, resize_nil, length_app. cbn [length].
  rewrite seq_app. cbn [Nat.add].
  pose proof (parse_cigar_loop_ok [] pre (c :: suf) []
                (replicate (length pre) cigar_op_default) ops
                (replicate (S (length suf)) cigar_op_default)) as H.
  simpl app in H. simpl length in H.
  rewrite replicate_add.
  erewrite parse_cigar_loop_app; [|apply H; [done|by rewrite length_replicate|done]].
  apply parse_cigar_loop_throw.
  - by apply Forall2_length in Hall.
  - by apply parse_cigar_op_unknown.
Qed.

(** X6.  [parse_cigar] inverts the packing [len << 4 | op]: when the three
    codes are distinct and fit four bits, a list of operations packed word
    by word is read back unchanged. *)
Theorem parse_cigar_inverts_packing (ops : list CigarOp)
    (Hcodes : Forall (fun code => 0 <= code < 16)
                     [MM_CIGAR_MATCH; MM_CIGAR_INS; MM_CIGAR_DEL])
    (Hdistinct : NoDup [MM_CIGAR_MATCH; MM_CIGAR_INS; MM_CIGAR_DEL])
    (Hlen : Forall (fun o => 0 <= op_len o < 2 ^ 28) ops) :
  let code t := match t with
                | MATCH => MM_CIGAR_MATCH
                | INS => MM_CIGAR_INS
                | DEL => MM_CIGAR_DEL
                end in
  let pack o := Z.lor (Z.shiftl (op_len o) 4) (code (op_type o)) in
  Forall (fun word => 0 <= word < 2 ^ 32) (pack <$> ops) /\
  parse_cigar (pack <$> ops) (Z.of_nat (length (pack <$> ops))) = Ok ops.
Proof.
  intros code pack.
  assert (forall t, 0 <= code t < 16) as Hcode.
  { intros t. rewrite !Forall_cons in Hcodes. destruct Hcodes as (? & ? & ? & _).
    by destruct t. }
  assert (MM_CIGAR_MATCH <> MM_CIGAR_INS /\ MM_CIGAR_MATCH <> MM_CIGAR_DEL /\
          MM_CIGAR_INS <> MM_CIGAR_DEL) as (Hmi & Hmd & Hid).
  { rewrite !NoDup_cons, !not_elem_of_cons in Hdistinct.
    destruct Hdistinct as ((? & ? & _) & (? & _) & _). done. }
  assert (forall o, 0 <= op_len o -> parse_cigar_op (pack o) = inr o) as Hword.
  { intros [t len] Hl. simpl in Hl. unfold parse_cigar_op, pack. simpl op_len. simpl op_type.
    destruct (cigar_word_fields (code t) len (Hcode t) Hl) as [-> ->].
    destruct t; simpl; repeat (destruct (decide _) as [?|?]; try congruence). }
  split.
  - apply Forall_fmap, Forall_forall. intros o Ho.
    apply (proj1 (Forall_forall _ _) Hlen) in Ho. unfold compose, pack.
    pose proof (Hcode (op_type o)) as Hc.
    destruct (cigar_word_fields (code (op_type o)) (op_len o) Hc ltac:(lia)) as [Hl Hr].
    set (word := Z.lor (Z.shiftl (op_len o) 4) (code (op_type o))) in *.
    assert (0 <= word).
    { apply Z.lor_nonneg. split; [apply Z.shiftl_nonneg|]; lia. }
    rewrite Z.shiftr_div_pow2 in Hr by lia.
    assert (word / 2 ^ 4 < 2 ^ 28) by lia.
    split; [done|].
    pose proof (Z.div_mod word (2 ^ 4) ltac:(lia)).
    pose proof (Z.mod_pos_bound word (2 ^ 4) ltac:(lia)). lia.
  - unfold parse_cigar. rewrite Nat2Z.id, resize_nil, length_fmap.
    pose proof (parse_cigar_loop_ok [] (pack <$> ops) [] []
                  (replicate (length ops) cigar_op_default) ops []) as H.
    rewrite !app_nil_r in H. simpl in H. rewrite length_fmap in H.
    apply H; [done|by rewrite length_replicate|].
    apply Forall2_fmap_l, Forall_Forall2_diag.
    eapply Forall_impl; [exact Hlen|]. intros o [Ho _]. by apply Hword.
Qed.

(** ** [populate_alignments] *)

Lemma frame_outside_refl a lo hi : frame_outside a a lo hi.
Proof. by repeat split. Qed.

Lemma frame_outside_trans a1 a2 a3 lo mid hi :
  (lo <= mid <= hi)%nat ->
  frame_outside a1 a2 lo mid -> frame_outside a2 a3 mid hi -> frame_outside a1 a3 lo hi.
Proof.
  intros Hle (H1 & H2 & H3 & H4 & H5 & H6 & H7 & H8 & H9 & H10)
             (G1 & G2 & G3 & G4 & G5 & G6 & G7 & G8 & G9 & G10).
  do 9 (split; [congruence|]).
  intros j Hj.
  destruct (H10 j ltac:(lia)) as (? & ? & ? & ?).
  destruct (G10 j ltac:(lia)) as (? & ? & ? & ?).
  repeat split; congruence.
Qed.

Lemma populate_entry_spec tname tlen i a w :
  match populate_entry tname tlen i a w with
  | (Ok (ok, a'), w') =>
      frame_outside a a' i (S i) /\
      if ok then w' = w /\ entry_populated tlen a a' i
      else entry_rejected tname tlen a i w w'
  | (Throw _, w') => w' = w
  | (Undefined, w') => w' = w
  end.
Proof.
  unfold populate_entry, assign, lift. munfold. simpl.
  destruct (al_qnames a !! i) as [qname|] eqn:Hq; simpl; [|done].
  destruct (decide (i < length (al_seqs a))%nat) as [Hs|]; simpl; [|done].
  rewrite list_lookup_insert_eq by done. simpl.
  destruct (al_overlaps a !! i) as [ov|] eqn:Ho; simpl; [|done].
  assert (forall {T} (l : list T) (x : T) (j : nat),
            (j < i \/ S i <= j)%nat -> <[i := x]> l !! j = l !! j) as Hne.
  { intros T l x j Hj. apply list_lookup_insert_ne. lia. }
  destruct (decide (to_int (Z.of_nat (String.length (fetch_seq qname))) <> ov_qlen ov))
    as [Hqlen|Hqlen]; simpl.
  { split.
    - unfold frame_outside; simpl.
      do 9 (split; [by rewrite ?length_insert|]). intros j Hj. by rewrite Hne.
    - exists qname, ov. do 2 (split; [done|]). by left. }
  apply dec_stable in Hqlen.
  destruct (decide (i < length (al_quals a))%nat) as [Hqu|]; simpl; [|done].
  destruct (decide (ov_tlen ov <> tlen)) as [Htlen|Htlen]; simpl.
  { split.
    - unfold frame_outside; simpl.
      do 9 (split; [by rewrite ?length_insert|]). intros j Hj. by rewrite !Hne.
    - exists qname, ov. do 2 (split; [done|]). by right. }
  apply dec_stable in Htlen.
  destruct (al_mm2_cigars a !! i) as [mm2|] eqn:Hm; simpl; [|done].
  destruct (parse_cigar mm2 (to_uint32 (Z.of_nat (length mm2)))) as [ops|e|] eqn:Hp;
    simpl; [|done|done].
  destruct (decide (i < length (al_cigars a))%nat) as [Hci|]; simpl; [|done].
  split.
  - unfold frame_outside; simpl.
    do 9 (split; [by rewrite ?length_insert|]). intros j Hj. by rewrite !Hne.
  - split; [done|]. exists qname, ov, mm2, ops. simpl.
    do 6 (split; [done|]).
    rewrite !list_lookup_insert_eq; [done|..]; try done.
    by apply lookup_lt_Some in Hm.
Qed.

Lemma entry_populated_frame tlen a a1 a2 i lo hi :
  (i < lo \/ hi <= i)%nat ->
  al_qnames a1 = al_qnames a -> al_overlaps a1 = al_overlaps a ->
  frame_outside a1 a2 lo hi ->
  entry_populated tlen a a1 i -> entry_populated tlen a a2 i.
Proof.
  intros Hi Hq Ho (_ & _ & _ & _ & _ & _ & _ & _ & _ & Hj).
  destruct (Hj i Hi) as (Hs & Hqu & Hc & Hm).
  intros (qname & ov & mm2 & ops & ? & ? & ? & ? & ? & ? & ? & ? & ? & ?).
  exists qname, ov, mm2, ops. rewrite Hs, Hqu, Hc, Hm. done.
Qed.

Lemma entry_populated_base tlen a a1 a2 i lo hi :
  (i < lo \/ hi <= i)%nat ->
  frame_outside a a1 lo hi ->
  entry_populated tlen a1 a2 i -> entry_populated tlen a a2 i.
Proof.
  intros Hi (_ & _ & _ & Hq & Ho & _ & _ & _ & _ & Hj).
  destruct (Hj i Hi) as (_ & _ & _ & Hm).
  intros (qname & ov & mm2 & ops & ? & ? & ? & ? & ? & ? & ? & ? & ? & ?).
  exists qname, ov, mm2, ops. rewrite <- Hq, <- Ho, <- Hm. done.
Qed.

Lemma entry_rejected_base tname tlen a a1 i lo hi w w' :
  (i < lo \/ hi <= i)%nat ->
  frame_outside a a1 lo hi ->
  entry_rejected tname tlen a1 i w w' -> entry_rejected tname tlen a i w w'.
Proof.
  intros Hi (_ & _ & _ & Hq & Ho & _).
  intros (qname & ov & ? & ? & ?). exists qname, ov. rewrite <- Hq, <- Ho. done.
Qed.

Lemma populate_loop_spec tname tlen n k a w :
  match populate_loop tname tlen (seq k n) a w with
  | (Ok (ok, a'), w') =>
      frame_outside a a' k (k + n) /\
      if ok then
        w' = w /\ forall i : nat, (k <= i < k + n)%nat -> entry_populated tlen a a' i
      else
        exists i : nat, (k <= i < k + n)%nat /\
          (forall j : nat, (k <= j < i)%nat -> entry_populated tlen a a' j) /\
          entry_rejected tname tlen a i w w'
  | (Throw _, w') => w' = w
  | (Undefined, w') => w' = w
  end.
Proof.
  revert k a. induction n as [|n IH]; intros k a.
  { simpl. split; [apply frame_outside_refl|]. split; [done|]. intros i Hi. lia. }
  cbn [seq populate_loop].
  pose proof (populate_entry_spec tname tlen k a w) as He.
  destruct (populate_entry tname tlen k a w) as [[[ok a1]|e|] w1] eqn:Hentry.
  2:{ by erewrite bind_throw. }
  2:{ by erewrite bind_undefined. }
  erewrite bind_ok by exact Hentry. cbv beta iota.
  destruct He as [Hf1 He]. destruct ok.
  - destruct He as [-> Hpop].
    specialize (IH (S k) a1).
    destruct (populate_loop tname tlen (seq (S k) n) a1 w) as [[[ok a2]|e|] w2]; try done.
    destruct IH as [Hf2 IH].
    assert (frame_outside a a2 k (k + S n)) as Hf.
    { eapply (frame_outside_trans _ _ _ k (S k)); [lia|done|].
      by replace (k + S n)%nat with (S k + n)%nat by lia. }
    split; [done|].
    pose proof Hf1 as (_ & _ & _ & Hq1 & Ho1 & _).
    destruct ok.
    + destruct IH as [-> IH]. split; [done|]. intros i Hi.
      destruct (decide (i = k)) as [->|Hne].
      * eapply entry_populated_frame; [| | |exact Hf2|exact Hpop]; [lia|done|done].
      * eapply (entry_populated_base _ _ a1 _ _ k (S k)); [lia|done|].
        apply IH. lia.
    + destruct IH as (i & Hi & Hbefore & Hrej). exists i.
      split; [lia|]. split.
      * intros j Hj. destruct (decide (j = k)) as [->|Hne].
        -- eapply entry_populated_frame; [| | |exact Hf2|exact Hpop]; [lia|done|done].
        -- eapply (entry_populated_base _ _ a1 _ _ k (S k)); [lia|done|].
           apply Hbefore. lia.
      * eapply (entry_rejected_base _ _ _ a1 _ k (S k)); [lia|done|done].
  - simpl. split.
    + destruct Hf1 as (? & ? & ? & ? & ? & ? & ? & ? & ? & Hj).
      do 9 (split; [done|]). intros j Hj'. apply Hj. lia.
    + exists k. split; [lia|]. split; [intros j Hj; lia|done].
Qed.

Lemma parse_cigar_loop_outcome cigar idx ops0 :
  Forall (fun i : nat => (i < length cigar)%nat) idx ->
  match parse_cigar_loop cigar idx ops0 with
  | Ok _ => True
  | Throw e => exists op : nat, e = RuntimeError ("Unknown cigar op: " +:+ to_string op)
  | Undefined => False
  end.
Proof.
  intros Hidx. revert ops0. induction Hidx as [|i idx Hi _ IH]; intros ops0; simpl; [done|].
  destruct (cigar !! i) as [c|] eqn:Hc.
  2:{ apply lookup_ge_None in Hc. lia. }
  unfold parse_cigar_op at 1.
  repeat (destruct (decide _) as [?|?]; [apply IH|]).
  by eexists.
Qed.

Lemma parse_cigar_outcome (mm2 : list Z) :
  match parse_cigar mm2 (to_uint32 (Z.of_nat (length mm2))) with
  | Ok _ => True
  | Throw e => exists op : nat, e = RuntimeError ("Unknown cigar op: " +:+ to_string op)
  | Undefined => False
  end.
Proof.
  unfold parse_cigar. apply parse_cigar_loop_outcome.
  apply Forall_forall. intros i Hi. apply list_elem_of_lookup in Hi as [j Hj].
  apply lookup_seq in Hj as [-> Hj]. simpl.
  unfold to_uint32 in Hj.
  pose proof (Z.mod_le (Z.of_nat (length mm2)) (2 ^ 32) ltac:(lia) ltac:(lia)).
  pose proof (Z.mod_pos_bound (Z.of_nat (length mm2)) (2 ^ 32) ltac:(lia)).
  lia.
Qed.

Lemma populate_entry_outcome tname tlen i a w :
  (i < length (al_qnames a))%nat -> (i < length (al_seqs a))%nat ->
  (i < length (al_quals a))%nat -> (i < length (al_cigars a))%nat ->
  (i < length (al_overlaps a))%nat -> (i < length (al_mm2_cigars a))%nat ->
  match (populate_entry tname tlen i a w).1 with
  | Ok _ => True
  | Throw e => exists op : nat, e = RuntimeError ("Unknown cigar op: " +:+ to_string op)
  | Undefined => False
  end.
Proof.
  intros H1 H2 H3 H4 H5 H6.
  unfold populate_entry, assign, lift. munfold. simpl.
  destruct (lookup_lt_is_Some_2 _ _ H1) as [qname ->]. simpl.
  rewrite decide_True by done. simpl.
  rewrite list_lookup_insert_eq by done. simpl.
  destruct (lookup_lt_is_Some_2 _ _ H5) as [ov ->]. simpl.
  destruct (decide _); simpl; [done|].
  rewrite decide_True by done. simpl.
  destruct (decide _); simpl; [done|].
  destruct (lookup_lt_is_Some_2 _ _ H6) as [mm2 ->]. simpl.
  pose proof (parse_cigar_outcome mm2) as Hp.
  destruct (parse_cigar mm2 (to_uint32 (Z.of_nat (length mm2)))) as [ops|e|]; simpl;
    [|done|done].
  by rewrite decide_True by done.
Qed.

Lemma populate_loop_outcome tname tlen n k a w :
  (k + n <= length (al_qnames a))%nat -> (k + n <= length (al_seqs a))%nat ->
  (k + n <= length (al_quals a))%nat -> (k + n <= length (al_cigars a))%nat ->
  (k + n <= length (al_overlaps a))%nat -> (k + n <= length (al_mm2_cigars a))%nat ->
  match (populate_loop tname tlen (seq k n) a w).1 with
  | Ok _ => True
  | Throw e => exists op : nat, e = RuntimeError ("Unknown cigar op: " +:+ to_string op)
  | Undefined => False
  end.
Proof.
  revert k a w. induction n as [|n IH]; intros k a w H1 H2 H3 H4 H5 H6; [done|].
  cbn [seq populate_loop].
  pose proof (populate_entry_spec tname tlen k a w) as He.
  pose proof (populate_entry_outcome tname tlen k a w
                ltac:(lia) ltac:(lia) ltac:(lia) ltac:(lia) ltac:(lia) ltac:(lia)) as Ho.
  destruct (populate_entry tname tlen k a w) as [[[ok a1]|e|] w1] eqn:Hentry.
  2:{ by erewrite bind_throw. }
  2:{ by erewrite bind_undefined. }
  erewrite bind_ok by exact Hentry. cbv beta iota.
  destruct ok; [|done].
  destruct He as [(_ & _ & _ & Hq & Hov & Hs & Hqu & Hc & Hm & _) _].
  apply IH; rewrite ?Hq, ?Hov, ?Hs, ?Hqu, ?Hc, ?Hm; lia.
Qed.

Lemma populate_alignments_unfold a w :
  let tname := al_read_name a in
  let tlen := to_int (Z.of_nat (String.length (fetch_seq tname))) in
  let num_qnames := length (al_qnames a) in
  let a0 := set_cigars (resize num_qnames [] (al_cigars a)) (al_mm2_cigars a)
              (set_quals (resize num_qnames EmptyString (al_quals a))
                 (set_seqs (resize num_qnames EmptyString (al_seqs a))
                    (set_target (fetch_seq tname) (fetch_qual tname) a))) in
  populate_alignments a w
  = (populate_loop tname tlen (seq 0 num_qnames) a0 ≫= fun '(ok, a') =>
       if (ok : bool) then mret (check_consistent_overlaps a', a') else mret (false, a')) w.
Proof. reflexivity. Qed.

(** X7.  When [populate_alignments] returns [true], the caller holds a
    consistent set of alignments: the target sequence and qualities are
    loaded; the three vectors have one entry per query name; every entry
    holds the sequence and qualities of its query, of the length the
    overlap gives as [qlen], against a target of the length it gives as
    [tlen]; its CIGAR is parsed and the packed CIGAR is dropped; the
    overlaps have passed [check_consistent_overlaps].  Nothing is logged
    and nothing else in the node changes. *)
Theorem populate_alignments_postcondition a w a' w'
    (Hok : populate_alignments a w = (Ok (true, a'), w')) :
  let tname := al_read_name a in
  let tlen := to_int (Z.of_nat (String.length (fetch_seq tname))) in
  w' = w /\
  al_read_name a' = tname /\
  al_qnames a' = al_qnames a /\
  al_overlaps a' = al_overlaps a /\
  al_read_seq a' = fetch_seq tname /\
  al_read_qual a' = fetch_qual tname /\
  length (al_seqs a') = length (al_qnames a) /\
  length (al_quals a') = length (al_qnames a) /\
  length (al_cigars a') = length (al_qnames a) /\
  check_consistent_overlaps a' = true /\
  forall i : nat, (i < length (al_qnames a))%nat -> entry_populated tlen a a' i.
Proof.
  intros tname tlen. rewrite populate_alignments_unfold in Hok. cbv zeta in Hok.
  fold tname tlen in Hok.
  match type of Hok with context [populate_loop ?t ?l ?idx ?a0] =>
    pose proof (populate_loop_spec t l (length (al_qnames a)) 0 a0 w) as Hspec;
    destruct (populate_loop t l idx a0 w) as [[[ok a1]|e|] w1] eqn:Hloop
  end.
  2:{ erewrite bind_throw in Hok by exact Hloop. congruence. }
  2:{ erewrite bind_undefined in Hok by exact Hloop. congruence. }
  erewrite bind_ok in Hok by exact Hloop. cbv beta iota in Hok.
  destruct ok; [|by inversion Hok].
  injection Hok as Hcheck <- <-.
  destruct Hspec as [(H1 & H2 & H3 & H4 & H5 & H6 & H7 & H8 & H9 & _) [-> Hpop]].
  simpl in H1, H2, H3, H4, H5, H6, H7, H8, H9.
  rewrite length_resize in H6. rewrite length_resize in H7. rewrite length_resize in H8.
  do 10 (split; [done|]).
  intros i Hi. destruct (Hpop i ltac:(lia)) as
    (qname & ov & mm2 & ops & ? & ? & ? & ? & ? & ? & ? & ? & ? & ?).
  by exists qname, ov, mm2, ops.
Qed.

(** X8.  When [populate_alignments] returns [false], the node is as
    before but for its log.  Either the loop stopped at the first entry
    whose query length differs from [qlen] or whose [tlen] differs from the
    target length, and the function has written exactly one error line,
    the one of that check; or every entry was filled in and it is
    [check_consistent_overlaps] that said no.  (What
    [check_consistent_overlaps] itself logs lies outside this file; the
    statement says nothing about the log in that case.) *)
Theorem populate_alignments_rejection a w a' w'
    (Hrej : populate_alignments a w = (Ok (false, a'), w')) :
  let tname := al_read_name a in
  let tlen := to_int (Z.of_nat (String.length (fetch_seq tname))) in
  same_but_events w w' /\
  ((check_consistent_overlaps a' = false /\
    forall i : nat, (i < length (al_qnames a))%nat -> entry_populated tlen a a' i) \/
   (exists i : nat, (i < length (al_qnames a))%nat /\
      (forall j : nat, (j < i)%nat -> entry_populated tlen a a' j) /\
      entry_rejected tname tlen a i w w')).
Proof.
  intros tname tlen. rewrite populate_alignments_unfold in Hrej. cbv zeta in Hrej.
  fold tname tlen in Hrej.
  match type of Hrej with context [populate_loop ?t ?l ?idx ?a0] =>
    pose proof (populate_loop_spec t l (length (al_qnames a)) 0 a0 w) as Hspec;
    destruct (populate_loop t l idx a0 w) as [[[ok a1]|e|] w1] eqn:Hloop
  end.
  2:{ erewrite bind_throw in Hrej by exact Hloop. congruence. }
  2:{ erewrite bind_undefined in Hrej by exact Hloop. congruence. }
  erewrite bind_ok in Hrej by exact Hloop. cbv beta iota in Hrej.
  destruct Hspec as [_ Hspec]. destruct ok.
  - injection Hrej as Hcheck <- <-. destruct Hspec as [-> Hpop].
    split; [done|]. left. split; [done|].
    intros i Hi. destruct (Hpop i ltac:(lia)) as
      (qname & ov & mm2 & ops & ? & ? & ? & ? & ? & ? & ? & ? & ? & ?).
    by exists qname, ov, mm2, ops.
  - injection Hrej as <- <-.
    destruct Hspec as (i & Hi & Hbefore & Hrej).
    assert (entry_rejected tname tlen a i w w1) as Hrej'.
    { destruct Hrej as (qname & ov & ? & ? & ?). by exists qname, ov. }
    split.
    + destruct Hrej' as (qname & ov & _ & _ & [[_ ->]|(_ & _ & ->)]); by destruct w.
    + right. exists i. split; [lia|]. split; [|done].
      intros j Hj. destruct (Hbefore j ltac:(lia)) as
        (qname & ov & mm2 & ops & ? & ? & ? & ? & ? & ? & ? & ? & ? & ?).
      by exists qname, ov, mm2, ops.
Qed.

Lemma populate_alignments_outcome a w :
  (length (al_qnames a) <= length (al_overlaps a))%nat ->
  (length (al_qnames a) <= length (al_mm2_cigars a))%nat ->
  match populate_alignments a w with
  | (Ok _, _) => True
  | (Throw e, w') =>
      w' = w /\ exists op : nat, e = RuntimeError ("Unknown cigar op: " +:+ to_string op)
  | (Undefined, _) => False
  end.
Proof.
  intros Hov Hmm. rewrite populate_alignments_unfold. cbv zeta.
  match goal with |- context [populate_loop ?t ?l ?idx ?a0] =>
    pose proof (populate_loop_spec t l (length (al_qnames a)) 0 a0 w) as Hspec;
    pose proof (populate_loop_outcome t l (length (al_qnames a)) 0 a0 w) as Hout;
    destruct (populate_loop t l idx a0 w) as [[[ok a1]|e|] w1] eqn:Hloop
  end.
  - erewrite bind_ok by exact Hloop. cbv beta iota. by destruct ok.
  - erewrite bind_throw by exact Hloop. split; [done|].
    apply Hout; simpl; rewrite ?length_resize; lia.
  - exfalso. apply Hout; simpl; rewrite ?length_resize; lia.
Qed.

(** X9.  With an overlap and a packed CIGAR for every query name,
    [populate_alignments] stays within its vectors: it has a defined
    result.  The only exception that its own code lets through is the
    [std::runtime_error] of [parse_cigar] for an unknown code, and then
    the node is untouched.  (The reader and [check_consistent_overlaps]
    are taken as functions that return; what they may throw is not
    covered.) *)
Theorem populate_alignments_stays_in_bounds a w
    (Hov : (length (al_qnames a) <= length (al_overlaps a))%nat)
    (Hmm : (length (al_qnames a) <= length (al_mm2_cigars a))%nat) :
  match populate_alignments a w with
  | (Ok _, _) => True
  | (Throw e, w') =>
      w' = w /\ exists op : nat, e = RuntimeError ("Unknown cigar op: " +:+ to_string op)
  | (Undefined, _) => False
  end.
Proof. by apply populate_alignments_outcome. Qed.

(** ** The input worker, from the message on *)

(** X10.  For a positive window size, [n_windows] is the least number of
    windows that cover the read: [(n - 1) * window_size < length <=
    n * window_size]; an empty read has no window.  With a window size of
    zero the division has no defined result. *)
Theorem n_windows_covers_the_read (len : nat) (window_size : Z)
    (Hws : 0 < window_size < 2 ^ 31)
    (Hlen : Z.of_nat len < 2 ^ 63) :
  (exists n, n_windows len window_size = Some n /\
             (n - 1) * window_size < Z.of_nat len <= n * window_size /\
             (len = 0%nat -> n = 0)) /\
  n_windows len 0 = None.
Proof.
  split; [|done].
  unfold n_windows, to_size_t.
  rewrite (Z.mod_small window_size) by lia.
  rewrite decide_False by lia.
  rewrite (Z.mod_small (Z.of_nat len + window_size)) by lia.
  rewrite (Z.mod_small (Z.of_nat len + window_size - 1)) by lia.
  eexists. split; [done|].
  pose proof (Z.div_mod (Z.of_nat len + window_size - 1) window_size ltac:(lia)) as Hdm.
  pose proof (Z.mod_pos_bound (Z.of_nat len + window_size - 1) window_size ltac:(lia)) as Hm.
  set (n := (Z.of_nat len + window_size - 1) / window_size) in *.
  split; [nia|].
  intros ->. subst n. apply Z.div_small. lia.
Qed.

Lemma same_but_events_fields w1 w2 :
  same_but_events w1 w2 <->
  m_features_by_id w1 = m_features_by_id w2 /\
  m_pending_features_by_id w1 = m_pending_features_by_id w2 /\
  m_features_queue w1 = m_features_queue w2 /\
  m_inferred_features_queue w1 = m_inferred_features_queue w2 /\
  sink w1 = sink w2 /\
  forward_calls w1 = forward_calls w2 /\
  num_reads w1 = num_reads w2 /\
  num_early_reads w1 = num_early_reads w2.
Proof.
  unfold same_but_events, set_events. split.
  - intros [= ? ? ? ? ? ? ? ?]. done.
  - intros (? & ? & ? & ? & ? & ? & ? & ?). by f_equal.
Qed.

(** X11.  A read that [populate_alignments] or [extract_windows] turns
    down is dropped on the spot: the loop goes on to the next message, the
    read is not counted in [num_reads], no record of it reaches the sink,
    and neither the maps nor the queues change.  All that can remain is the
    error line of [populate_alignments]. *)
Theorem rejected_read_is_dropped (window_size : Z) a w :
  (forall a' w1, populate_alignments a w = (Ok (false, a'), w1) ->
     input_iteration window_size (AlignmentsMessage a) w = (Ok tt, w1) /\
     same_but_events w w1 /\
     sink w1 = sink w /\ num_reads w1 = num_reads w /\
     m_features_by_id w1 = m_features_by_id w /\
     m_features_queue w1 = m_features_queue w) /\
  (forall a' w1 n, populate_alignments a w = (Ok (true, a'), w1) ->
     n_windows (String.length (al_read_seq a')) window_size = Some n ->
     extract_windows n a' window_size = None ->
     input_iteration window_size (AlignmentsMessage a) w = (Ok tt, w)).
Proof.
  split.
  - intros a' w1 Hpop.
    assert (same_but_events w w1) as Hsame.
    { pose proof (populate_alignments_unfold a w) as Hu. cbv zeta in Hu.
      rewrite Hu in Hpop.
      match type of Hpop with context [populate_loop ?t ?l ?idx ?a0] =>
        pose proof (populate_loop_spec t l (length (al_qnames a)) 0 a0 w) as Hspec;
        destruct (populate_loop t l idx a0 w) as [[[ok a1]|e|] w2] eqn:Hloop
      end.
      2:{ erewrite bind_throw in Hpop by exact Hloop. congruence. }
      2:{ erewrite bind_undefined in Hpop by exact Hloop. congruence. }
      erewrite bind_ok in Hpop by exact Hloop. cbv beta iota in Hpop.
      destruct Hspec as [_ Hspec]. destruct ok.
      - injection Hpop as _ _ <-. by destruct Hspec as [-> _].
      - injection Hpop as _ <-.
        destruct Hspec as (i & _ & _ & qname & ov & _ & _ & [[_ ->]|(_ & _ & ->)]);
          by destruct w. }
    split.
    + unfold input_iteration. erewrite bind_ok by exact Hpop. done.
    + split; [done|]. apply same_but_events_fields in Hsame.
      destruct Hsame as (? & ? & ? & ? & ? & ? & ? & ?). done.
  - intros a' w1 n Hpop Hn Hwin.
    assert (w1 = w) as ->.
    { pose proof (populate_alignments_unfold a w) as Hu. cbv zeta in Hu.
      rewrite Hu in Hpop.
      match type of Hpop with context [populate_loop ?t ?l ?idx ?a0] =>
        pose proof (populate_loop_spec t l (length (al_qnames a)) 0 a0 w) as Hspec;
        destruct (populate_loop t l idx a0 w) as [[[ok a1]|e|] w2] eqn:Hloop
      end.
      2:{ erewrite bind_throw in Hpop by exact Hloop. congruence. }
      2:{ erewrite bind_undefined in Hpop by exact Hloop. congruence. }
      erewrite bind_ok in Hpop by exact Hloop. cbv beta iota in Hpop.
      destruct Hspec as [_ Hspec]. destruct ok; [|by inversion Hpop].
      injection Hpop as _ _ <-. by destruct Hspec as [-> _]. }
    unfold input_iteration. erewrite bind_ok by exact Hpop. cbv beta iota. cbv [negb].
    rewrite Hn. erewrite bind_ok by reflexivity. by rewrite Hwin.
Qed.

(** X12.  One turn of the loop of [input_thread_fn] can fail in one way
    only.  With a window size that is not zero, and an overlap and a packed
    CIGAR for every query name, it has a defined result, and the only
    exception that escapes it is the one of [parse_cigar] for an unknown
    code, thrown before the node has changed.  (The reader,
    [extract_windows], [extract_features] and [decode_window] are taken as
    functions that return.) *)
Theorem input_iteration_fails_only_on_cigar (window_size : Z) a w
    (Hws : to_size_t window_size <> 0)
    (Hov : (length (al_qnames a) <= length (al_overlaps a))%nat)
    (Hmm : (length (al_qnames a) <= length (al_mm2_cigars a))%nat) :
  match input_iteration window_size (AlignmentsMessage a) w with
  | (Ok _, _) => True
  | (Throw e, w') =>
      w' = w /\ exists op : nat, e = RuntimeError ("Unknown cigar op: " +:+ to_string op)
  | (Undefined, _) => False
  end.
Proof.
  unfold input_iteration.
  pose proof (populate_alignments_outcome a w Hov Hmm) as Hpop.
  destruct (populate_alignments a w) as [[[ok a']|e|] w1] eqn:Heq.
  - erewrite bind_ok by exact Heq. cbv beta iota.
    destruct ok; cbv [negb]; [|done].
    unfold n_windows. rewrite decide_False by done.
    erewrite bind_ok by reflexivity.
    destruct (extract_windows _ a' window_size) as [windows|]; [|done].
    destruct (input_message_effect
                (CorrectionAlignments (al_read_name a)
                   (Some (extract_features windows a' window_size))) w1) as (w2 & -> & _).
    done.
  - by erewrite bind_throw by exact Heq.
  - done.
Qed.

(** ** The constructor *)

Lemma spawn_on_device_fixed dev d batch_size n made calls :
  batch_size <> 0 ->
  spawn_on_device dev d batch_size n made calls
  = (made ++ replicate n {| it_device := dev; it_mtx_idx := to_int (Z.of_nat d);
                            it_batch_size := batch_size |},
     calls, None).
Proof.
  intros Hbs. revert made. induction n as [|n IH]; intros made; simpl.
  - by rewrite app_nil_r.
  - rewrite decide_False by done. rewrite IH. by rewrite <- app_assoc.
Qed.

Lemma spawn_infer_threads_fixed devices d infer_threads batch_size made calls :
  batch_size <> 0 ->
  spawn_infer_threads devices d infer_threads batch_size made calls
  = (made ++ concat (imap (fun i dev =>
                             replicate (Z.to_nat infer_threads)
                               {| it_device := dev; it_mtx_idx := to_int (Z.of_nat (d + i));
                                  it_batch_size := batch_size |})
                          devices),
     calls, None).
Proof.
  intros Hbs. revert d made. induction devices as [|dev devices IH]; intros d made.
  - simpl. by rewrite app_nil_r.
  - cbn [spawn_infer_threads]. rewrite spawn_on_device_fixed by done.
    rewrite IH. rewrite imap_cons. cbn [concat]. rewrite Nat.add_0_r, <- app_assoc.
    erewrite (imap_ext _ _ devices); [reflexivity|].
    intros i dev' _. simpl.
    by replace (S (d + i))%nat with (d + S i)%nat by lia.
Qed.

Lemma length_concat_imap {T U} (g : nat -> U -> list T) (l : list U) n :
  (forall i x, length (g i x) = n) ->
  length (concat (imap g l)) = (length l * n)%nat.
Proof.
  revert g. induction l as [|x l IH]; intros g Hg; [done|].
  rewrite imap_cons. cbn [concat length]. rewrite length_app, Hg.
  rewrite (IH (g ∘ S)); [done|]. intros i y. apply Hg.
Qed.

(** X13.  With a batch size that is not zero, the constructor starts
    [infer_threads] inference threads for every device, device after
    device, each with the index of its device as mutex index and the given
    batch size; [calculate_batch_size] is never called; four decode threads
    follow.  A number of threads that is zero or negative starts none. *)
Theorem inference_threads_per_device fastq device infer_threads batch_size
    index_exists fai_build devices n
    (Hdev : select_devices device infer_threads = inr (devices, n))
    (Hbs : batch_size <> 0) :
  let c := construct fastq device infer_threads batch_size index_exists fai_build in
  c_infer_threads c
  = concat (imap (fun d dev =>
                    replicate (Z.to_nat n)
                      {| it_device := dev; it_mtx_idx := to_int (Z.of_nat d);
                         it_batch_size := batch_size |})
                 devices) /\
  length (c_infer_threads c) = (length devices * Z.to_nat n)%nat /\
  (n <= 0 -> c_infer_threads c = []) /\
  c_batch_size_calls c = 0%nat /\
  c_decode_threads c = 4%nat.
Proof.
  intros c.
  assert (c_infer_threads c
          = concat (imap (fun d dev =>
                            replicate (Z.to_nat n)
                              {| it_device := dev; it_mtx_idx := to_int (Z.of_nat d);
                                 it_batch_size := batch_size |})
                         devices) /\
          c_batch_size_calls c = 0%nat /\ c_decode_threads c = 4%nat) as (Hthreads & ? & ?).
  { subst c. unfold construct. rewrite Hdev.
    rewrite spawn_infer_threads_fixed by done. simpl app.
    by destruct (negb index_exists && negb (bool_decide (fai_build = 0))). }
  split; [done|]. split; [|split; [|done]].
  - rewrite Hthreads. apply length_concat_imap. intros i x. apply length_replicate.
  - intros Hn. apply length_zero_iff_nil.
    rewrite Hthreads.
    rewrite (length_concat_imap _ _ (Z.to_nat n)) by (intros i x; apply length_replicate).
    replace (Z.to_nat n) with 0%nat by lia. lia.
Qed.

Lemma spawn_on_device_auto dev d n made calls :
  length made = calls ->
  (forall (k : nat) t, made !! k = Some t ->
     it_batch_size t = calculate_batch_size k (it_device t) /\ it_batch_size t <> 0) ->
  match spawn_on_device dev d 0 n made calls with
  | (made', calls', err) =>
      (forall (k : nat) t, made' !! k = Some t ->
         it_batch_size t = calculate_batch_size k (it_device t) /\ it_batch_size t <> 0) /\
      match err with
      | None => length made' = calls'
      | Some e =>
          calls' = S (length made') /\
          calculate_batch_size (length made') dev = 0 /\
          e = RuntimeError ("Insufficient memory to run inference on " +:+ dev)
      end
  end.
Proof.
  revert made calls. induction n as [|n IH]; intros made calls Hlen Hmade; simpl.
  - done.
  - destruct (decide (calculate_batch_size calls dev = 0)) as [Hz|Hnz].
    + split; [done|]. by rewrite Hlen.
    + apply IH.
      * rewrite length_app. simpl. lia.
      * intros k t Hk. apply lookup_app_Some in Hk as [Hk|[Hge Hk]]; [by apply Hmade|].
        apply list_lookup_singleton_Some in Hk as [Hk <-]. simpl.
        replace k with calls by lia. done.
Qed.

Lemma spawn_infer_threads_auto devices d infer_threads made calls :
  length made = calls ->
  (forall (k : nat) t, made !! k = Some t ->
     it_batch_size t = calculate_batch_size k (it_device t) /\ it_batch_size t <> 0) ->
  match spawn_infer_threads devices d infer_threads 0 made calls with
  | (made', calls', err) =>
      (forall (k : nat) t, made' !! k = Some t ->
         it_batch_size t = calculate_batch_size k (it_device t) /\ it_batch_size t <> 0) /\
      match err with
      | None => length made' = calls'
      | Some e =>
          calls' = S (length made') /\
          exists dev, dev ∈ devices /\
            calculate_batch_size (length made') dev = 0 /\
            e = RuntimeError ("Insufficient memory to run inference on " +:+ dev)
      end
  end.
Proof.
  revert d made calls. induction devices as [|dev devices IH]; intros d made calls Hlen Hmade.
  - done.
  - cbn [spawn_infer_threads].
    pose proof (spawn_on_device_auto dev d (Z.to_nat infer_threads) made calls Hlen Hmade)
      as Hdev.
    destruct (spawn_on_device dev d 0 (Z.to_nat infer_threads) made calls)
      as [[made1 calls1] [e|]].
    + destruct Hdev as (Hm & ? & ? & ?). split; [done|]. split; [done|].
      exists dev. split; [apply list_elem_of_here|done].
    + destruct Hdev as [Hm Hl]. specialize (IH (S d) made1 calls1 Hl Hm).
      destruct (spawn_infer_threads devices (S d) infer_threads 0 made1 calls1)
        as [[made2 calls2] [e|]]; [|done].
      destruct IH as (? & ? & dev' & ? & ? & ?). split; [done|]. split; [done|].
      exists dev'. split; [by apply list_elem_of_further|done].
Qed.

(** X14.  With a batch size of zero every inference thread gets the batch
    size that its own call of [calculate_batch_size] returns, thread [k]
    the result of call [k], and never zero.  The first call that returns
    zero throws a [std::runtime_error] that names the device, before any
    decode or input thread is started.  When it is the very first call, no
    thread exists and the exception reaches the caller; after that, the
    inference threads started so far are destroyed while joinable and the
    process is terminated instead. *)
Theorem automatic_batch_size fastq device infer_threads index_exists fai_build :
  let c := construct fastq device infer_threads 0 index_exists fai_build in
  (forall (k : nat) t, c_infer_threads c !! k = Some t ->
     it_batch_size t = calculate_batch_size k (it_device t) /\ it_batch_size t <> 0) /\
  (c_batch_size_calls c = length (c_infer_threads c) \/
   exists dev,
     c_batch_size_calls c = S (length (c_infer_threads c)) /\
     calculate_batch_size (length (c_infer_threads c)) dev = 0 /\
     c_thrown c = Some (RuntimeError ("Insufficient memory to run inference on " +:+ dev)) /\
     c_decode_threads c = 0%nat /\
     c_input_started c = false /\
     (c_infer_threads c = [] ->
        ending c
        = Propagated (RuntimeError ("Insufficient memory to run inference on " +:+ dev))) /\
     (c_infer_threads c <> [] -> ending c = ProcessTerminated)).
Proof.
  intros c. subst c. unfold construct.
  destruct (select_devices device infer_threads) as [e|[devices n]].
  { simpl. split; [done|]. by left. }
  pose proof (spawn_infer_threads_auto devices 0 n [] 0 eq_refl) as Hspawn.
  destruct (spawn_infer_threads devices 0 n 0 [] 0) as [[made calls] [e|]].
  - destruct Hspawn as (Hm & -> & dev & _ & Hz & ->); [done|].
    simpl. split; [done|]. right. exists dev. do 5 (split; [done|]).
    unfold ending. simpl. split; [by intros ->|]. by destruct made.
  - destruct Hspawn as [Hm <-]; [done|].
    destruct (negb index_exists && negb (bool_decide (fai_build = 0)));
      simpl; (split; [done|]); by left.
Qed.

(** X15.  The device string decides the inference threads before any
    is started.  ["cpu"] gives one inference thread, whatever
    [infer_threads] says (shown for a batch size that is not zero; with
    zero, [calculate_batch_size] has its say, see X14).  A name that is neither ["cpu"] nor, in a CUDA
    build, starts with ["cuda"] makes a build without CUDA throw
    ["Unsupported device: ..."] with no thread started; a CUDA build goes
    on without error and without any inference thread, and starts its
    decode threads.  A CUDA name for which no device is found throws. *)
Theorem device_string_decides_the_threads fastq device infer_threads batch_size
    index_exists fai_build :
  let c := construct fastq device infer_threads batch_size index_exists fai_build in
  (device = "cpu"%string -> batch_size <> 0 ->
     c_infer_threads c
     = [{| it_device := "cpu"; it_mtx_idx := 0; it_batch_size := batch_size |}]) /\
  (device <> "cpu"%string -> DORADO_CUDA_BUILD = false ->
     c = {| c_infer_threads := []; c_batch_size_calls := 0; c_decode_threads := 0;
            c_log := []; c_input_started := false;
            c_thrown := Some (RuntimeError ("Unsupported device: " +:+ device)) |}) /\
  (device <> "cpu"%string -> DORADO_CUDA_BUILD = true -> starts_with device "cuda" = false ->
     c_infer_threads c = [] /\ c_decode_threads c = 4%nat /\
     (c_thrown c = None <-> index_exists = true \/ fai_build = 0)) /\
  (device <> "cpu"%string -> DORADO_CUDA_BUILD = true -> starts_with device "cuda" = true ->
     parse_cuda_device_string device = [] ->
     c = {| c_infer_threads := []; c_batch_size_calls := 0; c_decode_threads := 0;
            c_log := []; c_input_started := false;
            c_thrown := Some (RuntimeError "CUDA device requested but no devices found.") |}).
Proof.
  intros c. subst c. unfold construct, select_devices.
  split; [|split; [|split]].
  - intros -> Hbs. rewrite decide_True by done.
    rewrite spawn_infer_threads_fixed by done. simpl.
    by destruct (negb index_exists && negb (bool_decide (fai_build = 0))).
  - intros Hne ->. by rewrite decide_False by done.
  - intros Hne -> ->. rewrite decide_False by done. simpl.
    destruct index_exists; simpl.
    + split; [done|]. split; [done|]. split; [by left|done].
    + destruct (bool_decide_reflect (fai_build = 0)) as [Hz|Hnz]; simpl.
      * split; [done|]. split; [done|]. split; [by right|done].
      * split; [done|]. split; [done|]. split; [done|]. by intros [?|?].
  - intros Hne -> -> ->. by rewrite decide_False by done.
Qed.

(** ** What holds in every reachable state *)

Lemma run_inv ls s0 g0 s :
  Forall wf_label ls -> run ls s0 = Some s -> sys_inv s0 g0 -> exists g, sys_inv s g.
Proof.
  intros Hwf. revert s0 g0. induction Hwf as [|l ls Hl _ IH]; intros s0 g0; simpl.
  - intros [= ->] Hinv. by exists g0.
  - destruct (sys_step l s0) as [s1|] eqn:Hstep; [|done]. simpl.
    intros Hrun Hinv. eapply IH; [done|]. by apply sys_step_inv.
Qed.

Lemma reachable_inv cfgs ls s :
  Forall wf_label ls -> run ls (init_sys cfgs) = Some s -> exists g, sys_inv s g.
Proof. intros Hwf Hrun. eapply run_inv; [done|done|apply init_sys_inv]. Qed.

Lemma in_flight_record s g wf :
  sys_inv s g -> wf ∈ in_flight s ->
  exists slots pending (pos : nat),
    m_features_by_id (world s) !! read_name wf = Some slots /\
    m_pending_features_by_id (world s) !! read_name wf = Some pending /\
    window_idx wf = Z.of_nat pos /\ (pos < length slots)%nat /\
    0 < pending < 2 ^ 31.
Proof.
  intros Hinv Hin.
  assert (key wf ∈ flight_keys s) as Hk by (by apply list_elem_of_fmap_2).
  apply elem_of_Permutation in Hk as [ks Hks].
  unfold sys_inv in Hinv. apply (tracker_inv_perm _ _ _ _ _ Hks) in Hinv.
  destruct (tracker_inv_decode _ _ _ _ _ _ Hinv)
    as (slots & pending & wr & pos & Hf & Hp & _ & Hpos & _ & Hlt & Hr & _).
  by exists slots, pending, pos.
Qed.

(** X16.  On well-formed input, every window between the input worker and
    the decode worker (queued for inference, held by an inference worker,
    or queued for decoding) belongs to a read that has a pending record,
    and its index lies within the slots of that record.  So the decode
    worker can take any queued window: it finds the record, never logs
    ["Decoded feature list not found"], and never writes outside the
    slots. *)
Theorem window_in_flight_has_its_record cfgs ls s
    (Hwf : Forall wf_label ls)
    (Hrun : run ls (init_sys cfgs) = Some s) :
  (forall wf, wf ∈ in_flight s ->
     exists slots pending,
       m_features_by_id (world s) !! read_name wf = Some slots /\
       m_pending_features_by_id (world s) !! read_name wf = Some pending /\
       0 <= window_idx wf < Z.of_nat (length slots) /\
       0 < pending) /\
  (forall (k : nat) item, m_inferred_features_queue (world s) !! k = Some item ->
     exists s', sys_step (DecodeStep k) s = Some s' /\
       (events (world s') = events (world s) \/
        exists slots', events (world s')
                       = events (world s) ++ [CallConcat (read_name item) slots'])).
Proof.
  destruct (reachable_inv cfgs ls s Hwf Hrun) as [g Hinv]. split.
  - intros wf0 Hin.
    destruct (in_flight_record s g wf0 Hinv Hin) as (slots & pending & pos & ? & ? & ? & ? & ?).
    exists slots, pending. repeat split; try done; lia.
  - intros k item Hitem.
    assert (item ∈ in_flight s) as Hin.
    { unfold in_flight. rewrite !elem_of_app. right. right.
      by eapply list_elem_of_lookup_2. }
    destruct (in_flight_record s g item Hinv Hin)
      as (slots & pending & pos & Hf & Hp & Hpos & Hlt & Hr).
    set (w0 := set_inferred_features_queue
                 (delete k (m_inferred_features_queue (world s))) (world s)).
    assert (pending <> INT_MIN) as Hmin by (unfold INT_MIN; lia).
    pose proof (decode_iteration_run item w0 slots pending pos Hf Hp Hpos Hlt Hmin) as Hdec.
    simpl in Hdec. eexists. split.
    { simpl. rewrite Hitem. simpl. unfold exec. fold w0. rewrite Hdec. simpl. reflexivity. }
    simpl. destruct (decide (pending - 1 = 0)); simpl; [right; by eexists|by left].
Qed.

(** ** What a flush does to the node *)

Lemma concat_calls_app evs1 evs2 :
  concat_calls (evs1 ++ evs2) = (concat_calls evs1 + concat_calls evs2)%nat.
Proof. unfold concat_calls. by rewrite filter_app, length_app. Qed.

Lemma batches_app evs1 evs2 : batches (evs1 ++ evs2) = batches evs1 ++ batches evs2.
Proof. unfold batches. apply omap_app. Qed.

Lemma backend_events_silent extra :
  Forall (fun e => backend_event e = true) extra ->
  concat_calls extra = 0%nat /\ batches extra = [] /\ batched extra = [].
Proof.
  induction 1 as [|e extra He _ (IH1 & IH2 & IH3)]; [done|].
  split; [|split].
  - unfold concat_calls in *. rewrite filter_cons.
    rewrite decide_False by (by destruct e). done.
  - unfold batches in *. destruct e; try discriminate; simpl; done.
  - unfold batched in *. rewrite fmap_cons. destruct e; try discriminate; simpl; done.
Qed.

Lemma forward_with_retry_world inputs w :
  let w' := (forward_with_retry inputs w).2 in
  num_reads w' = num_reads w /\
  num_early_reads w' = num_early_reads w /\
  exists extra, events w' = events w ++ extra /\
                Forall (fun e => backend_event e = true) extra.
Proof.
  unfold forward_with_retry, call_forward. munfold. simpl.
  destruct (module_forward (forward_calls w) inputs); simpl.
  - do 2 (split; [done|]). eexists. split; [reflexivity|]. by repeat constructor.
  - destruct DORADO_CUDA_BUILD; simpl.
    + destruct (module_forward (S _) _); simpl; do 2 (split; [done|]);
        rewrite <- !app_assoc; (eexists; split; [reflexivity|]); by repeat constructor.
    + do 2 (split; [done|]). eexists. split; [reflexivity|]. by repeat constructor.
  - do 2 (split; [done|]). eexists. split; [reflexivity|]. by repeat constructor.
Qed.

Lemma inferred_from_refl wf : inferred_from wf wf.
Proof. exists (inferred_bases wf). by destruct wf. Qed.

Lemma assign_inferred_rel split_preds pre rest l' :
  assign_inferred (length pre) split_preds (pre ++ rest) = Some l' ->
  exists rest', l' = pre ++ rest' /\ Forall2 inferred_from rest rest'.
Proof.
  revert pre rest. induction split_preds as [|p ps IH]; intros pre rest; simpl.
  - intros [= <-]. exists rest. split; [done|].
    apply Forall_Forall2_diag, Forall_forall. intros wf0 _. apply inferred_from_refl.
  - destruct (decode_preds p) as [d|]; [|done].
    destruct rest as [|wf0 rest].
    { rewrite app_nil_r, lookup_ge_None_2 by done. done. }
    rewrite lookup_app_r, Nat.sub_diag by done. simpl.
    rewrite insert_app_r_alt, Nat.sub_diag by done. simpl.
    replace (S (length pre)) with (length (pre ++ [set_inferred_bases wf0 d]))
      by (rewrite length_app; simpl; lia).
    rewrite (cons_middle (set_inferred_bases wf0 d) pre rest), app_assoc.
    intros H. apply IH in H as (rest' & -> & Hrel).
    exists (set_inferred_bases wf0 d :: rest'). split; [by rewrite <- app_assoc|].
    constructor; [by exists d|done].
Qed.

Lemma batch_infer_ok device batch_size b w b' w' :
  batch_infer device batch_size b w = (Ok b', w') ->
  b' = new_batcher batch_size /\
  m_features_by_id w' = m_features_by_id w /\
  m_pending_features_by_id w' = m_pending_features_by_id w /\
  m_features_queue w' = m_features_queue w /\
  sink w' = sink w /\
  num_reads w' = num_reads w /\
  num_early_reads w' = num_early_reads w /\
  (exists extra, events w' = events w ++ CallBatchInfer (wfs b) :: extra /\
                 Forall (fun e => backend_event e = true) extra) /\
  exists moved,
    m_inferred_features_queue w' = m_inferred_features_queue w ++ moved /\
    Forall2 inferred_from (wfs b) moved.
Proof.
  intros Hbi. split; [by eapply batch_infer_resets|].
  rewrite batch_infer_unfold in Hbi. set (w0 := set_events _ w) in Hbi.
  pose proof (forward_with_retry_frame (batch_inputs device b) w0) as Hf.
  pose proof (forward_with_retry_world (batch_inputs device b) w0) as Hw.
  destruct (forward_with_retry (batch_inputs device b) w0) as [[output| |] w1] eqn:Hfw.
  - rewrite (bind_ok _ _ _ _ _ Hfw) in Hbi. simpl in Hf, Hw.
    destruct Hf as (Hf1 & Hf2 & Hf3 & Hf4 & Hf5).
    destruct Hw as (Hr & He & extra & Hev & Hextra).
    destruct output as [elements|]; [|done]. revert Hbi. munfold.
    destruct (elements !! 1%nat); simpl; [|done].
    destruct (split_with_sizes _ _); simpl; [|done].
    destruct (assign_inferred _ _ _) as [wfs'|] eqn:Has; simpl; [|done].
    rewrite for_each_push_inferred. intros [= _ <-]. simpl.
    rewrite Hf1, Hf2, Hf3, Hf4, Hf5, Hr, He, Hev.
    do 6 (split; [done|]). split.
    + exists extra. split; [|done]. by rewrite <- app_assoc.
    + exists wfs'. split; [done|].
      destruct (assign_inferred_rel _ [] (wfs b) wfs' Has) as (rest' & -> & Hrel). done.
  - by rewrite (bind_throw _ _ _ _ _ Hfw) in Hbi.
  - by rewrite (bind_undefined _ _ _ _ Hfw) in Hbi.
Qed.

(** ** What a flush leaves alone *)

Lemma batch_infer_quiet device batch_size b w b' w' :
  batch_infer device batch_size b w = (Ok b', w') ->
  m_features_by_id w' = m_features_by_id w /\
  num_reads w' = num_reads w /\
  num_early_reads w' = num_early_reads w /\
  concat_calls (events w') = concat_calls (events w).
Proof.
  intros H. apply batch_infer_ok in H
    as (_ & ? & _ & _ & _ & ? & ? & (extra & -> & Hextra) & _).
  do 3 (split; [done|]).
  destruct (backend_events_silent extra Hextra) as (Hc & _ & _).
  change (CallBatchInfer (wfs b) :: extra) with ([CallBatchInfer (wfs b)] ++ extra).
  rewrite !concat_calls_app, Hc. unfold concat_calls. simpl. lia.
Qed.

Lemma flush_if_any_quiet device batch_size b w b' w' :
  flush_if_any device batch_size b w = (Ok b', w') ->
  m_features_by_id w' = m_features_by_id w /\
  num_reads w' = num_reads w /\
  num_early_reads w' = num_early_reads w /\
  concat_calls (events w') = concat_calls (events w).
Proof.
  unfold flush_if_any. destruct (decide _); [apply batch_infer_quiet|].
  by intros [= <- <-].
Qed.

Lemma infer_on_item_quiet device batch_size item b w b' w' :
  infer_on_item device batch_size item b w = (Ok b', w') ->
  m_features_by_id w' = m_features_by_id w /\
  num_reads w' = num_reads w /\
  num_early_reads w' = num_early_reads w /\
  concat_calls (events w') = concat_calls (events w).
Proof.
  unfold infer_on_item.
  destruct (required_batch_slots item) as [required|]; [|done].
  munfold. simpl. destruct (decide _).
  - destruct (batch_infer device batch_size b w) as [[b1| |] w1] eqn:Hbi; [|done..].
    intros [= <- <-]. by eapply batch_infer_quiet.
  - by intros [= <- <-].
Qed.

(** ** What an inference worker delivers *)

Lemma delivered_refl batch_size w : delivered batch_size w w [].
Proof.
  do 4 (split; [done|]). exists [], []. rewrite !app_nil_r. by repeat split.
Qed.

Lemma delivered_trans batch_size w1 w2 w3 orig1 orig2 :
  delivered batch_size w1 w2 orig1 -> delivered batch_size w2 w3 orig2 ->
  delivered batch_size w1 w3 (orig1 ++ orig2).
Proof.
  intros (H1 & H2 & H3 & H4 & moved1 & new1 & Hq1 & Hrel1 & Hb1 & Hbud1 & Hc1)
         (G1 & G2 & G3 & G4 & moved2 & new2 & Hq2 & Hrel2 & Hb2 & Hbud2 & Hc2).
  do 4 (split; [congruence|]).
  exists (moved1 ++ moved2), (new1 ++ new2).
  split; [by rewrite Hq2, Hq1, app_assoc|].
  split; [by apply Forall2_app|].
  split; [by rewrite Hb2, Hb1, app_assoc|].
  split; [by apply Forall_app|].
  by rewrite concat_app, Hc1, Hc2.
Qed.

Lemma batch_infer_delivered device batch_size b w b' w' :
  slots_ok batch_size b ->
  batch_infer device batch_size b w = (Ok b', w') ->
  b' = new_batcher batch_size /\ delivered batch_size w w' (wfs b).
Proof.
  intros (_ & Hrem & Hneg) Hbi.
  apply batch_infer_ok in Hbi
    as (-> & ? & ? & ? & ? & _ & _ & (extra & Hev & Hextra) & moved & ? & ?).
  split; [done|]. do 4 (split; [done|]).
  exists moved, [wfs b]. split; [done|]. split; [done|].
  destruct (backend_events_silent extra Hextra) as (_ & Hb & _).
  split; [|split].
  - rewrite Hev. change (CallBatchInfer (wfs b) :: extra)
      with ([CallBatchInfer (wfs b)] ++ extra).
    by rewrite !batches_app, Hb.
  - constructor; [|done]. unfold within_budget. destruct Hneg; [left; lia|by right].
  - simpl. by rewrite app_nil_r.
Qed.

Lemma batch_slots_app l1 l2 : batch_slots (l1 ++ l2) = batch_slots l1 + batch_slots l2.
Proof.
  unfold batch_slots. rewrite fmap_app. induction (_ <$> l1) as [|x l IH]; simpl; lia.
Qed.

Lemma new_batcher_slots_ok batch_size : slots_ok batch_size (new_batcher batch_size).
Proof.
  split; [apply new_batcher_ok|]. simpl. split; [unfold batch_slots; simpl; lia|].
  right. lia.
Qed.

Lemma infer_iteration_delivered device batch_size p b w b' w' :
  slots_ok batch_size b ->
  infer_iteration device batch_size p b w = (Ok b', w') ->
  slots_ok batch_size b' /\
  exists orig, wfs b ++ items [p] = orig ++ wfs b' /\ delivered batch_size w w' orig.
Proof.
  intros Hok. pose proof Hok as (Hbok & Hrem & Hneg). destruct p as [item|]; simpl.
  - unfold infer_on_item.
    destruct (required_batch_slots item) as [required|] eqn:Hreq; simpl; [|done].
    assert (batch_slots [item] = required) as Hone.
    { unfold batch_slots. simpl. rewrite Hreq. simpl. lia. }
    munfold. simpl. destruct (decide _) as [Hover|Hfit]; simpl.
    + destruct (batch_infer device batch_size b w) as [[b1| |] w1] eqn:Hbi; simpl;
        [|done..].
      intros [= <- <-].
      destruct (batch_infer_delivered _ _ _ _ _ _ Hok Hbi) as [-> Hdel].
      split.
      * split; [apply accept_ok, new_batcher_ok|]. simpl. rewrite Hone.
        split; [lia|]. right. lia.
      * exists (wfs b). split; [done|done].
    + intros [= <- <-]. split.
      * split; [by apply accept_ok|]. simpl. rewrite batch_slots_app, Hone.
        split; [lia|]. left. lia.
      * exists []. split; [done|]. apply delivered_refl.
  - unfold items. simpl. rewrite app_nil_r.
    destruct (decide (wfs b = [])) as [He|Hne].
    + rewrite flush_if_any_idle by done. intros [= <- <-]. split; [done|].
      exists []. split; [done|]. apply delivered_refl.
    + rewrite flush_if_any_flushes by done. intros Hbi.
      destruct (batch_infer_delivered _ _ _ _ _ _ Hok Hbi) as [-> Hdel].
      split; [apply new_batcher_slots_ok|].
      exists (wfs b). split; [by rewrite app_nil_r|done].
Qed.

Lemma infer_loop_delivered device batch_size pops b w b' w' :
  slots_ok batch_size b ->
  infer_loop device batch_size pops b w = (Ok b', w') ->
  slots_ok batch_size b' /\
  exists orig, wfs b ++ items pops = orig ++ wfs b' /\ delivered batch_size w w' orig.
Proof.
  revert b w. induction pops as [|p pops IH]; intros b w Hok.
  - simpl. intros [= <- <-]. split; [done|]. exists [].
    split; [by rewrite app_nil_r|apply delivered_refl].
  - rewrite infer_loop_cons.
    destruct (infer_iteration device batch_size p b w) as [[b1| |] w1] eqn:Hstep.
    + rewrite (bind_ok _ _ _ _ _ Hstep). intros Hloop.
      destruct (infer_iteration_delivered _ _ _ _ _ _ _ Hok Hstep)
        as (Hok1 & orig1 & Heq1 & Hdel1).
      destruct (IH b1 w1 Hok1 Hloop) as (Hok' & orig2 & Heq2 & Hdel2).
      split; [done|]. exists (orig1 ++ orig2). split.
      * rewrite (items_cons p pops), app_assoc, Heq1, <- app_assoc, Heq2.
        by rewrite app_assoc.
      * by eapply delivered_trans.
    + by rewrite (bind_throw _ _ _ _ _ Hstep).
    + by rewrite (bind_undefined _ _ _ _ Hstep).
Qed.

Lemma infer_fn_delivered device batch_size pops w b w' :
  infer_fn device batch_size pops w = (Ok b, w') ->
  wfs b = [] /\ delivered batch_size w w' (items pops).
Proof.
  unfold infer_fn.
  destruct (infer_loop device batch_size pops (new_batcher batch_size) w)
    as [[b1| |] w1] eqn:Hloop.
  - rewrite (bind_ok _ _ _ _ _ Hloop). intros Hflush.
    destruct (infer_loop_delivered _ _ _ _ _ _ _ (new_batcher_slots_ok batch_size) Hloop)
      as (Hok1 & orig1 & Heq1 & Hdel1).
    destruct (infer_iteration_delivered device batch_size TimedOut _ _ _ _ Hok1 Hflush)
      as (Hok & orig2 & Heq2 & Hdel2).
    unfold items in Heq2 at 1. simpl in Heq1, Heq2. rewrite app_nil_r in Heq2.
    assert (wfs b = []) as Hb.
    { simpl in Hflush. destruct (decide (wfs b1 = [])) as [He|Hne].
      - destruct Hok1 as [Hbok _].
        rewrite flush_if_any_idle in Hflush by done. by injection Hflush as <- <-.
      - destruct Hok1 as [Hbok _].
        rewrite flush_if_any_flushes in Hflush by done.
        by apply batch_infer_resets in Hflush as ->. }
    split; [done|]. rewrite Hb, app_nil_r in Heq2.
    rewrite Heq1, Heq2. by eapply delivered_trans.
  - by rewrite (bind_throw _ _ _ _ _ Hloop).
  - by rewrite (bind_undefined _ _ _ _ Hloop).
Qed.

(** X20.  An inference worker that returns has passed every window it
    popped to the decode queue: exactly once, in the order of the pops, and
    unchanged but for [inferred_bases].  It leaves the maps, the input
    queue and the sink alone, and keeps nothing back. *)
Theorem inference_worker_delivers_in_order device batch_size pops w b w'
    (Hret : infer_fn device batch_size pops w = (Ok b, w')) :
  wfs b = [] /\
  m_features_by_id w' = m_features_by_id w /\
  m_pending_features_by_id w' = m_pending_features_by_id w /\
  m_features_queue w' = m_features_queue w /\
  sink w' = sink w /\
  exists moved,
    m_inferred_features_queue w' = m_inferred_features_queue w ++ moved /\
    length moved = length (items pops) /\
    forall (i : nat) wf0, items pops !! i = Some wf0 ->
      exists d, moved !! i = Some (set_inferred_bases wf0 d).
Proof.
  destruct (infer_fn_delivered _ _ _ _ _ _ Hret)
    as (Hb & ? & ? & ? & ? & moved & new & Hq & Hrel & _).
  do 5 (split; [done|]). exists moved. split; [done|].
  split; [symmetry; by eapply Forall2_length|].
  intros i wf0 Hi.
  destruct (Forall2_lookup_l _ _ _ _ _ Hrel Hi) as (wf' & Hm & d & ->). by exists d.
Qed.

(** X21.  The batches of an inference worker that returns respect the
    slot budget: the batches handed to [batch_infer], concatenated, are the
    popped windows in order, and each batch needs at most [batch_size]
    slots, unless it is a single window (or none) that alone needs more. *)
Theorem batches_stay_within_budget device batch_size pops w b w'
    (Hret : infer_fn device batch_size pops w = (Ok b, w')) :
  exists new,
    batches (events w') = batches (events w) ++ new /\
    concat new = items pops /\
    Forall (fun batch => batch_slots batch <= batch_size \/ (length batch <= 1)%nat) new.
Proof.
  destruct (infer_fn_delivered _ _ _ _ _ _ Hret)
    as (_ & _ & _ & _ & _ & moved & new & _ & _ & Hb & Hbud & Hc).
  by exists new.
Qed.

Lemma forward_with_retry_first_event inputs w :
  exists rest, events (forward_with_retry inputs w).2 = events w ++ CallForward inputs :: rest.
Proof.
  unfold forward_with_retry, call_forward. munfold. simpl.
  destruct (module_forward (forward_calls w) inputs); simpl.
  - by eexists.
  - destruct DORADO_CUDA_BUILD; simpl.
    + destruct (module_forward (S _) _); simpl; rewrite <- !app_assoc; by eexists.
    + by eexists.
  - by eexists.
Qed.

Lemma batch_infer_first_events device batch_size b w :
  exists rest,
    events (batch_infer device batch_size b w).2
    = events w ++ CallBatchInfer (wfs b) :: CallForward (batch_inputs device b) :: rest.
Proof.
  rewrite batch_infer_unfold. set (w0 := set_events _ w).
  destruct (forward_with_retry_first_event (batch_inputs device b) w0) as [rest Hev].
  exists rest.
  destruct (forward_with_retry (batch_inputs device b) w0) as [[output| |] w1] eqn:Hfw;
    simpl in Hev.
  - rewrite (bind_ok _ _ _ _ _ Hfw).
    destruct (batch_infer_tail_world batch_size b output w1) as [He _].
    cbv zeta in He. rewrite He, Hev. subst w0. simpl. by rewrite <- app_assoc.
  - rewrite (bind_throw _ _ _ _ _ Hfw). simpl. rewrite Hev. subst w0. simpl.
    by rewrite <- app_assoc.
  - rewrite (bind_undefined _ _ _ _ Hfw). simpl. rewrite Hev. subst w0. simpl.
    by rewrite <- app_assoc.
Qed.

(** X22.  A window that alone needs more slots than the batch size, met
    by a worker that holds nothing, makes the worker call [batch_infer]
    on an empty batch: the model is run on inputs without a single window
    before the window itself is taken in. *)
Theorem oversized_window_flushes_an_empty_batch device batch_size item required w
    (Hreq : required_batch_slots item = Some required)
    (Hover : required > batch_size) :
  let inputs := batch_inputs device (new_batcher batch_size) in
  in_indices inputs = [] /\
  t_data (in_lengths inputs) = [] /\
  exists rest,
    events (infer_on_item device batch_size item (new_batcher batch_size) w).2
    = events w ++ CallBatchInfer [] :: CallForward inputs :: rest.
Proof.
  intros inputs. split; [done|]. split; [done|].
  destruct (batch_infer_first_events device batch_size (new_batcher batch_size) w)
    as [rest Hev].
  exists rest. unfold infer_on_item. rewrite Hreq.
  erewrite bind_ok by reflexivity. simpl remaining_batch_slots.
  rewrite decide_True by done.
  destruct (batch_infer device batch_size (new_batcher batch_size) w)
    as [[b1| |] w1] eqn:Hbi; simpl in Hev.
  - erewrite bind_ok by exact Hbi. done.
  - erewrite bind_throw by exact Hbi. done.
  - erewrite bind_undefined by exact Hbi. done.
Qed.

(** ** The order of decoding *)

Lemma delete_delete_lt {T} (l : list T) (k1 k2 : nat) :
  (k1 < k2)%nat -> delete (k2 - 1)%nat (delete k1 l) = delete k1 (delete k2 l).
Proof.
  revert k1 k2. induction l as [|x l IH]; intros k1 k2 Hlt; [by destruct k1, k2|].
  destruct k2 as [|k2]; [lia|]. destruct k1 as [|k1]; simpl.
  - by rewrite Nat.sub_0_r.
  - destruct k2 as [|k2]; [lia|]. simpl. f_equal.
    rewrite <- (IH k1 (S k2)) by lia. simpl. by rewrite Nat.sub_0_r.
Qed.

Lemma decode_step_run s (k : nat) item slots pending (pos : nat) :
  m_inferred_features_queue (world s) !! k = Some item ->
  m_features_by_id (world s) !! read_name item = Some slots ->
  m_pending_features_by_id (world s) !! read_name item = Some pending ->
  window_idx item = Z.of_nat pos -> (pos < length slots)%nat ->
  pending <> INT_MIN ->
  let n := read_name item in
  let slots' := <[pos := decode_window item]> slots in
  let w := set_inferred_features_queue (delete k (m_inferred_features_queue (world s)))
             (world s) in
  sys_step (DecodeStep k) s
  = Some {| world :=
              if decide (pending - 1 = 0) then
                set_sink (sink w ++ (BamMessage <$> records_to_send slots' n))
                  (set_events (events w ++ [CallConcat n slots'])
                     (set_maps (delete n (m_features_by_id w))
                               (delete n (m_pending_features_by_id w)) w))
              else
                set_maps (<[n := slots']> (m_features_by_id w))
                         (<[n := pending - 1]> (m_pending_features_by_id w)) w;
            workers := workers s |}.
Proof.
  intros Hitem Hf Hp Hpos Hlt Hmin n slots' w.
  pose proof (decode_iteration_run item w slots pending pos Hf Hp Hpos Hlt Hmin) as Hdec.
  simpl in Hdec. simpl. rewrite Hitem. simpl. unfold exec. fold w. by rewrite Hdec.
Qed.

(** X23.  On well-formed input the order in which the decode workers take
    two queued windows of the same read does not matter: both orders are
    possible, and they end in the same state, with the same slots, the
    same counter and, when these were the last two windows, the same
    records sent. *)
Theorem decode_order_is_irrelevant cfgs ls s (k1 k2 : nat) item1 item2
    (Hwf : Forall wf_label ls)
    (Hrun : run ls (init_sys cfgs) = Some s)
    (Hlt : (k1 < k2)%nat)
    (H1 : m_inferred_features_queue (world s) !! k1 = Some item1)
    (H2 : m_inferred_features_queue (world s) !! k2 = Some item2)
    (Hsame : read_name item1 = read_name item2) :
  exists s',
    run [DecodeStep k1; DecodeStep (k2 - 1)] s = Some s' /\
    run [DecodeStep k2; DecodeStep k1] s = Some s'.
Proof.
  destruct (reachable_inv cfgs ls s Hwf Hrun) as [g Hinv].
  set (q := m_inferred_features_queue (world s)) in *.
  assert (exists ks, flight_keys s ≡ₚ key item1 :: key item2 :: ks) as [ks Hks].
  { assert (q ≡ₚ item1 :: item2 :: delete k1 (delete k2 q)) as Hq.
    { rewrite (delete_Permutation q k2 item2 H2) at 1.
      assert (delete k2 q !! k1 = Some item1) as H1'
        by (by rewrite list_lookup_delete_lt).
      rewrite (delete_Permutation _ k1 item1 H1') at 1. apply perm_swap. }
    exists ((key <$> m_features_queue (world s)) ++ worker_keys (workers s)
            ++ (key <$> delete k1 (delete k2 q))).
    rewrite flight_keys_unfold. fold q. rewrite Hq at 1. rewrite !fmap_cons.
    solve_Permutation. }
  unfold sys_inv in Hinv. apply (tracker_inv_perm _ _ _ _ _ Hks) in Hinv.
  unfold key in Hinv. rewrite <- Hsame in Hinv.
  set (n := read_name item1) in *.
  destruct (tracker_inv_decode _ _ _ _ _ _ Hinv)
    as (slots & pending & wr & pos1 & Hf & Hp & Hg & Hpos1 & Hwr1 & Hlt1 & Hr & _ & Hz & Hnz).
  assert (pending - 1 <> 0) as Hne.
  { intros Hzero. destruct (Hz Hzero) as [Hnil _].
    rewrite slots_of_cons in Hnil. simpl in Hnil. by rewrite decide_True in Hnil. }
  specialize (Hnz Hne slots eq_refl).
  destruct (tracker_inv_decode _ _ _ _ _ _ Hnz)
    as (slots2 & pending2 & wr2 & pos2 & Hf2 & Hp2 & Hg2 & Hpos2 & Hwr2 & Hlt2 & Hr2 & _).
  rewrite lookup_insert_eq in Hf2. rewrite lookup_insert_eq in Hp2.
  rewrite lookup_insert_eq in Hg2.
  injection Hf2 as <-. injection Hp2 as <-. injection Hg2 as <-.
  assert (pos1 <> pos2) as Hpos.
  { intros ->. rewrite list_lookup_insert_eq in Hwr2; [done|].
    by eapply lookup_lt_Some. }
  assert (pending <> INT_MIN /\ pending - 1 <> INT_MIN) as [Hmin1 Hmin2]
    by (unfold INT_MIN; lia).
  assert (read_name item2 = n) as Hn2 by done.
  (* first one order *)
  pose proof (decode_step_run s k1 item1 slots pending pos1 H1 Hf Hp Hpos1 Hlt1 Hmin1) as HA1.
  cbv zeta in HA1. rewrite decide_False in HA1 by done. fold n q in HA1.
  match type of HA1 with _ = Some ?st => set (sA := st) in * end.
  eassert (sys_step (DecodeStep (k2 - 1)) sA = Some _) as HA2.
  { apply (decode_step_run sA (k2 - 1) item2 (<[pos1 := decode_window item1]> slots)
             (pending - 1) pos2).
    - subst sA. simpl. rewrite list_lookup_delete_ge by lia.
      by replace (S (k2 - 1)) with k2 by lia.
    - subst sA. simpl. rewrite Hn2. by rewrite lookup_insert_eq.
    - subst sA. simpl. rewrite Hn2. by rewrite lookup_insert_eq.
    - done.
    - by rewrite length_insert.
    - done. }
  (* then the other *)
  pose proof (decode_step_run s k2 item2 slots pending pos2 H2) as HB1.
  rewrite Hn2 in HB1. specialize (HB1 Hf Hp Hpos2 Hlt2 Hmin1).
  cbv zeta in HB1. rewrite decide_False in HB1 by done. fold q in HB1.
  match type of HB1 with _ = Some ?st => set (sB := st) in * end.
  eassert (sys_step (DecodeStep k1) sB = Some _) as HB2.
  { apply (decode_step_run sB k1 item1 (<[pos2 := decode_window item2]> slots)
             (pending - 1) pos1).
    - subst sB. simpl. by rewrite list_lookup_delete_lt by lia.
    - subst sB. simpl. fold n. by rewrite lookup_insert_eq.
    - subst sB. simpl. fold n. by rewrite lookup_insert_eq.
    - done.
    - by rewrite length_insert.
    - done. }
  eexists. split.
  - cbn [run]. rewrite HA1. cbn [mbind option_bind]. rewrite HA2. reflexivity.
  - cbn [run]. rewrite HB1. cbn [mbind option_bind]. rewrite HB2.
    cbn [mbind option_bind]. f_equal.
    subst sA sB. simpl. rewrite Hn2. fold n.
    rewrite !delete_insert_eq, !insert_insert_eq.
    rewrite (delete_delete_lt q k1 k2 Hlt).
    rewrite (list_insert_insert_ne slots pos1 pos2) by done.
    done.
Qed.

(** ** The counter of active threads and the end of a stage *)

Lemma count_insert (l : list Phase) (i : nat) (x y ph : Phase) :
  l !! i = Some x ->
  Z.of_nat (length (filter (fun z => z = ph) (<[i := y]> l)))
  = Z.of_nat (length (filter (fun z => z = ph) l))
    - (if decide (x = ph) then 1 else 0) + (if decide (y = ph) then 1 else 0).
Proof.
  revert i. induction l as [|z l IH]; intros i Hi; [done|].
  destruct i as [|i]; simpl in Hi.
  - injection Hi as ->. simpl. rewrite !filter_cons.
    destruct (decide (x = ph)), (decide (y = ph)); simpl; lia.
  - simpl. rewrite !filter_cons. specialize (IH i Hi).
    destruct (decide (z = ph)); simpl; lia.
Qed.

Lemma stage_step_counter (i : nat) st st' :
  stage_step i st = Some st' ->
  active st = Z.of_nat (count_phase Running st) ->
  active st' = Z.of_nat (count_phase Running st').
Proof.
  unfold stage_step, count_phase.
  destruct (phases st !! i) as [ph|] eqn:Hph; simpl; [|done].
  destruct ph; intros [= <-] Hact; simpl;
    rewrite (count_insert _ _ _ _ _ Hph); simpl; lia.
Qed.

Lemma stage_run_counter sched st st' :
  stage_run sched st = Some st' ->
  active st = Z.of_nat (count_phase Running st) ->
  active st' = Z.of_nat (count_phase Running st').
Proof.
  revert st. induction sched as [|i sched IH]; intros st; simpl.
  - by intros [= <-].
  - destruct (stage_step i st) as [st1|] eqn:Hstep; simpl; [|done].
    intros Hrun Hact. apply (IH st1 Hrun). by eapply stage_step_counter.
Qed.

Lemma stage_init_counter n :
  active (stage_init n) = Z.of_nat (count_phase Running (stage_init n)).
Proof.
  unfold count_phase. simpl. induction n as [|n IH]; [done|].
  simpl. rewrite filter_cons. by rewrite decide_False.
Qed.

(** X24.  The queue a stage feeds is terminated only by a worker that has
    decremented the counter and then loads zero, and at that moment no
    worker of the stage is between its increment and its decrement: the
    counter is at every moment the number of such workers. *)
Theorem terminate_waits_for_running_workers (n : nat) sched st (i : nat) st'
    (Hrun : stage_run sched (stage_init n) = Some st)
    (Hstep : stage_step i st = Some st') :
  active st = Z.of_nat (count_phase Running st) /\
  (terminate_calls st' <> terminate_calls st ->
     phases st !! i = Some Decremented /\
     count_phase Running st = 0%nat /\
     terminate_calls st' = S (terminate_calls st)).
Proof.
  pose proof (stage_run_counter _ _ _ Hrun (stage_init_counter n)) as Hact.
  split; [done|].
  unfold stage_step in Hstep.
  destruct (phases st !! i) as [ph|] eqn:Hph; simpl in Hstep; [|done].
  destruct ph; try done; injection Hstep as <-; simpl; try done.
  destruct (decide (active st = 0)) as [Hz|]; [|done].
  intros _. split; [done|]. split; [lia|done].
Qed.

Lemma stage_step_terminated (i : nat) st st' :
  stage_step i st = Some st' ->
  active st = Z.of_nat (count_phase Running st) ->
  (terminate_calls st <= count_phase Left st)%nat ->
  ((count_phase Running st = 0 /\ count_phase Decremented st = 0 /\
    0 < count_phase Left st)%nat -> (1 <= terminate_calls st)%nat) ->
  (terminate_calls st' <= count_phase Left st')%nat /\
  ((count_phase Running st' = 0 /\ count_phase Decremented st' = 0 /\
    0 < count_phase Left st')%nat -> (1 <= terminate_calls st')%nat).
Proof.
  unfold stage_step, count_phase.
  destruct (phases st !! i) as [ph|] eqn:Hph; simpl; [|done].
  pose proof (count_insert (phases st) i ph) as Hc.
  destruct ph; intros [= <-] Hact Hle Hidle; simpl.
  - pose proof (Hc Running Running Hph) as HR. pose proof (Hc Running Left Hph) as HL.
    simpl in HR, HL. split; lia.
  - pose proof (Hc Decremented Decremented Hph) as HD.
    pose proof (Hc Decremented Left Hph) as HL.
    simpl in HD, HL. split; lia.
  - pose proof (Hc Left Running Hph) as HR. pose proof (Hc Left Left Hph) as HL.
    simpl in HR, HL.
    destruct (decide (active st = 0)); split; lia.
Qed.

Lemma stage_run_terminated sched st st' :
  stage_run sched st = Some st' ->
  active st = Z.of_nat (count_phase Running st) ->
  (terminate_calls st <= count_phase Left st)%nat ->
  ((count_phase Running st = 0 /\ count_phase Decremented st = 0 /\
    0 < count_phase Left st)%nat -> (1 <= terminate_calls st)%nat) ->
  (terminate_calls st' <= count_phase Left st')%nat /\
  ((count_phase Running st' = 0 /\ count_phase Decremented st' = 0 /\
    0 < count_phase Left st')%nat -> (1 <= terminate_calls st')%nat).
Proof.
  revert st. induction sched as [|i sched IH]; intros st; simpl.
  - by intros [= <-].
  - destruct (stage_step i st) as [st1|] eqn:Hstep; simpl; [|done].
    intros Hrun Hact Hle Hidle.
    destruct (stage_step_terminated _ _ _ Hstep Hact Hle Hidle) as [Hle1 Hidle1].
    apply (IH st1 Hrun); [by eapply stage_step_counter|done|done].
Qed.

Lemma count_phase_all ph (l : list Phase) :
  Forall (fun x => x = ph) l ->
  forall ph', length (filter (fun z => z = ph') l)
              = if decide (ph = ph') then length l else 0%nat.
Proof.
  induction 1 as [|x l -> _ IH]; intros ph'; [by destruct (decide _)|].
  rewrite filter_cons. specialize (IH ph').
  destruct (decide (ph = ph')); simpl; lia.
Qed.

Lemma length_stage_step (i : nat) st st' :
  stage_step i st = Some st' -> length (phases st') = length (phases st).
Proof.
  unfold stage_step. destruct (phases st !! i) as [ph|]; simpl; [|done].
  destruct ph; intros [= <-]; simpl; by rewrite ?length_insert.
Qed.

Lemma length_stage_run sched st st' :
  stage_run sched st = Some st' -> length (phases st') = length (phases st).
Proof.
  revert st. induction sched as [|i sched IH]; intros st; simpl.
  - by intros [= <-].
  - destruct (stage_step i st) as [st1|] eqn:Hstep; simpl; [|done].
    intros Hrun. rewrite (IH st1 Hrun). by eapply length_stage_step.
Qed.

(** X25.  When every worker of a stage has left, the queue the stage
    feeds has been terminated: at least once, and at most once per worker.
    Already when no worker is between its increment and its test any more,
    and one has left, the call has been made. *)
Theorem stage_end_terminates_the_queue (n : nat) sched st
    (Hrun : stage_run sched (stage_init n) = Some st) :
  (terminate_calls st <= count_phase Left st <= n)%nat /\
  ((count_phase Running st = 0 /\ count_phase Decremented st = 0 /\
    0 < count_phase Left st)%nat -> (1 <= terminate_calls st)%nat) /\
  ((0 < n)%nat -> Forall (fun ph => ph = Left) (phases st) ->
     (1 <= terminate_calls st <= n)%nat).
Proof.
  assert (forall ph, count_phase ph (stage_init n)
                     = if decide (NotStarted = ph) then n else 0%nat) as Hinit.
  { intros ph. unfold count_phase. simpl.
    rewrite (count_phase_all NotStarted) by (by apply Forall_replicate).
    by rewrite length_replicate. }
  destruct (stage_run_terminated _ _ _ Hrun (stage_init_counter n)) as [Hle Hidle].
  { rewrite Hinit. simpl. lia. }
  { rewrite !Hinit. simpl. lia. }
  assert (length (phases st) = n) as Hlen.
  { rewrite (length_stage_run _ _ _ Hrun). simpl. by rewrite length_replicate. }
  assert (count_phase Left st <= n)%nat as Hbound.
  { unfold count_phase. rewrite <- Hlen. apply length_filter. }
  split; [lia|]. split; [done|].
  intros Hn Hall.
  assert (forall ph, count_phase ph st = if decide (Left = ph) then n else 0%nat) as Hend.
  { intros ph. unfold count_phase. rewrite (count_phase_all Left) by done. by rewrite Hlen. }
  split; [|lia]. apply Hidle. rewrite !Hend. simpl. lia.
Qed.

(** X26.  The protocol does not wait for a worker that has not started:
    with two workers or more, the first one may increment, decrement and
    load zero, and so terminate the queue, while all the others have yet to
    increment the counter; each of them can still run its loop after
    that, and will terminate the queue again. *)
Theorem terminate_can_precede_late_workers (n : nat) (Hn : (2 <= n)%nat) :
  exists st,
    stage_run [0; 0; 0]%nat (stage_init n) = Some st /\
    terminate_calls st = 1%nat /\
    phases st = Left :: replicate (n - 1) NotStarted /\
    exists st',
      stage_run [1; 1; 1]%nat st = Some st' /\ terminate_calls st' = 2%nat.
Proof.
  destruct n as [|[|n]]; [lia|lia|].
  eexists. split; [reflexivity|]. simpl. split; [done|]. split; [done|].
  eexists. split; [reflexivity|]. done.
Qed.

(** ** What a completed read is made of *)

Lemma flushed_key evs wf wf' :
  flushed evs wf wf' -> read_name wf' = read_name wf /\ window_idx wf' = window_idx wf.
Proof.
  intros (? & ? & ? & ? & ? & ? & ? & ? & _ & _ & _ & _ & _ & _ & _ & _ & _ & ->). done.
Qed.

Lemma flushed_mono evs evs' wf wf' :
  (forall e, e ∈ evs -> e ∈ evs') -> flushed evs wf wf' -> flushed evs' wf wf'.
Proof.
  intros Hsub (device & b & calls & elements & base_logits & split_preds & j & chunk &
               H1 & H2 & Hrest).
  exists device, b, calls, elements, base_logits, split_preds, j, chunk.
  split; [by apply Hsub|]. split; [by apply Hsub|]. done.
Qed.

Lemma windows_inv_at_mono evs evs' s g h :
  (forall e, e ∈ evs -> e ∈ evs') -> windows_inv_at evs s g h -> windows_inv_at evs' s g h.
Proof.
  intros Hsub [Hoks Hwin]. split; [done|]. intros n slots Hn.
  destruct (Hwin n slots Hn) as (wfs0 & wr & ? & ? & ? & ? & Hdone & ? & Hqueued).
  exists wfs0, wr. do 4 (split; [done|]). split; [|split; [done|]].
  - intros i wf0 slot Hi Hone Hslot. specialize (Hdone i wf0 slot Hi Hone Hslot).
    unfold slot_decoded in *. destruct (needs_inference wf0); [|done].
    destruct Hdone as (wf' & Hfl & ->). exists wf'. split; [|done].
    by eapply flushed_mono.
  - intros wf' Hwf' Hname. destruct (Hqueued wf' Hwf' Hname) as (i & wf0 & ? & ? & Hfl).
    exists i, wf0. do 2 (split; [done|]). by eapply flushed_mono.
Qed.

Lemma forward_with_retry_output inputs w output w' :
  forward_with_retry inputs w = (Ok output, w') ->
  exists calls, module_forward calls inputs = Returned output.
Proof.
  unfold forward_with_retry, call_forward. munfold. simpl.
  destruct (module_forward (forward_calls w) inputs) eqn:H1; simpl.
  - intros [= <- _]. by eexists.
  - destruct DORADO_CUDA_BUILD; simpl; [|done].
    destruct (module_forward (S _) _) eqn:H2; simpl; [|done..].
    intros [= <- _]. by eexists.
  - done.
Qed.

Lemma assign_inferred_chunks split_preds pre rest l' :
  assign_inferred (length pre) split_preds (pre ++ rest) = Some l' ->
  length split_preds = length rest ->
  exists rest', l' = pre ++ rest' /\
    forall (i : nat) wf', rest' !! i = Some wf' ->
      exists wf chunk, rest !! i = Some wf /\ split_preds !! i = Some chunk /\
        decode_preds chunk = Some (inferred_bases wf') /\
        wf' = set_inferred_bases wf (inferred_bases wf').
Proof.
  revert pre rest. induction split_preds as [|p ps IH]; intros pre rest; simpl.
  - intros [= <-] Hlen. destruct rest; [|done]. exists []. split; [done|]. done.
  - destruct (decode_preds p) as [d|] eqn:Hd; [|done].
    destruct rest as [|wf0 rest]; [done|].
    rewrite lookup_app_r, Nat.sub_diag by done. simpl.
    rewrite insert_app_r_alt, Nat.sub_diag by done. simpl.
    replace (S (length pre)) with (length (pre ++ [set_inferred_bases wf0 d]))
      by (rewrite length_app; simpl; lia).
    rewrite (cons_middle (set_inferred_bases wf0 d) pre rest), app_assoc.
    intros Has Hlen. apply IH in Has as (rest' & -> & Hrest); [|lia].
    exists (set_inferred_bases wf0 d :: rest'). split; [by rewrite <- app_assoc|].
    intros [|i] wf' Hi; simpl in Hi.
    + injection Hi as <-. exists wf0, p. done.
    + by apply Hrest.
Qed.

Lemma batch_infer_flushed device batch_size b w b' w' :
  batcher_ok b ->
  batch_infer device batch_size b w = (Ok b', w') ->
  (forall e, e ∈ events w -> e ∈ events w') /\
  exists moved,
    m_inferred_features_queue w' = m_inferred_features_queue w ++ moved /\
    forall wf', wf' ∈ moved -> exists wf, wf ∈ wfs b /\ flushed (events w') wf wf'.
Proof.
  intros Hok Hbi. pose proof Hok as (Hsizes & _).
  destruct (batch_infer_first_events device batch_size b w) as [rest Hev].
  rewrite Hbi in Hev. simpl in Hev.
  assert (CallBatchInfer (wfs b) ∈ events w' /\
          CallForward (batch_inputs device b) ∈ events w') as [Hc1 Hc2].
  { rewrite Hev. split; apply elem_of_app; right;
      [apply list_elem_of_here|apply list_elem_of_further, list_elem_of_here]. }
  split.
  { intros e He. rewrite Hev. apply elem_of_app. by left. }
  clear Hev.
  rewrite batch_infer_unfold in Hbi. set (w0 := set_events _ w) in Hbi.
  pose proof (forward_with_retry_frame (batch_inputs device b) w0) as Hf.
  destruct (forward_with_retry (batch_inputs device b) w0) as [[output| |] w1] eqn:Hfw.
  - rewrite (bind_ok _ _ _ _ _ Hfw) in Hbi. simpl in Hf.
    destruct Hf as (_ & _ & _ & Hf4 & _).
    apply forward_with_retry_output in Hfw as [calls Hcall].
    destruct output as [elements|]; [|done]. revert Hbi. munfold.
    destruct (elements !! 1%nat) as [base_logits|] eqn:Helem; simpl; [|done].
    destruct (split_with_sizes _ _) as [split_preds|] eqn:Hsplit; simpl; [|done].
    destruct (assign_inferred _ _ _) as [wfs'|] eqn:Has; simpl; [|done].
    rewrite for_each_push_inferred. intros [= _ <-]. simpl. rewrite Hf4.
    exists wfs'. split; [done|].
    assert (length split_preds = length (wfs b)) as Hlen.
    { unfold split_with_sizes in Hsplit. destruct (decide _); [|done].
      injection Hsplit as <-. by rewrite split_chunks_length, Hsizes, length_fmap. }
    destruct (assign_inferred_chunks split_preds [] (wfs b) wfs' Has Hlen)
      as (rest' & -> & Hrest).
    intros wf' [j Hj]%list_elem_of_lookup.
    destruct (Hrest j wf' Hj) as (wf & chunk & Hwf & Hchunk & Hdec & Hset).
    exists wf. split; [by eapply list_elem_of_lookup_2|].
    exists device, b, calls, elements, base_logits, split_preds, j, chunk.
    split; [exact Hc1|]. split; [exact Hc2|]. done.
  - by rewrite (bind_throw _ _ _ _ _ Hfw) in Hbi.
  - by rewrite (bind_undefined _ _ _ _ Hfw) in Hbi.
Qed.

Lemma infer_on_item_origin device batch_size item b w b' w' :
  batcher_ok b ->
  infer_on_item device batch_size item b w = (Ok b', w') ->
  batcher_ok b' /\
  (forall wf, wf ∈ wfs b' -> wf ∈ wfs b ++ [item]) /\
  (forall e, e ∈ events w -> e ∈ events w') /\
  exists moved,
    m_inferred_features_queue w' = m_inferred_features_queue w ++ moved /\
    forall wf', wf' ∈ moved -> exists wf, wf ∈ wfs b /\ flushed (events w') wf wf'.
Proof.
  intros Hok. unfold infer_on_item.
  destruct (required_batch_slots item) as [required|]; [|done].
  munfold. simpl. destruct (decide _).
  - destruct (batch_infer device batch_size b w) as [[b1| |] w1] eqn:Hbi; [|done..].
    intros [= <- <-].
    pose proof (batch_infer_resets _ _ _ _ _ _ Hbi) as ->.
    split; [apply accept_ok, new_batcher_ok|]. split.
    + simpl. intros wf Hin. apply elem_of_app. by right.
    + by eapply batch_infer_flushed.
  - intros [= <- <-]. split; [by apply accept_ok|]. split; [done|]. split; [done|].
    exists []. split; [by rewrite app_nil_r|]. by intros wf' ?%elem_of_nil.
Qed.

Lemma flush_if_any_origin device batch_size b w b' w' :
  batcher_ok b ->
  flush_if_any device batch_size b w = (Ok b', w') ->
  batcher_ok b' /\
  (forall wf, wf ∈ wfs b' -> wf ∈ wfs b) /\
  (forall e, e ∈ events w -> e ∈ events w') /\
  exists moved,
    m_inferred_features_queue w' = m_inferred_features_queue w ++ moved /\
    forall wf', wf' ∈ moved -> exists wf, wf ∈ wfs b /\ flushed (events w') wf wf'.
Proof.
  intros Hok. unfold flush_if_any. destruct (decide _).
  - intros Hbi. pose proof (batch_infer_resets _ _ _ _ _ _ Hbi) as ->.
    split; [apply new_batcher_ok|]. split; [by intros wf ?%elem_of_nil|].
    by eapply batch_infer_flushed.
  - intros [= <- <-]. split; [done|]. split; [done|]. split; [done|].
    exists []. split; [by rewrite app_nil_r|]. by intros wf' ?%elem_of_nil.
Qed.

Lemma elem_of_concat_insert {T U} (f : U -> list T) (l : list U) (i : nat) (x : U) (y : T) :
  y ∈ concat (f <$> <[i := x]> l) -> y ∈ f x \/ y ∈ concat (f <$> l).
Proof.
  revert i. induction l as [|z l IH]; intros i; [by right|].
  destruct i as [|i]; simpl; rewrite !elem_of_app.
  - intros [?|?]; [by left|right; by right].
  - intros [?|Hin]; [right; by left|]. destruct (IH i Hin) as [?|?]; [by left|right; by right].
Qed.

Lemma elem_of_worker_wfs (ws : list InferWorker) (i : nat) iw wf0 :
  ws !! i = Some iw -> wf0 ∈ wfs (iw_batcher iw) ->
  wf0 ∈ concat ((fun iw => wfs (iw_batcher iw)) <$> ws).
Proof.
  revert i. induction ws as [|z ws IH]; intros i Hi Hin; [done|].
  rewrite fmap_cons. simpl. apply elem_of_app.
  destruct i as [|i]; simpl in Hi.
  - injection Hi as ->. by left.
  - right. by eapply IH.
Qed.

Lemma in_flight_elem s wf0 :
  wf0 ∈ in_flight s <->
  wf0 ∈ m_features_queue (world s) \/
  wf0 ∈ concat ((fun iw => wfs (iw_batcher iw)) <$> workers s) \/
  wf0 ∈ m_inferred_features_queue (world s).
Proof. unfold in_flight. by rewrite !elem_of_app. Qed.

Lemma unflushed_elem s wf0 :
  wf0 ∈ unflushed s <->
  wf0 ∈ m_features_queue (world s) \/
  wf0 ∈ concat ((fun iw => wfs (iw_batcher iw)) <$> workers s).
Proof. unfold unflushed. by rewrite elem_of_app. Qed.

(** What a step of an inference worker does to the windows: those that no
    flush has taken were so before, and a window new to the decode queue is
    one of them as a flush returned it. *)
Lemma infer_step_origin l s s' :
  match l with InferPop _ _ | InferFlush _ => True | _ => False end ->
  Forall (fun iw => batcher_ok (iw_batcher iw)) (workers s) ->
  sys_step l s = Some s' ->
  Forall (fun iw => batcher_ok (iw_batcher iw)) (workers s') /\
  m_features_by_id (world s') = m_features_by_id (world s) /\
  (forall wf, wf ∈ unflushed s' -> wf ∈ unflushed s) /\
  (forall e, e ∈ events (world s) -> e ∈ events (world s')) /\
  (forall wf', wf' ∈ m_inferred_features_queue (world s') ->
     wf' ∈ m_inferred_features_queue (world s) \/
     exists wf, wf ∈ unflushed s /\ flushed (events (world s')) wf wf').
Proof.
  destruct l as [message|i k|i|k]; intros Hl Hoks Hstep; try done; simpl in Hstep.
  - destruct (workers s !! i) as [iw|] eqn:Hiw; [|done]. simpl in Hstep.
    destruct (m_features_queue (world s) !! k) as [item|] eqn:Hk; [|done].
    simpl in Hstep. unfold exec in Hstep.
    destruct (infer_on_item _ _ _ _ _) as [[b'| |] w'] eqn:Hit; [|done..].
    simpl in Hstep. injection Hstep as <-.
    assert (batcher_ok (iw_batcher iw)) as Hok.
    { rewrite Forall_forall in Hoks. apply Hoks. by eapply list_elem_of_lookup_2. }
    pose proof (infer_on_item_effect _ _ _ _ _ _ _ Hit) as (Hf & _ & Hq & _).
    destruct (infer_on_item_origin _ _ _ _ _ _ _ Hok Hit)
      as (Hok' & Hheld & Hgrow & moved & Hiq & Hmoved).
    simpl in Hf, Hq, Hiq.
    split; [by apply Forall_insert|]. split; [done|]. split; [|split; [exact Hgrow|]].
    + intros wf Hin. apply unflushed_elem in Hin. simpl in Hin. apply unflushed_elem.
      rewrite Hq in Hin. destruct Hin as [Hin|Hin].
      * left. by eapply list_elem_of_delete_inv.
      * apply elem_of_concat_insert in Hin as [Hin|Hin]; [|by right].
        simpl in Hin. apply Hheld in Hin. apply elem_of_app in Hin as [Hin|Hin].
        -- right. by eapply elem_of_worker_wfs.
        -- apply list_elem_of_singleton in Hin as ->. left. by eapply list_elem_of_lookup_2.
    + intros wf' Hin. simpl in Hin. rewrite Hiq, elem_of_app in Hin.
      destruct Hin as [Hin|Hin]; [by left|]. right.
      destruct (Hmoved wf' Hin) as (wf & Hwf & Hfl). exists wf. split; [|done].
      apply unflushed_elem. right. by eapply elem_of_worker_wfs.
  - destruct (workers s !! i) as [iw|] eqn:Hiw; [|done]. simpl in Hstep.
    unfold exec in Hstep.
    destruct (flush_if_any _ _ _ _) as [[b'| |] w'] eqn:Hfl; [|done..].
    simpl in Hstep. injection Hstep as <-.
    assert (batcher_ok (iw_batcher iw)) as Hok.
    { rewrite Forall_forall in Hoks. apply Hoks. by eapply list_elem_of_lookup_2. }
    pose proof (flush_if_any_effect _ _ _ _ _ _ Hfl) as (Hf & _ & Hq & _).
    destruct (flush_if_any_origin _ _ _ _ _ _ Hok Hfl)
      as (Hok' & Hheld & Hgrow & moved & Hiq & Hmoved).
    split; [by apply Forall_insert|]. split; [done|]. split; [|split; [exact Hgrow|]].
    + intros wf Hin. apply unflushed_elem in Hin. simpl in Hin. apply unflushed_elem.
      rewrite Hq in Hin. destruct Hin as [Hin|Hin]; [by left|].
      apply elem_of_concat_insert in Hin as [Hin|Hin]; [|by right].
      simpl in Hin. right. eapply elem_of_worker_wfs; [done|]. by apply Hheld.
    + intros wf' Hin. simpl in Hin. rewrite Hiq, elem_of_app in Hin.
      destruct Hin as [Hin|Hin]; [by left|]. right.
      destruct (Hmoved wf' Hin) as (wf & Hwf & Hflushed). exists wf. split; [|done].
      apply unflushed_elem. right. by eapply elem_of_worker_wfs.
Qed.

Lemma in_flight_slot s wf0 :
  wf0 ∈ in_flight s -> window_idx wf0 ∈ slots_of (read_name wf0) (flight_keys s).
Proof.
  intros Hin. unfold slots_of, flight_keys.
  apply list_elem_of_fmap. exists (key wf0). split; [done|].
  apply list_elem_of_filter. split; [done|]. by apply list_elem_of_fmap_2.
Qed.

Lemma initial_writes_lookup wfs0 (i : nat) wf0 :
  wfs0 !! i = Some wf0 ->
  initial_writes wfs0 !! i = Some (if needs_inference wf0 then 0%nat else 1%nat) /\
  initial_slots wfs0 !! i
  = Some (if needs_inference wf0 then EmptyString else decode_window wf0).
Proof.
  intros Hi. unfold initial_writes, initial_slots. by rewrite !list_lookup_fmap, Hi.
Qed.

Lemma input_message_events message w e :
  e ∈ events w -> e ∈ events (input_message message w).2.
Proof.
  intros He. destruct message as [tname [wfs0|]|payload]; [|done..].
  rewrite input_message_unfold.
  destruct (to_infer wfs0) as [|x l].
  - unfold bump_early_reads, bump_reads. munfold. simpl.
    rewrite concat_features_and_send_run. simpl. apply elem_of_app. by left.
  - destruct (m_features_by_id w !! tname).
    + simpl. apply elem_of_app. by left.
    + unfold bump_reads. munfold. by rewrite for_each_push_features.
Qed.

(** The log only grows. *)
Lemma sys_step_events l s s' e :
  Forall (fun iw => batcher_ok (iw_batcher iw)) (workers s) ->
  sys_step l s = Some s' -> e ∈ events (world s) -> e ∈ events (world s').
Proof.
  intros Hoks Hstep He. destruct l as [message|i k|i|k].
  - simpl in Hstep. unfold exec in Hstep.
    pose proof (input_message_events message (world s) e He) as Hin.
    destruct (input_message message (world s)) as [[[]| |] w']; [|done..].
    simpl in Hstep. by injection Hstep as <-.
  - by apply (infer_step_origin (InferPop i k) s s' I Hoks Hstep).
  - by apply (infer_step_origin (InferFlush i) s s' I Hoks Hstep).
  - simpl in Hstep.
    destruct (m_inferred_features_queue (world s) !! k) as [item|]; [|done].
    simpl in Hstep. unfold exec in Hstep.
    destruct (decode_iteration _ _) as [[[]| |] w'] eqn:Hdec; [|done..].
    simpl in Hstep. injection Hstep as <-. simpl.
    apply decode_iteration_effect in Hdec as (_ & _ & Hcase). simpl in Hcase.
    destruct (m_features_by_id (world s) !! read_name item).
    + destruct Hcase as (pending & pos & _ & _ & _ & _ & Hw'). simpl in Hw'.
      destruct (decide (pending - 1 = 0)); subst w'; simpl; [|done].
      apply elem_of_app. by left.
    + subst w'. simpl. apply elem_of_app. by left.
Qed.

Lemma infer_step_windows l s s' evs g h :
  match l with InferPop _ _ | InferFlush _ => True | _ => False end ->
  sys_step l s = Some s' ->
  (forall e, e ∈ events (world s') -> e ∈ evs) ->
  windows_inv_at evs s g h -> windows_inv_at evs s' g h.
Proof.
  intros Hl Hstep Hevs [Hoks Hwin].
  destruct (infer_step_origin l s s' Hl Hoks Hstep) as (Hoks' & Hf & Hun & _ & Hiq).
  split; [done|].
  intros n slots Hn. rewrite Hf in Hn.
  destruct (Hwin n slots Hn) as (wfs0 & wr & ? & ? & ? & ? & ? & Hfresh & Hdone).
  exists wfs0, wr. do 5 (split; [done|]). split.
  - intros wf' Hwf' Hname. apply Hfresh; [by apply Hun|done].
  - intros wf' Hwf' Hname. destruct (Hiq wf' Hwf') as [Hold|(wf & Hwf & Hfl)].
    + by apply Hdone.
    + destruct (flushed_key _ _ _ Hfl) as [Hrn Hidx].
      destruct (Hfresh wf Hwf) as (j & Hj & Hwfs0); [congruence|].
      exists j, wf. split; [congruence|]. split; [done|].
      by eapply flushed_mono.
Qed.

Lemma sys_step_windows_at l s s' evs g h :
  wf_label l -> sys_step l s = Some s' -> sys_inv s g ->
  (forall e, e ∈ events (world s') -> e ∈ evs) ->
  windows_inv_at evs s g h ->
  windows_inv_at evs s' (track_writes l s s' g) (track_windows l s s' h).
Proof.
  intros Hwf Hstep Hinv Hevs Hwin.
  destruct l as [message|i k|i|k].
  - (* the input worker *)
    destruct Hwin as [Hoks Hwin].
    simpl in Hstep.
    destruct (input_message_effect message (world s)) as (w' & Hin & Hiq & Hcase).
    unfold exec in Hstep. rewrite Hin in Hstep. simpl in Hstep.
    injection Hstep as <-. split; [done|].
    destruct Hcase as [(Hf & Hp & Hq)|(tname & wfs0 & -> & Hne & Hnone & Hf & Hp & Hq)].
    + assert (track_writes (InputStep message) s {| world := w'; workers := workers s |} g = g
              /\ track_windows (InputStep message) s {| world := w'; workers := workers s |} h
                 = h) as [-> ->].
      { destruct message as [tname [wfs0|]|]; [|done..]. simpl. rewrite Hf.
        by destruct (m_features_by_id (world s) !! tname). }
      intros n slots Hn. simpl in Hn. rewrite Hf in Hn.
      destruct (Hwin n slots Hn) as (wfs0 & wr & ? & ? & ? & ? & ? & Hfresh & Hdone).
      exists wfs0, wr. do 5 (split; [done|]). split.
      * intros wf' Hwf'. apply Hfresh. apply unflushed_elem in Hwf'. apply unflushed_elem.
        simpl in Hwf'. by rewrite Hq in Hwf'.
      * intros wf' Hwf'. apply Hdone. simpl in Hwf'. by rewrite Hiq in Hwf'.
    + simpl. rewrite Hnone, Hf, lookup_insert_eq.
      destruct Hwf as [_ Hwf].
      assert (forall wf', wf' ∈ in_flight s -> read_name wf' <> tname) as Hfree.
      { intros wf' Hold Hname. apply in_flight_slot in Hold. rewrite Hname in Hold.
        specialize (Hinv tname). rewrite Hnone in Hinv.
        destruct Hinv as (_ & _ & Hnil). rewrite Hnil in Hold.
        by apply elem_of_nil in Hold. }
      intros n slots Hn.
      destruct (decide (n = tname)) as [->|Hother].
      * rewrite lookup_insert_eq in Hn. injection Hn as <-.
        exists wfs0, (initial_writes wfs0). rewrite !lookup_insert_eq.
        do 2 (split; [done|]).
        split; [unfold initial_slots; by rewrite length_fmap|].
        split; [|split; [|split]].
        -- intros j wf0 Hj Htriv.
           destruct (initial_writes_lookup _ _ _ Hj) as [-> _]. by rewrite Htriv.
        -- intros j wf0 slot Hj Hone Hslot.
           destruct (initial_writes_lookup _ _ _ Hj) as [Hw Hs].
           rewrite Hw in Hone. rewrite Hs in Hslot. unfold slot_decoded.
           destruct (needs_inference wf0); [done|]. by injection Hslot as <-.
        -- intros wf' Hwf' Hname. apply unflushed_elem in Hwf'. simpl in Hwf'.
           rewrite Hq, elem_of_app in Hwf'.
           destruct Hwf' as [[Hold|Hnew]|Hold].
           ++ exfalso. apply (Hfree wf'); [|done]. apply in_flight_elem. by left.
           ++ apply list_elem_of_filter in Hnew as [_ Hnew].
              apply list_elem_of_lookup in Hnew as [j Hj].
              destruct (Hwf j wf' Hj) as [_ Hidx]. by exists j.
           ++ exfalso. apply (Hfree wf'); [|done]. apply in_flight_elem. right. by left.
        -- intros wf' Hwf' Hname. simpl in Hwf'. rewrite Hiq in Hwf'.
           exfalso. apply (Hfree wf'); [|done]. apply in_flight_elem. right. by right.
      * rewrite lookup_insert_ne in Hn by done.
        destruct (Hwin n slots Hn) as (wfs1 & wr & ? & ? & ? & ? & ? & Hfresh & Hdone).
        exists wfs1, wr. rewrite !lookup_insert_ne by done.
        do 5 (split; [done|]). split.
        -- intros wf' Hwf' Hname. apply Hfresh; [|done].
           apply unflushed_elem in Hwf'. simpl in Hwf'.
           rewrite Hq, elem_of_app in Hwf'. apply unflushed_elem.
           destruct Hwf' as [[?|Hnew]|?]; [by left| |by right].
           exfalso. apply list_elem_of_filter in Hnew as [_ Hnew].
           apply list_elem_of_lookup in Hnew as [j Hj].
           destruct (Hwf j wf' Hj) as [Hname' _]. congruence.
        -- intros wf' Hwf' Hname. apply Hdone; [|done]. simpl in Hwf'. by rewrite Hiq in Hwf'.
  - (* an inference worker takes a window *)
    by apply (infer_step_windows (InferPop i k) s s' evs g h I Hstep).
  - (* an inference worker flushes *)
    by apply (infer_step_windows (InferFlush i) s s' evs g h I Hstep).
  - (* a decode worker takes a window *)
    destruct Hwin as [Hoks Hwin].
    simpl in Hstep.
    destruct (m_inferred_features_queue (world s) !! k) as [item|] eqn:Hk; [|done].
    simpl in Hstep. unfold exec in Hstep.
    destruct (decode_iteration _ _) as [[[]| |] w'] eqn:Hdec; [|done..].
    simpl in Hstep. injection Hstep as <-. split; [done|].
    apply decode_iteration_effect in Hdec as (Hq & Hiq & Hcase).
    simpl in Hq, Hiq, Hcase.
    assert (item ∈ m_inferred_features_queue (world s)) as Hitem
      by (by eapply list_elem_of_lookup_2).
    assert (forall wf', wf' ∈ unflushed {| world := w'; workers := workers s |} ->
                        wf' ∈ unflushed s) as Hsub.
    { intros wf' Hwf'. apply unflushed_elem in Hwf'. apply unflushed_elem.
      simpl in Hwf'. by rewrite Hq in Hwf'. }
    assert (forall wf', wf' ∈ m_inferred_features_queue w' ->
                        wf' ∈ m_inferred_features_queue (world s)) as Hsubq.
    { intros wf' Hwf'. rewrite Hiq in Hwf'. by eapply list_elem_of_delete_inv. }
    unfold sys_inv in Hinv. rewrite flight_keys_unfold in Hinv.
    assert (tracker_inv (m_features_by_id (world s)) (m_pending_features_by_id (world s)) g
              ((read_name item, window_idx item) ::
               (key <$> m_features_queue (world s)) ++ worker_keys (workers s) ++
               (key <$> delete k (m_inferred_features_queue (world s))))) as Hinv'.
    { eapply tracker_inv_perm; [|exact Hinv].
      rewrite (delete_Permutation _ _ _ Hk) at 1. rewrite fmap_cons.
      unfold key at 2. solve_Permutation. }
    destruct (tracker_inv_decode _ _ _ _ _ _ Hinv')
      as (slots0 & pending & wr & pos & Hf & Hp & Hg & Hpos & Hwr & Hlt & Hr & _).
    rewrite Hf in Hcase.
    destruct Hcase as (pending' & pos' & Hp' & Hpos' & _ & _ & Hw').
    rewrite Hp in Hp'. injection Hp' as <-.
    assert (pos' = pos) as -> by lia.
    simpl. rewrite Hk, Hf. simpl in Hw'.
    destruct (Hwin _ _ Hf) as (wfs0 & wr0 & Hh & Hg0 & Hlen & Htriv & Hdone & Hfresh & Hqueued).
    rewrite Hg in Hg0. injection Hg0 as <-.
    destruct (decide (pending - 1 = 0)) as [Hzero|Hnzero]; subst w'; simpl.
    + rewrite lookup_delete_eq.
      intros n slots Hn. simpl in Hn.
      destruct (decide (n = read_name item)) as [->|Hother];
        [by rewrite lookup_delete_eq in Hn|].
      rewrite lookup_delete_ne in Hn by done.
      destruct (Hwin n slots Hn) as (wfs1 & wr1 & ? & ? & ? & ? & ? & Hfresh1 & Hqueued1).
      exists wfs1, wr1. rewrite !lookup_delete_ne by done.
      do 5 (split; [done|]). split.
      * intros wf' Hwf'. by apply Hfresh1, Hsub.
      * intros wf' Hwf'. by apply Hqueued1, Hsubq.
    + rewrite lookup_insert_eq.
      rewrite Hpos, Nat2Z.id. rewrite (alter_bump_slot _ _ _ _ Hg Hwr).
      intros n slots Hn. simpl in Hn.
      destruct (decide (n = read_name item)) as [->|Hother].
      * rewrite lookup_insert_eq in Hn. injection Hn as <-.
        exists wfs0, (<[pos := 1%nat]> wr). rewrite lookup_insert_eq.
        do 2 (split; [done|]). split; [by rewrite length_insert|].
        destruct (Hqueued item Hitem eq_refl) as (j & wf0 & Hj & Hwf0 & Hrel).
        assert (j = pos) as -> by lia.
        split; [|split; [|split]].
        -- intros j wf1 Hj1 Ht. destruct (decide (j = pos)) as [->|Hjp].
           ++ rewrite list_lookup_insert_eq; [done|]. by eapply lookup_lt_Some.
           ++ rewrite list_lookup_insert_ne by done. by eapply Htriv.
        -- intros j wf1 slot Hj1 Hone Hslot. destruct (decide (j = pos)) as [->|Hjp].
           ++ rewrite list_lookup_insert_eq in Hslot by done. injection Hslot as <-.
              rewrite Hwf0 in Hj1. injection Hj1 as <-. unfold slot_decoded.
              destruct (needs_inference wf0) eqn:Hneeds; [by exists item|].
              specialize (Htriv pos wf0 Hwf0 Hneeds). congruence.
           ++ rewrite list_lookup_insert_ne in Hslot by done.
              rewrite list_lookup_insert_ne in Hone by done.
              by eapply Hdone.
        -- intros wf' Hwf'. by apply Hfresh, Hsub.
        -- intros wf' Hwf'. by apply Hqueued, Hsubq.
      * rewrite lookup_insert_ne in Hn by done.
        destruct (Hwin n slots Hn) as (wfs1 & wr1 & ? & ? & ? & ? & ? & Hfresh1 & Hqueued1).
        exists wfs1, wr1. rewrite !lookup_insert_ne by done.
        do 5 (split; [done|]). split.
        -- intros wf' Hwf'. by apply Hfresh1, Hsub.
        -- intros wf' Hwf'. by apply Hqueued1, Hsubq.
Qed.

Lemma sys_step_windows l s s' g h :
  wf_label l -> sys_step l s = Some s' -> sys_inv s g -> windows_inv s g h ->
  windows_inv s' (track_writes l s s' g) (track_windows l s s' h).
Proof.
  intros Hwf Hstep Hinv Hwin. unfold windows_inv in *.
  apply sys_step_windows_at; [done..|].
  eapply windows_inv_at_mono; [|exact Hwin].
  intros e. apply (sys_step_events l s s' e); [|done]. by destruct Hwin.
Qed.

Lemma init_sys_windows cfgs : windows_inv (init_sys cfgs) ∅ ∅.
Proof.
  split.
  - simpl. apply Forall_fmap, Forall_forall. intros c _. apply new_batcher_ok.
  - intros n slots Hn. simpl in Hn. by rewrite lookup_empty in Hn.
Qed.

Lemma run_traced_inv ls s0 g0 h0 s g h :
  Forall wf_label ls -> run_traced ls s0 g0 h0 = Some (s, g, h) ->
  sys_inv s0 g0 -> windows_inv s0 g0 h0 ->
  sys_inv s g /\ windows_inv s g h.
Proof.
  intros Hwf. revert s0 g0 h0. induction Hwf as [|l ls Hl _ IH]; intros s0 g0 h0; simpl.
  - by intros [= -> -> ->].
  - destruct (sys_step l s0) as [s1|] eqn:Hstep; [|done]. simpl.
    intros Hrun Hinv Hwin. eapply IH; [done|by apply sys_step_inv|by apply sys_step_windows].
Qed.

Lemma run_traced_origin ls s0 g0 h0 s g h n wfs0 :
  run_traced ls s0 g0 h0 = Some (s, g, h) ->
  h !! n = Some wfs0 ->
  h0 !! n = Some wfs0 \/ InputStep (CorrectionAlignments n (Some wfs0)) ∈ ls.
Proof.
  revert s0 g0 h0. induction ls as [|l ls IH]; intros s0 g0 h0; simpl.
  - intros [= -> -> ->]. by left.
  - destruct (sys_step l s0) as [s1|] eqn:Hstep; [|done]. simpl.
    intros Hrun Hn. destruct (IH _ _ _ Hrun Hn) as [Hh|Hin].
    2:{ right. by apply list_elem_of_further. }
    destruct l as [[tname [wfs1|]|]|i k|i|k]; simpl in Hh; try (by left).
    + destruct (m_features_by_id (world s0) !! tname),
               (m_features_by_id (world s1) !! tname); try (by left).
      destruct (decide (n = tname)) as [->|Hother].
      * rewrite lookup_insert_eq in Hh. injection Hh as ->. right. apply list_elem_of_here.
      * rewrite lookup_insert_ne in Hh by done. by left.
    + destruct (m_inferred_features_queue (world s0) !! k) as [item|]; [|by left].
      destruct (m_features_by_id (world s0) !! read_name item),
               (m_features_by_id (world s1) !! read_name item); try (by left).
      destruct (decide (n = read_name item)) as [->|Hother].
      * by rewrite lookup_delete_eq in Hh.
      * rewrite lookup_delete_ne in Hh by done. by left.
Qed.


(** ** A flush that fails, an index that cannot be built *)

Lemma forward_with_retry_returned inputs output w :
  module_forward (forward_calls w) inputs = Returned output ->
  exists w', forward_with_retry inputs w = (Ok output, w').
Proof.
  intros Hfw. unfold forward_with_retry, call_forward. munfold. simpl.
  rewrite Hfw. by eexists.
Qed.

(** X28.  A flush that does not return delivers nothing: whether it ends
    by an exception or by an access outside a vector, no window of the
    batch has reached the decode queue, and the maps, the input queue and
    the sink are as before.  A result of the model that is no tuple ends it
    by ["Expected inference result to be tuple."]; a tuple of fewer than
    two elements makes [elements()[1]] an access outside the vector. *)
Theorem failed_flush_delivers_nothing device batch_size b w :
  match batch_infer device batch_size b w with
  | (Ok _, _) => True
  | (_, w') =>
      m_inferred_features_queue w' = m_inferred_features_queue w /\
      m_features_queue w' = m_features_queue w /\
      m_features_by_id w' = m_features_by_id w /\
      m_pending_features_by_id w' = m_pending_features_by_id w /\
      sink w' = sink w
  end /\
  (module_forward (forward_calls w) (batch_inputs device b) = Returned IVOther ->
     (batch_infer device batch_size b w).1
     = Throw (RuntimeError "Expected inference result to be tuple.")) /\
  (forall elements,
     module_forward (forward_calls w) (batch_inputs device b) = Returned (IVTuple elements) ->
     (length elements <= 1)%nat ->
     (batch_infer device batch_size b w).1 = Undefined).
Proof.
  rewrite batch_infer_unfold. set (w0 := set_events _ w).
  pose proof (forward_with_retry_frame (batch_inputs device b) w0) as Hf.
  split; [|split].
  - destruct (forward_with_retry (batch_inputs device b) w0) as [[output| |] w1] eqn:Hfw;
      simpl in Hf; destruct Hf as (Hf1 & Hf2 & Hf3 & Hf4 & Hf5).
    + rewrite (bind_ok _ _ _ _ _ Hfw).
      destruct output as [elements|]; [|done]. munfold.
      destruct (elements !! 1%nat); simpl; [|done].
      destruct (split_with_sizes _ _); simpl; [|done].
      destruct (assign_inferred _ _ _) as [wfs'|]; simpl; [|done].
      by rewrite for_each_push_inferred.
    + by rewrite (bind_throw _ _ _ _ _ Hfw).
    + by rewrite (bind_undefined _ _ _ _ Hfw).
  - intros Hret.
    destruct (forward_with_retry_returned (batch_inputs device b) IVOther w0 Hret)
      as [w1 Hfw].
    by rewrite (bind_ok _ _ _ _ _ Hfw).
  - intros elements Hret Hlen.
    destruct (forward_with_retry_returned (batch_inputs device b) (IVTuple elements) w0 Hret)
      as [w1 Hfw].
    rewrite (bind_ok _ _ _ _ _ Hfw). munfold.
    by rewrite lookup_ge_None_2 by lia.
Qed.

Lemma select_devices_message device infer_threads e :
  select_devices device infer_threads = inl e -> e <> RuntimeError EmptyString.
Proof.
  unfold select_devices. destruct (decide _); [done|].
  destruct DORADO_CUDA_BUILD.
  - destruct (starts_with device "cuda"); [|done].
    destruct (parse_cuda_device_string device); [|done]. by intros [= <-].
  - intros [= <-]. rewrite append_cons. discriminate.
Qed.

Lemma construct_thrown_message fastq device infer_threads batch_size index_exists fai_build :
  let c := construct fastq device infer_threads batch_size index_exists fai_build in
  ending c <> Propagated (RuntimeError EmptyString).
Proof.
  intros c. subst c. unfold construct.
  destruct (select_devices device infer_threads) as [e|[devices n]] eqn:Hsel.
  { apply select_devices_message in Hsel. unfold ending. simpl. congruence. }
  destruct (decide (batch_size = 0)) as [->|Hbs].
  - pose proof (spawn_infer_threads_auto devices 0 n [] 0 eq_refl) as Hspawn.
    destruct (spawn_infer_threads devices 0 n 0 [] 0) as [[made calls] [e|]].
    + destruct Hspawn as (_ & _ & dev & _ & _ & ->); [done|].
      unfold ending. simpl. destruct made; [|done].
      rewrite append_cons. discriminate.
    + destruct (negb index_exists && negb (bool_decide (fai_build = 0)));
        unfold ending; simpl; [by destruct made|done].
  - rewrite spawn_infer_threads_fixed by done. simpl app.
    destruct (negb index_exists && negb (bool_decide (fai_build = 0)));
      unfold ending; simpl; [|done].
    by destruct (concat _).
Qed.

(** X29.  An index that is missing and cannot be built ends the
    construction, but not by an exception that the caller could catch.
    When the devices and the batch sizes were in order, the inference
    threads and the four decode threads have been started by the time the
    error line is logged and the exception with the empty message is
    thrown; the input threads are not started; and since the threads are
    destroyed while joinable, the process is terminated.  When they were
    not in order, the earlier failure is the one that shows.  No
    construction hands the exception with the empty message to its caller.
    With the index in place [fai_build] is not consulted. *)
Theorem index_failure_ends_construction fastq device infer_threads batch_size fai_build
    (Hfail : fai_build <> 0) :
  let c := construct fastq device infer_threads batch_size false fai_build in
  let c' := construct fastq device infer_threads batch_size true fai_build in
  (c_thrown c' = None ->
     ending c' = Constructed /\ c_log c' = [] /\ c_input_started c' = true /\
     c_decode_threads c' = 4%nat /\
     c_thrown c = Some (RuntimeError EmptyString) /\
     c_log c = [LogError ("Failed to build index for file " +:+ fastq)] /\
     c_input_started c = false /\
     c_decode_threads c = 4%nat /\
     c_infer_threads c = c_infer_threads c' /\
     c_batch_size_calls c = c_batch_size_calls c' /\
     ending c = ProcessTerminated) /\
  (c_thrown c' <> None -> c = c') /\
  (forall index_exists fb,
     ending (construct fastq device infer_threads batch_size index_exists fb)
     <> Propagated (RuntimeError EmptyString)) /\
  (forall fb, construct fastq device infer_threads batch_size true fb = c').
Proof.
  intros c c'. split; [|split; [|split]].
  - subst c c'. unfold construct.
    destruct (select_devices device infer_threads) as [e|[devices n]]; [done|].
    destruct (spawn_infer_threads devices 0 n batch_size [] 0) as [[made calls] [e|]]; [done|].
    simpl. rewrite bool_decide_eq_false_2 by done. simpl. intros _.
    unfold ending. simpl. do 10 (split; [done|]). by destruct made.
  - subst c c'. unfold construct.
    destruct (select_devices device infer_threads) as [e|[devices n]]; [done|].
    destruct (spawn_infer_threads devices 0 n batch_size [] 0) as [[made calls] [e|]]; [done|].
    simpl. done.
  - intros index_exists fb. apply construct_thrown_message.
  - intros fb. subst c'. unfold construct.
    destruct (select_devices device infer_threads) as [e|[devices n]]; [done|].
    by destruct (spawn_infer_threads devices 0 n batch_size [] 0) as [[made calls] [e|]].
Qed.

(** ** The node, access by access *)

Lemma concat_fmap_insert {A T} (f : A -> list T) (l : list A) (i : nat) (x y : A) :
  l !! i = Some x ->
  concat (f <$> <[i := y]> l) ++ f x ≡ₚ concat (f <$> l) ++ f y.
Proof.
  revert i. induction l as [|z l IH]; intros i Hi; [done|].
  destruct i as [|i]; simpl in *.
  - injection Hi as ->. solve_Permutation.
  - rewrite <- !app_assoc. by rewrite (IH i Hi).
Qed.

Lemma fmap_concat_fmap {A T U} (g : T -> U) (f : A -> list T) (l : list A) :
  g <$> concat (f <$> l) = concat ((fun x => g <$> f x) <$> l).
Proof.
  induction l as [|x l IH]; [done|]. rewrite !fmap_cons. simpl. by rewrite fmap_app, IH.
Qed.

Lemma perm_swap {T} (A A' x y R R' : list T) :
  A' ++ x ≡ₚ A ++ y -> R' ++ y ≡ₚ R ++ x -> A' ++ R' ≡ₚ A ++ R.
Proof.
  intros HA HR. apply (inj (.++ (x ++ y))).
  transitivity ((A' ++ x) ++ (R' ++ y)); [solve_Permutation|].
  rewrite HA, HR. solve_Permutation.
Qed.

Lemma count_where_insert {A} (f : A -> bool) (l : list A) (i : nat) (x y : A) :
  l !! i = Some x ->
  (count_where f (<[i := y]> l) + (if f x then 1 else 0)
   = count_where f l + (if f y then 1 else 0))%nat.
Proof.
  unfold count_where. revert i. induction l as [|z l IH]; intros i Hi; [done|].
  destruct i as [|i]; simpl in Hi.
  - injection Hi as ->. simpl. rewrite !filter_cons.
    destruct (f x), (f y); simpl;
      repeat (destruct (decide _); try done); simpl; lia.
  - simpl. rewrite !filter_cons. specialize (IH i Hi).
    destruct (decide (f z = true)); simpl; lia.
Qed.

Lemma input_enter_effect message w :
  exists ph w', input_enter message w = (Ok ph, w') /\
    m_features_queue w' = m_features_queue w /\
    m_inferred_features_queue w' = m_inferred_features_queue w /\
    ((m_features_by_id w' = m_features_by_id w /\
      m_pending_features_by_id w' = m_pending_features_by_id w /\
      waiting ph = []) \/
     (exists tname wfs,
        message = CorrectionAlignments tname (Some wfs) /\
        to_infer wfs <> [] /\
        m_features_by_id w !! tname = None /\
        m_features_by_id w' = <[tname := initial_slots wfs]> (m_features_by_id w) /\
        m_pending_features_by_id w'
          = umap_insert tname (to_int (Z.of_nat (length (to_infer wfs))))
                        (m_pending_features_by_id w) /\
        ph = Pushing (to_infer wfs))).
Proof.
  destruct message as [tname [wfs|]|payload]; simpl.
  - rewrite sort_windows_initial.
    destruct (to_infer wfs) as [|x l] eqn:Hti.
    + unfold bump_early_reads. munfold. simpl. eexists _, _. split; [done|].
      simpl. do 2 (split; [done|]). by left.
    + rewrite <- Hti. munfold. simpl.
      destruct (m_features_by_id w !! tname) eqn:Hf; simpl.
      * eexists _, _. split; [done|]. simpl. do 2 (split; [done|]). by left.
      * eexists _, _. split; [done|]. simpl. do 2 (split; [done|]). right.
        exists tname, wfs. rewrite Hti. repeat split; try done.
        unfold umap_insert. by rewrite Hf.
  - eexists _, _. split; [done|]. do 2 (split; [done|]). by left.
  - eexists _, _. split; [done|]. do 2 (split; [done|]). by left.
Qed.

Lemma input_resume_effect ph c w :
  input_resume ph = Some c ->
  exists ph' w', c w = (Ok ph', w') /\
    m_features_by_id w' = m_features_by_id w /\
    m_pending_features_by_id w' = m_pending_features_by_id w /\
    m_inferred_features_queue w' = m_inferred_features_queue w /\
    m_features_queue w' ++ waiting ph' = m_features_queue w ++ waiting ph.
Proof.
  destruct ph as [|corrected_seqs tname|[|wf rest]]; simpl; [done|..]; intros [= <-].
  - munfold. rewrite concat_features_and_send_run. simpl. by eexists _, _.
  - unfold bump_reads. munfold. simpl. by eexists _, _.
  - unfold push_features. munfold. simpl. eexists _, _. split; [done|]. simpl.
    do 3 (split; [done|]). by rewrite <- app_assoc.
Qed.

Lemma collect_infer_on_item device batch_size item b w b' out w' :
  collect (infer_on_item device batch_size item b) w = Some (b', out, w') ->
  m_features_by_id w' = m_features_by_id w /\
  m_pending_features_by_id w' = m_pending_features_by_id w /\
  m_features_queue w' = m_features_queue w /\
  m_inferred_features_queue w' = m_inferred_features_queue w /\
  num_reads w' = num_reads w /\
  num_early_reads w' = num_early_reads w /\
  concat_calls (events w') = concat_calls (events w) /\
  (key <$> out) ++ (key <$> wfs b') = (key <$> wfs b) ++ [key item].
Proof.
  unfold collect.
  destruct (infer_on_item _ _ _ _ _) as [[b1| |] w1] eqn:Hit; [|done..].
  intros [= <- <- <-].
  pose proof (infer_on_item_effect _ _ _ _ _ _ _ Hit) as (Hf & Hp & Hq & moved & Hiq & Hk).
  pose proof (infer_on_item_quiet _ _ _ _ _ _ _ Hit) as (_ & Hr & He & Hc).
  simpl in *. rewrite Hiq. done.
Qed.

Lemma collect_flush_if_any device batch_size b w b' out w' :
  collect (flush_if_any device batch_size b) w = Some (b', out, w') ->
  m_features_by_id w' = m_features_by_id w /\
  m_pending_features_by_id w' = m_pending_features_by_id w /\
  m_features_queue w' = m_features_queue w /\
  m_inferred_features_queue w' = m_inferred_features_queue w /\
  num_reads w' = num_reads w /\
  num_early_reads w' = num_early_reads w /\
  concat_calls (events w') = concat_calls (events w) /\
  (key <$> out) ++ (key <$> wfs b') = key <$> wfs b.
Proof.
  unfold collect.
  destruct (flush_if_any _ _ _ _) as [[b1| |] w1] eqn:Hfl; [|done..].
  intros [= <- <- <-].
  pose proof (flush_if_any_effect _ _ _ _ _ _ Hfl) as (Hf & Hp & Hq & moved & Hiq & Hk).
  pose proof (flush_if_any_quiet _ _ _ _ _ _ Hfl) as (_ & Hr & He & Hc).
  simpl in *. rewrite Hiq. done.
Qed.

(** The critical section of the decode worker, when it returns: it only
    logged, or it completed the read and erased both entries, or it
    updated both entries. *)
Lemma decode_locked_effect item w to_decode w' :
  decode_locked item w = (Ok to_decode, w') ->
  let n := read_name item in
  match m_features_by_id w !! n with
  | None =>
      to_decode = [] /\
      w' = set_events (events w ++ [LogError ("Decoded feature list not found for " +:+ n +:+ ".")]) w
  | Some slots =>
      exists pending (pos : nat),
        m_pending_features_by_id w !! n = Some pending /\
        window_idx item = Z.of_nat pos /\ (pos < length slots)%nat /\
        pending <> INT_MIN /\
        let slots' := <[pos := decode_window item]> slots in
        if decide (pending - 1 = 0) then
          to_decode = slots' /\
          w' = set_maps (delete n (m_features_by_id w))
                        (delete n (m_pending_features_by_id w)) w
        else
          to_decode = [] /\
          w' = set_maps (<[n := slots']> (m_features_by_id w))
                        (<[n := pending - 1]> (m_pending_features_by_id w)) w
  end.
Proof.
  unfold decode_locked. munfold. simpl.
  destruct (m_features_by_id w !! read_name item) as [slots|] eqn:Hf; simpl.
  2:{ by intros [= <- <-]. }
  destruct (decide (0 <= window_idx item < Z.of_nat (length slots))) as [Hr|]; [|done].
  destruct (m_pending_features_by_id w !! read_name item) as [pending|] eqn:Hp;
    simpl; [|done].
  destruct (decide (pending = INT_MIN)); [done|].
  destruct (decide (pending - 1 = 0)) as [Hz|Hz]; simpl; intros [= <- <-];
    exists pending, (Z.to_nat (window_idx item));
    (split; [done|]); (split; [lia|]); (split; [lia|]); (split; [done|]); simpl.
  - by rewrite decide_True by done.
  - by rewrite decide_False by done.
Qed.

(** An iteration of the input worker is its first access followed by the
    rest, and the rest is the next access followed by the rest. *)
Lemma input_message_by_access message w :
  input_message message w = (ph ← input_enter message; input_rest ph) w.
Proof.
  destruct message as [tname [wfs0|]|payload]; simpl; [|done..].
  destruct (sort_windows _ _ _ _) as [corrected_seqs [|wf0 rest]].
  - done.
  - munfold. simpl. by destruct (m_features_by_id w !! tname).
Qed.

Lemma input_rest_by_access ph c w :
  input_resume ph = Some c -> input_rest ph w = (ph' ← c; input_rest ph') w.
Proof.
  destruct ph as [|corrected_seqs tname|[|wf0 rest]]; simpl; [done|..]; intros [= <-].
  - munfold. by destruct (concat_features_and_send corrected_seqs tname w) as [[[]| |] w'].
  - munfold. unfold bump_reads. munfold. done.
  - munfold. unfold push_features. munfold. done.
Qed.

(** An iteration of the decode worker is its critical section followed by
    the call of [concat_features_and_send], when there is something to
    send. *)
Lemma decode_iteration_by_access item w :
  decode_iteration item w
  = (to_decode ← decode_locked item;
     match to_decode with
     | [] => mret tt
     | _ :: _ => concat_features_and_send to_decode (read_name item)
     end) w.
Proof.
  unfold decode_iteration, decode_locked. munfold. simpl.
  destruct (m_features_by_id w !! read_name item) as [slots|]; simpl; [|done].
  destruct (decide _); [|done].
  destruct (m_pending_features_by_id w !! read_name item) as [pending|]; simpl; [|done].
  destruct (decide (pending = INT_MIN)); [done|].
  destruct (decide (pending - 1 = 0)); simpl; [|done].
  by destruct (<[_ := _]> slots).
Qed.

(** ** A flush and its pushes

    What a flush does is the same whatever the inferred queue holds, but
    for the windows it appends to it: so a flush taken in one go is the
    flush up to its pushes ([collect]) followed by the pushes. *)

Lemma forward_with_retry_queue inputs q w :
  forward_with_retry inputs (set_inferred_features_queue q w)
  = ((forward_with_retry inputs w).1,
     set_inferred_features_queue q (forward_with_retry inputs w).2).
Proof.
  unfold forward_with_retry, call_forward. munfold. simpl.
  destruct (module_forward (forward_calls w) inputs); simpl; [done| |done].
  destruct DORADO_CUDA_BUILD; simpl; [|done].
  by destruct (module_forward (S _) _).
Qed.

Lemma batch_infer_queue device batch_size b q w :
  batch_infer device batch_size b (set_inferred_features_queue q w)
  = match batch_infer device batch_size b (set_inferred_features_queue [] w) with
    | (r, w') => (r, set_inferred_features_queue (q ++ m_inferred_features_queue w') w')
    end.
Proof.
  rewrite !batch_infer_unfold.
  change (set_events (events (set_inferred_features_queue q w) ++ [CallBatchInfer (wfs b)])
            (set_inferred_features_queue q w))
    with (set_inferred_features_queue q (set_events (events w ++ [CallBatchInfer (wfs b)]) w)).
  change (set_events (events (set_inferred_features_queue [] w) ++ [CallBatchInfer (wfs b)])
            (set_inferred_features_queue [] w))
    with (set_inferred_features_queue [] (set_events (events w ++ [CallBatchInfer (wfs b)]) w)).
  set (w0 := set_events _ w).
  pose proof (forward_with_retry_queue (batch_inputs device b) q w0) as Hq.
  pose proof (forward_with_retry_queue (batch_inputs device b) [] w0) as H0.
  destruct (forward_with_retry (batch_inputs device b) w0) as [[output| |] w1];
    simpl in Hq, H0.
  - rewrite (bind_ok _ _ _ _ _ Hq), (bind_ok _ _ _ _ _ H0).
    destruct output as [elements|]; simpl; [|by rewrite app_nil_r]. munfold.
    destruct (elements !! 1%nat); simpl; [|by rewrite app_nil_r].
    destruct (split_with_sizes _ _); simpl; [|by rewrite app_nil_r].
    destruct (assign_inferred _ _ _) as [wfs'|]; simpl; [|by rewrite app_nil_r].
    rewrite !for_each_push_inferred. simpl. done.
  - rewrite (bind_throw _ _ _ _ _ Hq), (bind_throw _ _ _ _ _ H0). simpl.
    by rewrite app_nil_r.
  - rewrite (bind_undefined _ _ _ _ Hq), (bind_undefined _ _ _ _ H0). simpl.
    by rewrite app_nil_r.
Qed.

(** For the two computations of an inference worker that may flush,
    [collect] followed by the pushes is the computation in one go. *)
Lemma collect_infer_on_item_pushes device batch_size item b w b' out w' :
  collect (infer_on_item device batch_size item b) w = Some (b', out, w') ->
  infer_on_item device batch_size item b w
  = (Ok b', set_inferred_features_queue (m_inferred_features_queue w ++ out) w').
Proof.
  unfold collect, infer_on_item.
  destruct (required_batch_slots item) as [required|]; [|done].
  munfold. simpl. destruct (decide _).
  - replace w with (set_inferred_features_queue (m_inferred_features_queue w) w) at 2
      by (by destruct w).
    rewrite (batch_infer_queue device batch_size b (m_inferred_features_queue w) w).
    destruct (batch_infer device batch_size b (set_inferred_features_queue [] w))
      as [[b1| |] w1]; [|done..].
    simpl. by intros [= <- <- <-].
  - intros [= <- <- <-]. simpl. rewrite app_nil_r. by destruct w.
Qed.

Lemma collect_flush_if_any_pushes device batch_size b w b' out w' :
  collect (flush_if_any device batch_size b) w = Some (b', out, w') ->
  flush_if_any device batch_size b w
  = (Ok b', set_inferred_features_queue (m_inferred_features_queue w ++ out) w').
Proof.
  unfold collect, flush_if_any. destruct (decide _).
  - replace w with (set_inferred_features_queue (m_inferred_features_queue w) w) at 2
      by (by destruct w).
    rewrite (batch_infer_queue device batch_size b (m_inferred_features_queue w) w).
    destruct (batch_infer device batch_size b (set_inferred_features_queue [] w))
      as [[b1| |] w1]; [|done..].
    simpl. by intros [= <- <- <-].
  - intros [= <- <- <-]. simpl. rewrite app_nil_r. by destruct w.
Qed.

(** ** Pending records and windows on the way *)

Lemma on_the_way_keys s :
  key <$> on_the_way s
  = concat ((fun ph => key <$> waiting ph) <$> input_workers s)
    ++ (key <$> m_features_queue (shared s))
    ++ concat ((fun iw => key <$> held iw) <$> infer_workers s)
    ++ (key <$> m_inferred_features_queue (shared s))
    ++ concat ((fun ph => key <$> taken ph) <$> decode_workers s).
Proof. unfold on_the_way. by rewrite !fmap_app, !fmap_concat_fmap. Qed.

Lemma perm_at1 {T} (A A' x y S L : list T) :
  A' ++ x ≡ₚ A ++ y -> L ++ x ≡ₚ (A ++ y) ++ S -> L ≡ₚ A' ++ S.
Proof. intros HA HL. apply (inj (.++ x)). rewrite HL, <- HA. solve_Permutation. Qed.

Lemma perm_at3 {T} (A A' x y P1 P2 S L : list T) :
  A' ++ x ≡ₚ A ++ y -> L ++ x ≡ₚ P1 ++ P2 ++ (A ++ y) ++ S -> L ≡ₚ P1 ++ P2 ++ A' ++ S.
Proof. intros HA HL. apply (inj (.++ x)). rewrite HL, <- HA. solve_Permutation. Qed.

Lemma perm_at5 {T} (A A' x y P1 P2 P3 P4 L : list T) :
  A' ++ x ≡ₚ A ++ y -> L ++ x ≡ₚ P1 ++ P2 ++ P3 ++ P4 ++ (A ++ y) ->
  L ≡ₚ P1 ++ P2 ++ P3 ++ P4 ++ A'.
Proof. intros HA HL. apply (inj (.++ x)). rewrite HL, <- HA. solve_Permutation. Qed.

(** Every access keeps the records and the windows on the way in step. *)
Lemma access_inv a s s' :
  wf_access a -> access a s = Some s' -> node_inv s -> node_inv s'.
Proof.
  intros Hwf Hstep [g Hinv]. unfold node_inv.
  rewrite on_the_way_keys in Hinv. rewrite on_the_way_keys.
  destruct a as [i message|i|i|i|i|j]; simpl in Hstep.
  - (* an input worker takes a message *)
    destruct (input_workers s !! i) as [ph|] eqn:Hph; [|done]. simpl in Hstep.
    destruct ph; try done.
    destruct (input_enter_effect message (shared s)) as (ph' & w' & Hrun & Hq & Hiq & Hcase).
    unfold exec in Hstep. rewrite Hrun in Hstep. simpl in Hstep. injection Hstep as <-.
    simpl.
    pose proof (concat_fmap_insert (fun ph => key <$> waiting ph) _ i AtMessage ph' Hph) as HI.
    destruct Hcase as [(Hf & Hp & Hw)|(tname & wfs0 & -> & Hne & Hnone & Hf & Hp & ->)].
    + exists g. rewrite Hf, Hp, Hq, Hiq. eapply tracker_inv_perm; [|exact Hinv].
      eapply perm_at1; [exact HI|]. rewrite Hw. simpl. solve_Permutation.
    + exists (<[tname := initial_writes wfs0]> g). rewrite Hf, Hp, Hq, Hiq.
      eapply tracker_inv_perm; [|by apply tracker_inv_accept].
      eapply perm_at1; [exact HI|]. simpl. solve_Permutation.
  - (* an input worker goes on *)
    destruct (input_workers s !! i) as [ph|] eqn:Hph; [|done]. simpl in Hstep.
    destruct (input_resume ph) as [c|] eqn:Hc; [|done]. simpl in Hstep.
    destruct (input_resume_effect ph c (shared s) Hc) as (ph' & w' & Hrun & Hf & Hp & Hiq & Hq).
    unfold exec in Hstep. rewrite Hrun in Hstep. simpl in Hstep. injection Hstep as <-.
    simpl.
    pose proof (concat_fmap_insert (fun ph => key <$> waiting ph) _ i ph ph' Hph) as HI.
    apply (f_equal (fmap key)) in Hq. rewrite !fmap_app in Hq.
    exists g. rewrite Hf, Hp, Hiq. eapply tracker_inv_perm; [|exact Hinv].
    eapply perm_at1; [exact HI|].
    transitivity (concat ((fun ph => key <$> waiting ph) <$> input_workers s)
                  ++ ((key <$> m_features_queue (shared s)) ++ (key <$> waiting ph))
                  ++ concat ((fun iw => key <$> held iw) <$> infer_workers s)
                  ++ (key <$> m_inferred_features_queue (shared s))
                  ++ concat ((fun ph => key <$> taken ph) <$> decode_workers s));
      [solve_Permutation|].
    rewrite <- Hq. solve_Permutation.
  - (* an inference worker pops *)
    destruct (infer_workers s !! i) as [[iw ph]|] eqn:Hiw; [|done]. simpl in Hstep.
    destruct ph as [|[|]]; try done.
    destruct (m_features_queue (shared s)) as [|item rest] eqn:Hfq; [done|].
    injection Hstep as <-. simpl.
    pose proof (concat_fmap_insert (fun iw => key <$> held iw) _ i _ (iw, Holding item) Hiw)
      as HH.
    exists g. eapply tracker_inv_perm; [|exact Hinv].
    eapply perm_at3; [exact HH|]. unfold held. simpl. rewrite !fmap_app. simpl.
    solve_Permutation.
  - (* an inference worker times out *)
    destruct (infer_workers s !! i) as [[iw ph]|] eqn:Hiw; [|done]. simpl in Hstep.
    destruct ph as [|[|]]; try done.
    destruct (collect _ _) as [[[b' out] w']|] eqn:Hcol; [|done]. simpl in Hstep.
    injection Hstep as <-. simpl.
    apply collect_flush_if_any in Hcol as (Hf & Hp & Hq & Hiq & _ & _ & _ & Hk).
    pose proof (concat_fmap_insert (fun iw => key <$> held iw) _ i _
                  (with_batcher iw b', Delivering out) Hiw) as HH.
    exists g. rewrite Hf, Hp, Hq, Hiq. eapply tracker_inv_perm; [|exact Hinv].
    eapply perm_at3; [exact HH|]. unfold held. simpl. rewrite !fmap_app. simpl.
    rewrite (Permutation_app_comm (key <$> wfs b') (key <$> out)), Hk.
    solve_Permutation.
  - (* an inference worker goes on *)
    destruct (infer_workers s !! i) as [[iw ph]|] eqn:Hiw; [|done]. simpl in Hstep.
    destruct ph as [item|[|wf rest]]; try done.
    + destruct (collect _ _) as [[[b' out] w']|] eqn:Hcol; [|done]. simpl in Hstep.
      injection Hstep as <-. simpl.
      apply collect_infer_on_item in Hcol as (Hf & Hp & Hq & Hiq & _ & _ & _ & Hk).
      pose proof (concat_fmap_insert (fun iw => key <$> held iw) _ i _
                    (with_batcher iw b', Delivering out) Hiw) as HH.
      exists g. rewrite Hf, Hp, Hq, Hiq. eapply tracker_inv_perm; [|exact Hinv].
      eapply perm_at3; [exact HH|]. unfold held. simpl. rewrite !fmap_app. simpl.
      rewrite (Permutation_app_comm (key <$> wfs b') (key <$> out)), Hk.
      solve_Permutation.
    + injection Hstep as <-. simpl.
      pose proof (concat_fmap_insert (fun iw => key <$> held iw) _ i _
                    (iw, Delivering rest) Hiw) as HH.
      exists g. eapply tracker_inv_perm; [|exact Hinv].
      eapply perm_at3; [exact HH|]. unfold held. simpl. rewrite !fmap_app. simpl.
      solve_Permutation.
  - (* a decode worker goes on *)
    destruct (decode_workers s !! j) as [ph|] eqn:Hph; [|done]. simpl in Hstep.
    destruct ph as [|item|to_decode name].
    + destruct (m_inferred_features_queue (shared s)) as [|item rest] eqn:Hiq; [done|].
      injection Hstep as <-. simpl.
      pose proof (concat_fmap_insert (fun ph => key <$> taken ph) _ j _ (Decoding item) Hph)
        as HD.
      exists g. eapply tracker_inv_perm; [|exact Hinv].
      eapply perm_at5; [exact HD|]. simpl. solve_Permutation.
    + unfold exec in Hstep.
      destruct (decode_locked item (shared s)) as [[to_decode| |] w'] eqn:Hdec; [|done..].
      simpl in Hstep. injection Hstep as <-. simpl.
      set (ph' := match to_decode with [] => AtPop | _ :: _ => Sending to_decode (read_name item)
                  end).
      assert (taken ph' = []) as Htaken by (subst ph'; by destruct to_decode).
      pose proof (concat_fmap_insert (fun ph => key <$> taken ph) _ j _ ph' Hph) as HD.
      cbv beta in HD. rewrite Htaken in HD. simpl in HD. rewrite app_nil_r in HD.
      apply decode_locked_effect in Hdec. simpl in Hdec.
      assert (tracker_inv (m_features_by_id (shared s)) (m_pending_features_by_id (shared s)) g
                ((read_name item, window_idx item) ::
                 concat ((fun ph => key <$> waiting ph) <$> input_workers s)
                 ++ (key <$> m_features_queue (shared s))
                 ++ concat ((fun iw => key <$> held iw) <$> infer_workers s)
                 ++ (key <$> m_inferred_features_queue (shared s))
                 ++ concat ((fun ph => key <$> taken ph) <$> <[j := ph']> (decode_workers s))))
        as Hinv'.
      { eapply tracker_inv_perm; [|exact Hinv]. rewrite <- HD. unfold key at 7.
        solve_Permutation. }
      destruct (tracker_inv_decode _ _ _ _ _ _ Hinv')
        as (slots & pending & wr & pos & Hf & Hp & Hg & Hpos & Hwr & Hlt & Hr & _ & Hz & Hnz).
      rewrite Hf in Hdec.
      destruct Hdec as (pending' & pos' & Hp' & Hpos' & _ & _ & Hw').
      rewrite Hp in Hp'. injection Hp' as <-.
      assert (pos' = pos) as -> by lia. simpl in Hw'.
      destruct (decide (pending - 1 = 0)) as [Hzero|Hnzero]; destruct Hw' as [_ ->]; simpl.
      * exists (delete (read_name item) g). by apply Hz.
      * exists (<[read_name item := <[pos := 1%nat]> wr]> g). apply Hnz; [done|].
        by rewrite length_insert.
    + unfold exec in Hstep. rewrite concat_features_and_send_run in Hstep.
      simpl in Hstep. injection Hstep as <-. simpl.
      pose proof (concat_fmap_insert (fun ph => key <$> taken ph) _ j _ AtPop Hph) as HD.
      exists g. eapply tracker_inv_perm; [|exact Hinv].
      eapply perm_at5; [exact HD|]. simpl. solve_Permutation.
Qed.

Lemma node_init_inv inputs cfgs decoders : node_inv (node_init inputs cfgs decoders).
Proof.
  exists ∅. rewrite on_the_way_keys. simpl.
  assert (forall {A T} (f : A -> list T) (l : list A),
            Forall (fun x => f x = []) l -> concat (f <$> l) = []) as Hnil.
  { intros A T f l Hl. induction Hl as [|x l Hx _ IH]; [done|].
    rewrite fmap_cons. simpl. by rewrite Hx, IH. }
  rewrite !Hnil.
  - intros n. by rewrite !lookup_empty.
  - apply Forall_forall. by intros ph ->%elem_of_replicate_inv.
  - apply Forall_fmap, Forall_forall. by intros c _.
  - apply Forall_forall. by intros ph ->%elem_of_replicate_inv.
Qed.

Lemma accesses_inv acts s0 s :
  Forall wf_access acts -> accesses acts s0 = Some s -> node_inv s0 -> node_inv s.
Proof.
  intros Hwf. revert s0. induction Hwf as [|a acts Ha _ IH]; intros s0; simpl.
  - by intros [= ->].
  - destruct (access a s0) as [s1|] eqn:Hstep; [|done]. simpl.
    intros Hrun Hinv. eapply IH; [done|]. by eapply access_inv.
Qed.

Lemma slots_of_keys n (l : list WindowFeatures) :
  window_idx <$> filter (fun wf => read_name wf = n) l = slots_of n (key <$> l).
Proof.
  unfold slots_of. induction l as [|wf l IH]; [done|].
  rewrite fmap_cons, !filter_cons. simpl.
  destruct (decide (read_name wf = n)); [|done]. by rewrite !fmap_cons, IH.
Qed.

(** X17.  On well-formed input and at every moment, whichever worker is in
    the middle of whatever iteration, the pending counter of a read is the
    number of its windows on the way: those an input worker has still to
    push, those in the two queues, those an inference worker holds, and
    those a decode worker has popped and not yet written.  These windows
    sit on pairwise distinct slots, and the counter is at least one.  And
    every window on the way has the record of its read: a read is in the
    maps exactly as long as one of its windows is on the way. *)
Theorem pending_counts_windows_on_the_way inputs cfgs decoders acts s
    (Hwf : Forall wf_access acts)
    (Hrun : accesses acts (node_init inputs cfgs decoders) = Some s) :
  (forall n pending, m_pending_features_by_id (shared s) !! n = Some pending ->
     pending = Z.of_nat (length (slots_on_the_way n s)) /\
     NoDup (slots_on_the_way n s) /\
     1 <= pending) /\
  (forall wf, wf ∈ on_the_way s ->
     exists slots pending,
       m_features_by_id (shared s) !! read_name wf = Some slots /\
       m_pending_features_by_id (shared s) !! read_name wf = Some pending /\
       0 <= window_idx wf < Z.of_nat (length slots)).
Proof.
  destruct (accesses_inv acts _ s Hwf Hrun (node_init_inv inputs cfgs decoders)) as [g Hinv].
  split.
  - intros n pending Hpending. specialize (Hinv n).
    unfold slots_on_the_way. rewrite slots_of_keys.
    destruct (m_features_by_id (shared s) !! n) as [slots|].
    + destruct Hinv as (pending' & wr & Hp & _ & _ & Hnd & _ & _ & Hcount & Hr).
      rewrite Hpending in Hp. injection Hp as <-. repeat split; [done|done|lia].
    + destruct Hinv as (Hp & _). congruence.
  - intros wf0 Hin.
    assert (key wf0 ∈ key <$> on_the_way s) as Hk by (by apply list_elem_of_fmap_2).
    apply elem_of_Permutation in Hk as [ks Hks].
    apply (tracker_inv_perm _ _ _ _ _ Hks) in Hinv.
    destruct (tracker_inv_decode _ _ _ _ _ _ Hinv)
      as (slots & pending & wr & pos & Hf & Hp & _ & Hpos & _ & Hlt & _).
    exists slots, pending. repeat split; try done; lia.
Qed.

(** X18.  On well-formed input, at any moment at which no window is on the
    way (none waiting to be pushed, queued, held or popped), no read is
    pending: both maps are empty.  Nothing is left behind in the maps by
    the reads that went through. *)
Theorem quiescent_node_has_empty_maps inputs cfgs decoders acts s
    (Hwf : Forall wf_access acts)
    (Hrun : accesses acts (node_init inputs cfgs decoders) = Some s)
    (Hquiet : on_the_way s = []) :
  m_features_by_id (shared s) = ∅ /\ m_pending_features_by_id (shared s) = ∅.
Proof.
  destruct (accesses_inv acts _ s Hwf Hrun (node_init_inv inputs cfgs decoders)) as [g Hinv].
  assert (forall n, m_features_by_id (shared s) !! n = None /\
                    m_pending_features_by_id (shared s) !! n = None) as Hnone.
  { intros n. specialize (Hinv n). rewrite Hquiet in Hinv.
    destruct (m_features_by_id (shared s) !! n) as [slots|].
    - destruct Hinv as (pending & wr & _ & _ & _ & _ & _ & _ & Hcount & Hr).
      simpl in Hcount. lia.
    - by destruct Hinv as (? & _). }
  split; apply map_empty; intros n; apply Hnone.
Qed.

(** ** Every counted read is emitted or pending *)

Lemma access_accounted a s s' :
  access a s = Some s' -> reads_accounted_at s -> reads_accounted_at s'.
Proof.
  unfold reads_accounted_at. intros Hstep [Heq Hle].
  destruct a as [i message|i|i|i|i|j]; simpl in Hstep.
  - (* an input worker takes a message *)
    destruct (input_workers s !! i) as [ph|] eqn:Hph; [|done]. simpl in Hstep.
    destruct ph; try done.
    assert (forall ph', (count_where is_pushing (<[i := ph']> (input_workers s))
                         = count_where is_pushing (input_workers s)
                           + (if is_pushing ph' then 1 else 0))%nat /\
                        (count_where is_early_counted (<[i := ph']> (input_workers s))
                         = count_where is_early_counted (input_workers s)
                           + (if is_early_counted ph' then 1 else 0))%nat) as Hcount.
    { intros ph'.
      pose proof (count_where_insert is_pushing _ i AtMessage ph' Hph) as H1.
      pose proof (count_where_insert is_early_counted _ i AtMessage ph' Hph) as H2.
      simpl in H1, H2. lia. }
    unfold exec in Hstep.
    destruct message as [tname [wfs0|]|payload]; simpl in Hstep.
    + rewrite sort_windows_initial in Hstep.
      destruct (to_infer wfs0) as [|x l] eqn:Hti.
      * injection Hstep as <-. simpl.
        destruct (Hcount (EarlyCounted (initial_slots wfs0) tname)) as [-> ->]. simpl. lia.
      * revert Hstep. munfold. simpl.
        destruct (m_features_by_id (shared s) !! tname) eqn:Hf; simpl; intros [= <-]; simpl.
        -- destruct (Hcount AtMessage) as [-> ->]. simpl.
           rewrite concat_calls_app. unfold concat_calls at 2. simpl. lia.
        -- destruct (Hcount (Pushing (x :: l))) as [-> ->]. simpl.
           unfold umap_insert at 1. rewrite Hf. rewrite map_size_insert_None by done. lia.
    + injection Hstep as <-. simpl. destruct (Hcount AtMessage) as [-> ->]. simpl. lia.
    + injection Hstep as <-. simpl. destruct (Hcount AtMessage) as [-> ->]. simpl. lia.
  - (* an input worker goes on *)
    destruct (input_workers s !! i) as [ph|] eqn:Hph; [|done]. simpl in Hstep.
    destruct (input_resume ph) as [c|] eqn:Hc; [|done]. simpl in Hstep.
    unfold exec in Hstep.
    destruct ph as [|corrected_seqs tname|[|wf rest]]; simpl in Hc; [done|..];
      injection Hc as <-; revert Hstep; munfold.
    + rewrite concat_features_and_send_run. simpl. intros [= <-]. simpl.
      pose proof (count_where_insert is_pushing _ i _ (Pushing []) Hph) as H1.
      pose proof (count_where_insert is_early_counted _ i _ (Pushing []) Hph) as H2.
      simpl in H1, H2. rewrite concat_calls_app. unfold concat_calls at 2. simpl. lia.
    + unfold bump_reads. munfold. simpl. intros [= <-]. simpl.
      pose proof (count_where_insert is_pushing _ i _ AtMessage Hph) as H1.
      pose proof (count_where_insert is_early_counted _ i _ AtMessage Hph) as H2.
      simpl in H1, H2. lia.
    + unfold push_features. munfold. simpl. intros [= <-]. simpl.
      pose proof (count_where_insert is_pushing _ i _ (Pushing rest) Hph) as H1.
      pose proof (count_where_insert is_early_counted _ i _ (Pushing rest) Hph) as H2.
      simpl in H1, H2. lia.
  - (* an inference worker pops *)
    destruct (infer_workers s !! i) as [[iw ph]|] eqn:Hiw; [|done]. simpl in Hstep.
    destruct ph as [|[|]]; try done.
    destruct (m_features_queue (shared s)) as [|item rest] eqn:Hfq; [done|].
    by injection Hstep as <-.
  - (* an inference worker times out *)
    destruct (infer_workers s !! i) as [[iw ph]|] eqn:Hiw; [|done]. simpl in Hstep.
    destruct ph as [|[|]]; try done.
    destruct (collect _ _) as [[[b' out] w']|] eqn:Hcol; [|done]. simpl in Hstep.
    injection Hstep as <-. simpl.
    apply collect_flush_if_any in Hcol as (Hf & _ & _ & _ & Hr & He & Hc & _).
    by rewrite Hf, Hr, He, Hc.
  - (* an inference worker goes on *)
    destruct (infer_workers s !! i) as [[iw ph]|] eqn:Hiw; [|done]. simpl in Hstep.
    destruct ph as [item|[|wf rest]]; try done.
    + destruct (collect _ _) as [[[b' out] w']|] eqn:Hcol; [|done]. simpl in Hstep.
      injection Hstep as <-. simpl.
      apply collect_infer_on_item in Hcol as (Hf & _ & _ & _ & Hr & He & Hc & _).
      by rewrite Hf, Hr, He, Hc.
    + by injection Hstep as <-.
  - (* a decode worker goes on *)
    destruct (decode_workers s !! j) as [ph|] eqn:Hph; [|done]. simpl in Hstep.
    destruct ph as [|item|to_decode name].
    + destruct (m_inferred_features_queue (shared s)) as [|item rest] eqn:Hiq; [done|].
      injection Hstep as <-. simpl.
      pose proof (count_where_insert is_sending _ j _ (Decoding item) Hph) as H1.
      simpl in H1. lia.
    + unfold exec in Hstep.
      destruct (decode_locked item (shared s)) as [[to_decode| |] w'] eqn:Hdec; [|done..].
      simpl in Hstep. injection Hstep as <-. simpl.
      apply decode_locked_effect in Hdec. simpl in Hdec.
      destruct (m_features_by_id (shared s) !! read_name item) as [slots|] eqn:Hf.
      * destruct Hdec as (pending & pos & _ & _ & Hlt & _ & Hw'). simpl in Hw'.
        assert (size (m_features_by_id (shared s)) <> 0)%nat as Hsize.
        { intros Hz. apply map_size_empty_iff in Hz. rewrite Hz in Hf. done. }
        destruct (decide (pending - 1 = 0)); destruct Hw' as [-> ->]; simpl.
        -- destruct (<[pos := decode_window item]> slots) as [|s0 sl] eqn:Hs.
           { apply (f_equal length) in Hs. rewrite length_insert in Hs. simpl in Hs. lia. }
           pose proof (count_where_insert is_sending _ j _
                         (Sending (s0 :: sl) (read_name item)) Hph) as H1.
           simpl in H1. rewrite map_size_delete_Some by done. lia.
        -- pose proof (count_where_insert is_sending _ j _ AtPop Hph) as H1.
           simpl in H1. rewrite map_size_insert_Some by done. lia.
      * destruct Hdec as [-> ->]. simpl.
        pose proof (count_where_insert is_sending _ j _ AtPop Hph) as H1.
        simpl in H1. rewrite concat_calls_app. unfold concat_calls at 2. simpl. lia.
    + unfold exec in Hstep. rewrite concat_features_and_send_run in Hstep.
      simpl in Hstep. injection Hstep as <-. simpl.
      pose proof (count_where_insert is_sending _ j _ AtPop Hph) as H1.
      simpl in H1. rewrite concat_calls_app. unfold concat_calls at 2. simpl. lia.
Qed.

Lemma count_where_none {A} (f : A -> bool) (l : list A) :
  Forall (fun x => f x = false) l -> count_where f l = 0%nat.
Proof.
  unfold count_where. induction 1 as [|x l Hx _ IH]; [done|].
  rewrite filter_cons. rewrite decide_False by congruence. done.
Qed.

(** X19.  At every moment, on any input: the reads counted in [num_reads]
    and the reads of the input workers that are past their first access
    but have not reached [num_reads++] are, together, as many as the
    calls of [concat_features_and_send] made, the reads a decode worker
    has completed and is about to hand over, and the reads pending in the
    map.  The reads decoded early are among them.  So whenever no input
    worker is inside an iteration and no decode worker is about to send,
    [num_reads] is the number of calls made plus the number of reads
    pending, and [num_early_reads] is at most [num_reads].  ([num_reads]
    and [num_early_reads] are the numbers of increments made; the two
    atomics are declared outside [CorrectionNode.cpp], and a counter of a
    fixed width holds that number for as long as it has not overflowed.) *)
Theorem counted_reads_are_emitted_or_pending inputs cfgs decoders acts s
    (Hrun : accesses acts (node_init inputs cfgs decoders) = Some s) :
  ((num_reads (shared s) + count_where is_pushing (input_workers s))%nat
   = (concat_calls (events (shared s)) + count_where is_sending (decode_workers s)
      + size (m_features_by_id (shared s)))%nat /\
   (num_early_reads (shared s)
    <= num_reads (shared s) + count_where is_pushing (input_workers s)
       + count_where is_early_counted (input_workers s))%nat) /\
  (Forall (fun ph => ph = AtMessage) (input_workers s) ->
   Forall (fun ph => is_sending ph = false) (decode_workers s) ->
   num_reads (shared s)
   = (concat_calls (events (shared s)) + size (m_features_by_id (shared s)))%nat /\
   (num_early_reads (shared s) <= num_reads (shared s))%nat).
Proof.
  assert (reads_accounted_at s) as [Heq Hle].
  { assert (forall s0, reads_accounted_at s0 -> accesses acts s0 = Some s ->
                       reads_accounted_at s) as Hgen.
    { clear Hrun. induction acts as [|a acts IH]; intros s0 Hacc; simpl.
      - by intros [= <-].
      - destruct (access a s0) as [s1|] eqn:Hstep; [|done]. simpl.
        apply IH. by eapply access_accounted. }
    apply (Hgen (node_init inputs cfgs decoders)); [|done].
    unfold reads_accounted_at. simpl. rewrite map_size_empty.
    rewrite !count_where_none; [done|..];
      apply Forall_forall; by intros ph ->%elem_of_replicate_inv. }
  split; [done|]. intros Hin Hde.
  rewrite (count_where_none is_pushing) in Heq, Hle
    by (eapply Forall_impl; [exact Hin|]; by intros ph ->).
  rewrite (count_where_none is_early_counted) in Hle
    by (eapply Forall_impl; [exact Hin|]; by intros ph ->).
  rewrite (count_where_none is_sending) in Heq by done.
  lia.
Qed.

End Node.

(** * The properties on a small read *)

Lemma concat_emits_maximal_runs_witness :
  let cons := ["AC"; ""; ""; "GT"; "A"; ""]%string in
  runs_of cons [["AC"]; ["GT"; "A"]]%string /\
  concatenate_corrected_windows cons = ["AC"; "GTA"]%string /\
  concat_features_and_send cons "read1" empty_world
  = (Ok tt,
     set_sink [BamMessage (create_bam_record "read1:0" "AC");
               BamMessage (create_bam_record "read1:1" "GTA")]
       (set_events [CallConcat "read1" cons] empty_world)).
Proof.
  intros cons.
  assert (runs_of cons [["AC"]; ["GT"; "A"]]%string) as Hruns.
  { apply (runs_run ["AC"]%string [""; ""; "GT"; "A"; ""]%string [["GT"; "A"]]%string).
    - discriminate.
    - repeat constructor; discriminate.
    - right. eexists. reflexivity.
    - do 2 apply runs_sep.
      apply (runs_run ["GT"; "A"]%string [""]%string []).
      + discriminate.
      + repeat constructor; discriminate.
      + right. eexists. reflexivity.
      + apply runs_sep, runs_nil. }
  split; [exact Hruns|].
  exact (proj2 (concat_emits_maximal_runs cons "read1" empty_world) _ Hruns).
Defined.


Lemma flush_retry_policy_witness :
  let b := accept ex_transpose01 ex_w0 3 (new_batcher 4) in
  let inputs := batch_inputs ex_collate (CUDA 0) b in
  let r := batch_infer ex_collate ex_argmax1 (ex_forward_failing 2) true (CUDA 0) 4 b
                       empty_world in
  ex_forward_failing 2 0 inputs = ThrewRuntimeError "CUDA out of memory" /\
  events r.2
  = [CallBatchInfer [ex_w0];
     CallForward inputs;
     LogWarn "Caught Torch error 'CUDA out of memory', clearing CUDA cache and retrying.";
     CallEmptyCache;
     CallForward inputs] /\
  forward_calls r.2 = 2%nat /\
  r.1 = Throw (RuntimeError "CUDA out of memory").
Proof.
  intros b inputs r.
  destruct (flush_retry_policy ex_collate ex_argmax1 (ex_forward_failing 2) true (CUDA 0) 4
              b "CUDA out of memory" empty_world eq_refl) as (He & Hc & Hr & _).
  split; [reflexivity|]. split; [exact He|]. split; [exact Hc|].
  apply Hr. reflexivity.
Defined.

(** C7, against the claim as stated: in a build without CUDA, a backend
    whose first call throws and whose second call would return is called
    once; the cache is not emptied and the flush throws. *)
Lemma flush_without_cuda_does_not_retry :
  let b := accept ex_transpose01 ex_w0 3 (new_batcher 4) in
  let inputs := batch_inputs ex_collate CPU b in
  let r := batch_infer ex_collate ex_argmax1 (ex_forward_failing 1) false CPU 4 b
                       empty_world in
  ex_forward_failing 1 0 inputs = ThrewRuntimeError "CUDA out of memory" /\
  ex_forward_failing 1 1 inputs = ex_forward 1 inputs /\
  events r.2 = [CallBatchInfer [ex_w0]; CallForward inputs] /\
  forward_calls r.2 = 1%nat /\
  r.1 = Throw (RuntimeError "CUDA out of memory").
Proof. repeat split. Qed.

Lemma duplicate_name_is_dropped_witness :
  let w := (input_message ex_decode_window ex_message empty_world).2 in
  m_features_by_id w !! "read1" = Some [""; "ACGT"]%string /\
  Exists (fun wf => needs_inference wf = true) [ex_w0; ex_w1] /\
  input_message ex_decode_window ex_message w
  = (Ok tt, set_events [LogError "Features for read1 already exist! Skipping."] w).
Proof.
  intros w.
  assert (m_features_by_id w !! "read1" = Some [""; "ACGT"]%string) as Hdup
    by (vm_compute; reflexivity).
  assert (Exists (fun wf => needs_inference wf = true) [ex_w0; ex_w1]) as Hinfer
    by (apply Exists_cons_hd; reflexivity).
  split; [exact Hdup|]. split; [exact Hinfer|].
  exact (proj1 (duplicate_name_is_dropped ex_decode_window "read1" [ex_w0; ex_w1]
                  _ w Hdup Hinfer)).
Defined.

(** C8, against the claim as stated: a message whose windows are all
    trivial and whose read name has an entry in the maps is not dropped;
    it is completed at once, a record goes to the sink, and no error is
    logged. *)
Lemma duplicate_trivial_message_is_emitted :
  let w := (input_message ex_decode_window ex_message empty_world).2 in
  let r := input_message ex_decode_window ex_trivial_message w in
  m_features_by_id w !! "read1" = Some [""; "ACGT"]%string /\
  events w = [] /\ sink w = [] /\
  r.1 = Ok tt /\
  sink r.2 = [BamMessage (create_bam_record "read1" "ACGT")] /\
  events r.2 = [CallConcat "read1" ["ACGT"]%string].
Proof. vm_compute. repeat split. Qed.

(** C9, the code at a CUDA device.  The worker runs on [cuda:0] and its
    accumulators hold one window, whose index tensor was made on the host.
    The collated bases, quals and the lengths handed to [module.forward]
    are on [cuda:0]; the index tensor handed over is still on the host. *)
Theorem indices_stay_on_host :
  let b := accept ex_transpose01 ex_w0 3 (new_batcher 4) in
  let inputs := batch_inputs ex_collate (CUDA 0) b in
  events (batch_infer ex_collate ex_argmax1 ex_forward true (CUDA 0) 4 b empty_world).2
  = [CallBatchInfer [ex_w0]; CallForward inputs] /\
  t_device (in_bases inputs) = CUDA 0 /\
  t_device (in_quals inputs) = CUDA 0 /\
  t_device (in_lengths inputs) = CUDA 0 /\
  t_device <$> indices_batch b = [CPU] /\
  t_device <$> in_indices inputs = [CPU].
Proof.
  intros b inputs.
  destruct (move_to_device_placement (CUDA 0) (ex_collate (bases_batch b) 11)
              (ex_collate (quals_batch b) 0) (from_blob (lengths b)) (indices_batch b))
    as (Hb & Hq & Hl & Hi).
  split; [reflexivity|]. split; [exact Hb|]. split; [exact Hq|]. split; [exact Hl|].
  split; [reflexivity|]. unfold inputs, batch_inputs. rewrite Hi. reflexivity.
Qed.

Lemma trivial_windows_complete_at_ingestion_witness :
  let r := input_message ex_decode_window ex_trivial_message empty_world in
  let r' := input_message ex_decode_window ex_message empty_world in
  Forall (fun wf => needs_inference wf = false) [ex_w1] /\
  r.1 = Ok tt /\
  m_features_by_id r.2 = ∅ /\
  m_features_queue r.2 = [] /\
  events r.2 = [CallConcat "read1" ["ACGT"]%string] /\
  sink r.2 = [BamMessage (create_bam_record "read1" "ACGT")] /\
  to_infer [ex_w0; ex_w1] = [ex_w0] /\
  m_features_queue r'.2 = [ex_w0].
Proof.
  intros r r'.
  assert (Forall (fun wf => needs_inference wf = false) [ex_w1]) as Htriv
    by (repeat constructor).
  destruct (trivial_windows_complete_at_ingestion ex_decode_window "read1" [ex_w1] empty_world)
    as (_ & _ & _ & _ & Hall).
  destruct (Hall Htriv) as (H1 & H2 & _ & H4 & _ & H6 & H7 & _).
  destruct (trivial_windows_complete_at_ingestion ex_decode_window "read1" [ex_w0; ex_w1]
              empty_world) as (_ & _ & _ & Hpush & _).
  destruct Hpush as [_ Hq]; [discriminate|reflexivity|].
  split; [exact Htriv|]. split; [exact H1|]. split; [exact H2|]. split; [exact H4|].
  split; [exact H6|]. split; [exact H7|]. split; [reflexivity|]. exact Hq.
Defined.

Lemma infer_worker_flushes_all_witness :
  let pops := [Item ex_w0; TimedOut; Item ex_w1] in
  let r := infer_fn ex_collate ex_transpose01 ex_argmax1 ex_forward true CPU 4 pops
                    empty_world in
  let b1 := accept ex_transpose01 ex_w0 3 (new_batcher 4) in
  infer_loop ex_collate ex_transpose01 ex_argmax1 ex_forward true CPU 4 [Item ex_w0]
             (new_batcher 4) empty_world = (Ok b1, empty_world) /\
  wfs b1 <> [] /\
  infer_iteration ex_collate ex_transpose01 ex_argmax1 ex_forward true CPU 4 TimedOut b1
                  empty_world
  = batch_infer ex_collate ex_argmax1 ex_forward true CPU 4 b1 empty_world /\
  r.1 = Ok (new_batcher 4) /\
  wfs (new_batcher 4) = [] /\
  batched (events r.2) = [ex_w0; ex_w1].
Proof.
  intros pops r b1.
  destruct (infer_worker_flushes_all ex_collate ex_transpose01 ex_argmax1 ex_forward
              true CPU 4 pops empty_world) as [Hflush H].
  assert (infer_loop ex_collate ex_transpose01 ex_argmax1 ex_forward true CPU 4 [Item ex_w0]
            (new_batcher 4) empty_world = (Ok b1, empty_world)) as Hloop by reflexivity.
  assert (wfs b1 <> []) as Hne by discriminate.
  destruct (Hflush _ _ _ Hloop Hne) as (Htimeout & _).
  split; [exact Hloop|]. split; [exact Hne|]. split; [exact Htimeout|].
  split; [reflexivity|]. exact H.
Defined.

Lemma maps_have_same_keys_witness :
  let ls := [InputStep ex_message; InferPop 0 0; InferFlush 0] in
  let r := run ex_decode_window ex_collate ex_transpose01 ex_argmax1 ex_forward true
               ls (init_sys [(CPU, 4)]) in
  let s := default (init_sys []) r in
  r = Some s /\
  dom (m_features_by_id (world s)) = dom (m_pending_features_by_id (world s)) /\
  m_pending_features_by_id (world s) !! "read1" = Some 1.
Proof.
  intros ls r s.
  assert (r = Some s) as Hrun by (vm_compute; reflexivity).
  split; [exact Hrun|]. split.
  - exact (proj1 (maps_have_same_keys ex_decode_window ex_collate ex_transpose01 ex_argmax1
                    ex_forward true [(CPU, 4)] ls s Hrun)).
  - vm_compute. reflexivity.
Defined.



Lemma pending_reaches_zero_iff_all_written_witness :
  let ls := [InputStep ex_message; InferPop 0 0; InferFlush 0] in
  let r := run_tracked ex_decode_window ex_collate ex_transpose01 ex_argmax1 ex_forward true
                       ls (init_sys [(CPU, 4)]) ∅ in
  let st := default (init_sys [], ∅) r in
  let item := set_inferred_bases ex_w0 ["A"%char] in
  Forall wf_label ls /\
  r = Some (st.1, st.2) /\
  m_inferred_features_queue (world st.1) !! 0%nat = Some item /\
  m_features_by_id (world st.1) !! "read1" = Some [""; "ACGT"]%string /\
  m_pending_features_by_id (world st.1) !! "read1" = Some 1 /\
  st.2 !! "read1" = Some [0; 1]%nat /\
  exists s',
    sys_step ex_decode_window ex_collate ex_transpose01 ex_argmax1 ex_forward true
             (DecodeStep 0) st.1 = Some s' /\
    m_features_by_id (world s') !! "read1" = None /\
    sink (world s') = [BamMessage (create_bam_record "read1" "AACGT")].
Proof.
  intros ls r st item.
  assert (Forall wf_label ls) as Hwf.
  { apply Forall_cons. split; [|repeat constructor].
    split; [reflexivity|].
    intros [|[|k]] x Hx; simpl in Hx; [| |discriminate];
      injection Hx as <-; split; reflexivity. }
  assert (r = Some (st.1, st.2)) as Hrun by (vm_compute; reflexivity).
  assert (m_inferred_features_queue (world st.1) !! 0%nat = Some item) as Hitem
    by (vm_compute; reflexivity).
  assert (m_features_by_id (world st.1) !! "read1" = Some [""; "ACGT"]%string) as Hrec
    by (vm_compute; reflexivity).
  assert (m_pending_features_by_id (world st.1) !! "read1" = Some 1) as Hpend
    by (vm_compute; reflexivity).
  split; [exact Hwf|]. split; [exact Hrun|]. split; [exact Hitem|]. split; [exact Hrec|].
  split; [exact Hpend|]. split; [vm_compute; reflexivity|].
  destruct (pending_reaches_zero_iff_all_written ex_decode_window ex_collate ex_transpose01
              ex_argmax1 ex_forward true [(CPU, 4)] ls st.1 st.2 0 item _ Hwf Hrun Hitem Hrec)
    as (pending & wr & pos & s' & Hp & _ & Hpos & _ & Hstep & _ & Hcase).
  change (read_name item) with "read1"%string in *.
  rewrite Hpend in Hp. injection Hp as <-.
  assert (pos = 0%nat) as -> by (simpl in Hpos; lia).
  simpl in Hcase. destruct Hcase as (Hf & _ & _ & _ & _ & Hsink).
  exists s'. split; [exact Hstep|]. split; [exact Hf|].
  rewrite Hsink. vm_compute. reflexivity.
Defined.

(** ** A CIGAR, with the codes of [minimap.h]: match 0, insertion 1,
    deletion 2 *)

Lemma parse_cigar_reads_every_word_witness :
  let cigar := [160; 33; 18] in
  Forall (fun c => Z.land c 15 ∈ [0; 1; 2]) cigar /\
  parse_cigar 0 1 2 (mkCigarOp DEL 7) cigar 3
  = Ok [mkCigarOp MATCH 10; mkCigarOp INS 2; mkCigarOp DEL 1] /\
  exists ops,
    parse_cigar 0 1 2 (mkCigarOp DEL 7) cigar (Z.of_nat (length cigar)) = Ok ops /\
    length ops = length cigar /\
    forall (i : nat) c, cigar !! i = Some c ->
      exists o, ops !! i = Some o /\ parse_cigar_op 0 1 2 c = inr o /\
                op_len o = Z.shiftr c 4.
Proof.
  intros cigar.
  assert (Forall (fun c => Z.land c 15 ∈ [0; 1; 2]) cigar) as H.
  { apply (bool_decide_unpack _). vm_compute. exact I. }
  split; [exact H|]. split; [vm_compute; reflexivity|].
  exact (parse_cigar_reads_every_word 0 1 2 (mkCigarOp DEL 7) cigar H).
Defined.

Lemma parse_cigar_rejects_unknown_op_witness :
  Forall (fun c => Z.land c 15 ∈ [0; 1; 2]) [160] /\
  (Z.land 35 15 ∉ [0; 1; 2]) /\
  parse_cigar 0 1 2 (mkCigarOp MATCH 0) [160; 35; 18] 3
  = Throw (RuntimeError "Unknown cigar op: 3").
Proof.
  assert (Forall (fun c => Z.land c 15 ∈ [0; 1; 2]) [160]) as H.
  { apply (bool_decide_unpack _). vm_compute. exact I. }
  assert (Z.land 35 15 ∉ [0; 1; 2]) as Hc.
  { apply (bool_decide_unpack _). vm_compute. exact I. }
  split; [exact H|]. split; [exact Hc|].
  exact (parse_cigar_rejects_unknown_op 0 1 2 (mkCigarOp MATCH 0) [160] [18] 35 H Hc).
Defined.

Lemma parse_cigar_inverts_packing_witness :
  let ops := [mkCigarOp MATCH 10; mkCigarOp INS 2; mkCigarOp DEL 1] in
  Forall (fun code => 0 <= code < 16) [0; 1; 2] /\
  NoDup [0; 1; 2] /\
  Forall (fun o => 0 <= op_len o < 2 ^ 28) ops /\
  Forall (fun word => 0 <= word < 2 ^ 32) [160; 33; 18] /\
  parse_cigar 0 1 2 (mkCigarOp MATCH 0) [160; 33; 18] 3 = Ok ops.
Proof.
  intros ops.
  assert (Forall (fun code => 0 <= code < 16) [0; 1; 2]) as H1.
  { repeat constructor; lia. }
  assert (NoDup [0; 1; 2]) as H2.
  { apply (bool_decide_unpack _). vm_compute. exact I. }
  assert (Forall (fun o => 0 <= op_len o < 2 ^ 28) ops) as H3.
  { repeat constructor; simpl; lia. }
  split; [exact H1|]. split; [exact H2|]. split; [exact H3|].
  exact (parse_cigar_inverts_packing 0 1 2 (mkCigarOp MATCH 0) ops H1 H2 H3).
Defined.

(** ** Alignments that pass, and alignments that do not *)

Lemma populate_alignments_postcondition_witness :
  let a := ex_alignments 4 [[64]] in
  let r := populate_alignments 0 1 2 (mkCigarOp MATCH 0) ex_fetch_seq ex_fetch_qual
                               (fun _ => true) a empty_world in
  let a' := match r.1 with Ok (_, a') => a' | _ => a end in
  r = (Ok (true, a'), empty_world) /\
  al_read_seq a' = "ACGTAC"%string /\
  al_seqs a' = ["ACGT"%string] /\
  al_cigars a' = [[mkCigarOp MATCH 4]] /\
  al_mm2_cigars a' = [[]] /\
  entry_populated 0 1 2 (mkCigarOp MATCH 0) ex_fetch_seq ex_fetch_qual 6 a a' 0.
Proof.
  intros a r a'.
  assert (r = (Ok (true, a'), empty_world)) as Hok by (vm_compute; reflexivity).
  split; [exact Hok|].
  do 4 (split; [vm_compute; reflexivity|]).
  destruct (populate_alignments_postcondition 0 1 2 (mkCigarOp MATCH 0) ex_fetch_seq
              ex_fetch_qual (fun _ => true) a empty_world a' empty_world Hok)
    as (_ & _ & _ & _ & _ & _ & _ & _ & _ & _ & Hentry).
  apply (Hentry 0%nat). simpl. lia.
Defined.

Lemma populate_alignments_rejection_witness :
  let a := ex_alignments 5 [[64]] in
  let r := populate_alignments 0 1 2 (mkCigarOp MATCH 0) ex_fetch_seq ex_fetch_qual
                               (fun _ => true) a empty_world in
  let a' := match r.1 with Ok (_, a') => a' | _ => a end in
  r = (Ok (false, a'),
       set_events
         [LogError "qlen from before 5 and qlen from after 4 don't match for q1"]
         empty_world) /\
  same_but_events empty_world r.2.
Proof.
  intros a r a'.
  assert (r = (Ok (false, a'),
               set_events
                 [LogError "qlen from before 5 and qlen from after 4 don't match for q1"]
                 empty_world)) as Hrej by (vm_compute; reflexivity).
  split; [exact Hrej|].
  destruct (populate_alignments_rejection 0 1 2 (mkCigarOp MATCH 0) ex_fetch_seq
              ex_fetch_qual (fun _ => true) a empty_world a' _ Hrej) as [Hsame _].
  rewrite Hrej. exact Hsame.
Defined.

Lemma populate_alignments_stays_in_bounds_witness :
  let a := ex_alignments 4 [[67]] in
  let r := populate_alignments 0 1 2 (mkCigarOp MATCH 0) ex_fetch_seq ex_fetch_qual
                               (fun _ => true) a empty_world in
  (length (al_qnames a) <= length (al_overlaps a))%nat /\
  (length (al_qnames a) <= length (al_mm2_cigars a))%nat /\
  r = (Throw (RuntimeError "Unknown cigar op: 3"), empty_world) /\
  match r with
  | (Ok _, _) => True
  | (Throw e, w') =>
      w' = empty_world /\
      exists op : nat, e = RuntimeError ("Unknown cigar op: " +:+ to_string op)
  | (Undefined, _) => False
  end.
Proof.
  intros a r.
  assert (length (al_qnames a) <= length (al_overlaps a))%nat as H1 by (simpl; lia).
  assert (length (al_qnames a) <= length (al_mm2_cigars a))%nat as H2 by (simpl; lia).
  split; [exact H1|]. split; [exact H2|]. split; [vm_compute; reflexivity|].
  exact (populate_alignments_stays_in_bounds 0 1 2 (mkCigarOp MATCH 0) ex_fetch_seq
           ex_fetch_qual (fun _ => true) a empty_world H1 H2).
Defined.

Lemma n_windows_covers_the_read_witness :
  0 < 4 < 2 ^ 31 /\ Z.of_nat 10 < 2 ^ 63 /\
  n_windows 10 4 = Some 3 /\
  (exists n, n_windows 10 4 = Some n /\
             (n - 1) * 4 < Z.of_nat 10 <= n * 4 /\ (10%nat = 0%nat -> n = 0)).
Proof.
  assert (0 < 4 < 2 ^ 31) as H1 by lia.
  assert (Z.of_nat 10 < 2 ^ 63) as H2 by lia.
  split; [exact H1|]. split; [exact H2|]. split; [vm_compute; reflexivity|].
  exact (proj1 (n_windows_covers_the_read 10 4 H1 H2)).
Defined.

Lemma rejected_read_is_dropped_witness :
  let a := ex_alignments 5 [[64]] in
  let populate := populate_alignments 0 1 2 (mkCigarOp MATCH 0) ex_fetch_seq ex_fetch_qual
                                      (fun _ => true) in
  let step := input_iteration ex_decode_window 0 1 2 (mkCigarOp MATCH 0) ex_fetch_seq
                              ex_fetch_qual (fun _ => true) nat ex_extract_windows
                              ex_extract_features 4 in
  let w1 := set_events
              [LogError "qlen from before 5 and qlen from after 4 don't match for q1"]
              empty_world in
  let a' := match (populate a empty_world).1 with Ok (_, a') => a' | _ => a end in
  populate a empty_world = (Ok (false, a'), w1) /\
  step (AlignmentsMessage a) empty_world = (Ok tt, w1) /\
  sink w1 = [] /\ num_reads w1 = 0%nat.
Proof.
  intros a populate step w1 a'.
  assert (populate a empty_world = (Ok (false, a'), w1)) as Hpop
    by (vm_compute; reflexivity).
  split; [exact Hpop|].
  destruct (proj1 (rejected_read_is_dropped ex_decode_window 0 1 2 (mkCigarOp MATCH 0)
                     ex_fetch_seq ex_fetch_qual (fun _ => true) nat ex_extract_windows
                     ex_extract_features 4 a empty_world) a' w1 Hpop)
    as (Hstep & _ & Hsink & Hreads & _).
  split; [exact Hstep|]. split; [exact Hsink|exact Hreads].
Defined.

Lemma input_iteration_fails_only_on_cigar_witness :
  let step := input_iteration ex_decode_window 0 1 2 (mkCigarOp MATCH 0) ex_fetch_seq
                              ex_fetch_qual (fun _ => true) nat ex_extract_windows
                              ex_extract_features 4 in
  let good := ex_alignments 4 [[64]] in
  let bad := ex_alignments 4 [[67]] in
  to_size_t 4 <> 0 /\
  (length (al_qnames bad) <= length (al_overlaps bad))%nat /\
  (length (al_qnames bad) <= length (al_mm2_cigars bad))%nat /\
  (step (AlignmentsMessage good) empty_world).1 = Ok tt /\
  sink (step (AlignmentsMessage good) empty_world).2
  = [BamMessage (create_bam_record "read1" "ACGTACGT")] /\
  step (AlignmentsMessage bad) empty_world
  = (Throw (RuntimeError "Unknown cigar op: 3"), empty_world) /\
  match step (AlignmentsMessage bad) empty_world with
  | (Ok _, _) => True
  | (Throw e, w') =>
      w' = empty_world /\
      exists op : nat, e = RuntimeError ("Unknown cigar op: " +:+ to_string op)
  | (Undefined, _) => False
  end.
Proof.
  intros step good bad.
  assert (to_size_t 4 <> 0) as H0 by (vm_compute; discriminate).
  assert (length (al_qnames bad) <= length (al_overlaps bad))%nat as H1 by (simpl; lia).
  assert (length (al_qnames bad) <= length (al_mm2_cigars bad))%nat as H2 by (simpl; lia).
  split; [exact H0|]. split; [exact H1|]. split; [exact H2|].
  do 3 (split; [vm_compute; reflexivity|]).
  exact (input_iteration_fails_only_on_cigar ex_decode_window 0 1 2 (mkCigarOp MATCH 0)
           ex_fetch_seq ex_fetch_qual (fun _ => true) nat ex_extract_windows
           ex_extract_features 4 bad empty_world H0 H1 H2).
Defined.

(** ** Two CUDA devices, two threads each *)

Lemma inference_threads_per_device_witness :
  let starts_with := fun s p : string => String.prefix p s in
  let parse := fun _ : string => ["cuda:0"; "cuda:1"]%string in
  let c := construct true starts_with parse (fun _ _ => 0) "reads.fastq" "cuda:all" 2 8
                     true 0 in
  select_devices true starts_with parse "cuda:all" 2
  = inr (["cuda:0"; "cuda:1"]%string, 2) /\
  8 <> 0 /\
  c_infer_threads c
  = [mkInferThread "cuda:0" 0 8; mkInferThread "cuda:0" 0 8;
     mkInferThread "cuda:1" 1 8; mkInferThread "cuda:1" 1 8] /\
  length (c_infer_threads c) = 4%nat /\
  c_decode_threads c = 4%nat.
Proof.
  intros starts_with parse c.
  assert (select_devices true starts_with parse "cuda:all" 2
          = inr (["cuda:0"; "cuda:1"]%string, 2)) as Hdev by (vm_compute; reflexivity).
  assert (8 <> 0) as Hbs by lia.
  split; [exact Hdev|]. split; [exact Hbs|].
  destruct (inference_threads_per_device true starts_with parse (fun _ _ => 0)
              "reads.fastq" "cuda:all" 2 8 true 0 _ _ Hdev Hbs)
    as (Hthreads & Hlen & _ & _ & Hdecode).
  split; [exact Hthreads|]. split; [exact Hlen|exact Hdecode].
Defined.

Lemma device_string_decides_the_threads_witness :
  let starts_with := fun s p : string => String.prefix p s in
  let parse := fun _ : string => ["cuda:0"]%string in
  let with_cuda := construct true starts_with parse (fun _ _ => 0) "reads.fastq" "metal" 2 8
                             true 0 in
  let without_cuda := construct false starts_with parse (fun _ _ => 0) "reads.fastq" "metal"
                                2 8 true 0 in
  let on_cpu := construct false starts_with parse (fun _ _ => 0) "reads.fastq" "cpu" 8 8
                          true 0 in
  c_infer_threads on_cpu = [mkInferThread "cpu" 0 8] /\
  c_thrown without_cuda = Some (RuntimeError "Unsupported device: metal") /\
  c_decode_threads without_cuda = 0%nat /\
  c_infer_threads with_cuda = [] /\ c_decode_threads with_cuda = 4%nat /\
  c_thrown with_cuda = None.
Proof.
  intros starts_with parse with_cuda without_cuda on_cpu.
  assert ("metal" <> "cpu")%string as Hne by discriminate.
  destruct (device_string_decides_the_threads true starts_with parse (fun _ _ => 0)
              "reads.fastq" "metal" 2 8 true 0) as (_ & _ & Hcuda & _).
  destruct (device_string_decides_the_threads false starts_with parse (fun _ _ => 0)
              "reads.fastq" "metal" 2 8 true 0) as (_ & Hplain & _).
  destruct (device_string_decides_the_threads false starts_with parse (fun _ _ => 0)
              "reads.fastq" "cpu" 8 8 true 0) as (Hcpu & _).
  split; [apply Hcpu; [reflexivity|lia]|].
  specialize (Hplain Hne eq_refl). fold without_cuda in Hplain.
  split; [by rewrite Hplain|]. split; [by rewrite Hplain|].
  destruct (Hcuda Hne eq_refl eq_refl) as (Hthreads & Hdecode & Hthrown).
  split; [exact Hthreads|]. split; [exact Hdecode|].
  apply Hthrown. by left.
Defined.

(** ** One read on its way through the node *)

Lemma window_in_flight_has_its_record_witness :
  let ls := [InputStep ex_message; InferPop 0 0; InferFlush 0] in
  let r := run ex_decode_window ex_collate ex_transpose01 ex_argmax1 ex_forward true
               ls (init_sys [(CPU, 4)]) in
  let s := default (init_sys []) r in
  let item := set_inferred_bases ex_w0 ["A"%char] in
  Forall wf_label ls /\
  r = Some s /\
  in_flight s = [item] /\
  exists s',
    sys_step ex_decode_window ex_collate ex_transpose01 ex_argmax1 ex_forward true
             (DecodeStep 0) s = Some s' /\
    (events (world s') = events (world s) \/
     exists slots', events (world s')
                    = events (world s) ++ [CallConcat (read_name item) slots']).
Proof.
  intros ls r s item.
  assert (Forall wf_label ls) as Hwf.
  { apply Forall_cons. split; [|repeat constructor].
    split; [reflexivity|].
    intros [|[|k]] x Hx; simpl in Hx; [| |discriminate];
      injection Hx as <-; split; reflexivity. }
  assert (r = Some s) as Hrun by (vm_compute; reflexivity).
  assert (m_inferred_features_queue (world s) !! 0%nat = Some item) as Hitem
    by (vm_compute; reflexivity).
  split; [exact Hwf|]. split; [exact Hrun|]. split; [vm_compute; reflexivity|].
  exact (proj2 (window_in_flight_has_its_record ex_decode_window ex_collate ex_transpose01
                  ex_argmax1 ex_forward true [(CPU, 4)] ls s Hwf Hrun) 0%nat item Hitem).
Defined.

Lemma pending_counts_windows_on_the_way_witness :
  let acts := [InputTakes 0 ex_message] in
  let r := accesses ex_decode_window ex_collate ex_transpose01 ex_argmax1 ex_forward true
                    acts (node_init 1 [(CPU, 4)] 2) in
  let s := default (node_init 0 [] 0) r in
  Forall wf_access acts /\
  r = Some s /\
  input_workers s = [Pushing [ex_w0]] /\
  m_features_queue (shared s) = [] /\
  m_pending_features_by_id (shared s) !! "read1" = Some 1 /\
  slots_on_the_way "read1" s = [0] /\
  1 = Z.of_nat (length (slots_on_the_way "read1" s)).
Proof.
  intros acts r s.
  assert (Forall wf_access acts) as Hwf.
  { apply Forall_cons. split; [|constructor].
    split; [reflexivity|].
    intros [|[|k]] x Hx; simpl in Hx; [| |discriminate];
      injection Hx as <-; split; reflexivity. }
  assert (r = Some s) as Hrun by (vm_compute; reflexivity).
  assert (m_pending_features_by_id (shared s) !! "read1" = Some 1) as Hpend
    by (vm_compute; reflexivity).
  split; [exact Hwf|]. split; [exact Hrun|].
  do 2 (split; [vm_compute; reflexivity|]). split; [exact Hpend|].
  split; [vm_compute; reflexivity|].
  destruct (pending_counts_windows_on_the_way ex_decode_window ex_collate ex_transpose01
              ex_argmax1 ex_forward true 1 [(CPU, 4)] 2 acts s Hwf Hrun) as [Hcount _].
  exact (proj1 (Hcount "read1" 1 Hpend)).
Defined.

Lemma quiescent_node_has_empty_maps_witness :
  let r := accesses ex_decode_window ex_collate ex_transpose01 ex_argmax1 ex_forward true
                    ex_accesses (node_init 1 [(CPU, 4)] 2) in
  let s := default (node_init 0 [] 0) r in
  Forall wf_access ex_accesses /\
  r = Some s /\
  on_the_way s = [] /\
  sink (shared s) = [BamMessage (create_bam_record "read1" "AACGT")] /\
  m_features_by_id (shared s) = ∅ /\
  m_pending_features_by_id (shared s) = ∅.
Proof.
  intros r s.
  assert (Forall wf_access ex_accesses) as Hwf.
  { apply Forall_cons. split; [|repeat constructor].
    split; [reflexivity|].
    intros [|[|k]] x Hx; simpl in Hx; [| |discriminate];
      injection Hx as <-; split; reflexivity. }
  assert (r = Some s) as Hrun by (vm_compute; reflexivity).
  assert (on_the_way s = []) as Hquiet by (vm_compute; reflexivity).
  split; [exact Hwf|]. split; [exact Hrun|]. split; [exact Hquiet|].
  split; [vm_compute; reflexivity|].
  exact (quiescent_node_has_empty_maps ex_decode_window ex_collate ex_transpose01
           ex_argmax1 ex_forward true 1 [(CPU, 4)] 2 ex_accesses s Hwf Hrun Hquiet).
Defined.

Lemma counted_reads_are_emitted_or_pending_witness :
  let acts := [InputTakes 0 ex_trivial_message; InputGoes 0; InputGoes 0;
               InputTakes 0 ex_message; InputGoes 0] in
  let r := accesses ex_decode_window ex_collate ex_transpose01 ex_argmax1 ex_forward true
                    acts (node_init 1 [(CPU, 4)] 2) in
  let s := default (node_init 0 [] 0) r in
  r = Some s /\
  num_reads (shared s) = 1%nat /\
  input_workers s = [Pushing []] /\
  concat_calls (events (shared s)) = 1%nat /\
  size (m_features_by_id (shared s)) = 1%nat /\
  (num_reads (shared s) + count_where is_pushing (input_workers s))%nat
  = (concat_calls (events (shared s)) + count_where is_sending (decode_workers s)
     + size (m_features_by_id (shared s)))%nat.
Proof.
  intros acts r s.
  assert (r = Some s) as Hrun by (vm_compute; reflexivity).
  split; [exact Hrun|]. do 4 (split; [vm_compute; reflexivity|]).
  exact (proj1 (proj1 (counted_reads_are_emitted_or_pending ex_decode_window ex_collate
                         ex_transpose01 ex_argmax1 ex_forward true 1 [(CPU, 4)] 2 acts s
                         Hrun))).
Defined.

(** ** An inference worker on three pops *)

Lemma inference_worker_delivers_in_order_witness :
  let pops := [Item ex_w0; TimedOut; Item ex_w1] in
  let r := infer_fn ex_collate ex_transpose01 ex_argmax1 ex_forward true CPU 4 pops
                    empty_world in
  r = (Ok (new_batcher 4), r.2) /\
  m_inferred_features_queue r.2 = [set_inferred_bases ex_w0 ["A"%char]; ex_w1] /\
  exists moved,
    m_inferred_features_queue r.2 = m_inferred_features_queue empty_world ++ moved /\
    length moved = length (items pops) /\
    forall (i : nat) wf0, items pops !! i = Some wf0 ->
      exists d, moved !! i = Some (set_inferred_bases wf0 d).
Proof.
  intros pops r.
  assert (r = (Ok (new_batcher 4), r.2)) as Hret by (vm_compute; reflexivity).
  split; [exact Hret|]. split; [vm_compute; reflexivity|].
  destruct (inference_worker_delivers_in_order ex_collate ex_transpose01 ex_argmax1
              ex_forward true CPU 4 pops empty_world _ _ Hret)
    as (_ & _ & _ & _ & _ & Hmoved).
  exact Hmoved.
Defined.

Lemma batches_stay_within_budget_witness :
  let pops := [Item ex_w0; Item ex_w0; Item ex_w1] in
  let r := infer_fn ex_collate ex_transpose01 ex_argmax1 ex_forward true CPU 4 pops
                    empty_world in
  r = (Ok (new_batcher 4), r.2) /\
  batches (events r.2) = [[ex_w0]; [ex_w0; ex_w1]] /\
  batch_slots [ex_w0] = 3 /\ batch_slots [ex_w0; ex_w1] = 4 /\
  exists new,
    batches (events r.2) = batches (events empty_world) ++ new /\
    concat new = items pops /\
    Forall (fun batch => batch_slots batch <= 4 \/ (length batch <= 1)%nat) new.
Proof.
  intros pops r.
  assert (r = (Ok (new_batcher 4), r.2)) as Hret by (vm_compute; reflexivity).
  split; [exact Hret|]. do 3 (split; [vm_compute; reflexivity|]).
  exact (batches_stay_within_budget ex_collate ex_transpose01 ex_argmax1 ex_forward true
           CPU 4 pops empty_world _ _ Hret).
Defined.

Lemma oversized_window_flushes_an_empty_batch_witness :
  let step := infer_on_item ex_collate ex_transpose01 ex_argmax1 ex_forward true CPU 2 in
  let inputs := batch_inputs ex_collate CPU (new_batcher 2) in
  required_batch_slots ex_w0 = Some 3 /\
  3 > 2 /\
  exists rest,
    events (step ex_w0 (new_batcher 2) empty_world).2
    = events empty_world ++ CallBatchInfer [] :: CallForward inputs :: rest.
Proof.
  intros step inputs.
  assert (required_batch_slots ex_w0 = Some 3) as Hreq by (vm_compute; reflexivity).
  assert (3 > 2) as Hover by lia.
  split; [exact Hreq|]. split; [exact Hover|].
  destruct (oversized_window_flushes_an_empty_batch ex_collate ex_transpose01 ex_argmax1
              ex_forward true CPU 2 ex_w0 3 empty_world Hreq Hover) as (_ & _ & Hev).
  exact Hev.
Defined.

(** ** Two windows of one read, decoded in either order *)

Lemma decode_order_is_irrelevant_witness :
  let ls := [InputStep ex_pair_message; InferPop 0 0; InferPop 0 0; InferFlush 0] in
  let run' := run ex_decode_window ex_collate ex_transpose01 ex_argmax1 ex_forward true in
  let s := default (init_sys []) (run' ls (init_sys [(CPU, 4)])) in
  let item1 := set_inferred_bases (ex_window "read2" 0 2 [(3, 0)] 100) ["A"%char] in
  let item2 := set_inferred_bases (ex_window "read2" 1 2 [(5, 0)] 100) ["A"%char] in
  Forall wf_label ls /\
  run' ls (init_sys [(CPU, 4)]) = Some s /\
  m_inferred_features_queue (world s) = [item1; item2] /\
  exists s',
    run' [DecodeStep 0; DecodeStep 0] s = Some s' /\
    run' [DecodeStep 1; DecodeStep 0] s = Some s' /\
    sink (world s') = [BamMessage (create_bam_record "read2" "AA")].
Proof.
  intros ls run' s item1 item2.
  assert (Forall wf_label ls) as Hwf.
  { apply Forall_cons. split; [|repeat constructor].
    split; [reflexivity|].
    intros [|[|k]] x Hx; simpl in Hx; [| |discriminate];
      injection Hx as <-; split; reflexivity. }
  assert (run' ls (init_sys [(CPU, 4)]) = Some s) as Hrun by (vm_compute; reflexivity).
  assert (m_inferred_features_queue (world s) !! 0%nat = Some item1) as H1
    by (vm_compute; reflexivity).
  assert (m_inferred_features_queue (world s) !! 1%nat = Some item2) as H2
    by (vm_compute; reflexivity).
  split; [exact Hwf|]. split; [exact Hrun|]. split; [vm_compute; reflexivity|].
  destruct (decode_order_is_irrelevant ex_decode_window ex_collate ex_transpose01
              ex_argmax1 ex_forward true [(CPU, 4)] ls s 0 1 item1 item2 Hwf Hrun
              ltac:(lia) H1 H2 eq_refl) as (s' & HA & HB).
  exists s'. split; [exact HA|]. split; [exact HB|]. subst run'.
  assert (run ex_decode_window ex_collate ex_transpose01 ex_argmax1 ex_forward true
              [DecodeStep 1; DecodeStep 0] s
          = Some (default (init_sys [])
                    (run ex_decode_window ex_collate ex_transpose01 ex_argmax1 ex_forward
                         true [DecodeStep 1; DecodeStep 0] s))) as Hs
    by (vm_compute; reflexivity).
  rewrite Hs in HB. injection HB as <-. vm_compute. reflexivity.
Defined.

(** ** Two workers of one stage *)

Lemma terminate_waits_for_running_workers_witness :
  let st := {| active := 0; terminate_calls := 0; phases := [Decremented; Decremented] |} in
  let st' := {| active := 0; terminate_calls := 1; phases := [Left; Decremented] |} in
  stage_run [0; 1; 0; 1]%nat (stage_init 2) = Some st /\
  stage_step 0 st = Some st' /\
  active st = Z.of_nat (count_phase Running st) /\
  count_phase Running st = 0%nat.
Proof.
  intros st st'.
  assert (stage_run [0; 1; 0; 1]%nat (stage_init 2) = Some st) as Hrun by reflexivity.
  assert (stage_step 0 st = Some st') as Hstep by reflexivity.
  split; [exact Hrun|]. split; [exact Hstep|].
  destruct (terminate_waits_for_running_workers 2 _ st 0 st' Hrun Hstep) as [Hact Hcall].
  split; [exact Hact|].
  destruct Hcall as (_ & Hnone & _); [simpl; lia|]. exact Hnone.
Defined.

Lemma stage_end_terminates_the_queue_witness :
  let st := {| active := 0; terminate_calls := 2; phases := [Left; Left] |} in
  stage_run [0; 1; 0; 1; 0; 1]%nat (stage_init 2) = Some st /\
  (1 <= terminate_calls st <= 2)%nat.
Proof.
  intros st.
  assert (stage_run [0; 1; 0; 1; 0; 1]%nat (stage_init 2) = Some st) as Hrun by reflexivity.
  split; [exact Hrun|].
  destruct (stage_end_terminates_the_queue 2 _ st Hrun) as (_ & _ & Hall).
  apply Hall; [lia|]. repeat constructor.
Defined.

Lemma terminate_can_precede_late_workers_witness :
  (2 <= 3)%nat /\
  exists st,
    stage_run [0; 0; 0]%nat (stage_init 3) = Some st /\
    terminate_calls st = 1%nat /\
    phases st = Left :: replicate (3 - 1) NotStarted /\
    exists st',
      stage_run [1; 1; 1]%nat st = Some st' /\ terminate_calls st' = 2%nat.
Proof.
  assert (2 <= 3)%nat as Hn by lia.
  split; [exact Hn|]. exact (terminate_can_precede_late_workers 3 Hn).
Defined.


(** ** A model that returns no tuple, a file without index *)

Lemma failed_flush_delivers_nothing_witness :
  let forward := fun (_ : nat) (_ : Inputs) => Returned IVOther in
  let b := accept ex_transpose01 ex_w0 3 (new_batcher 4) in
  let r := batch_infer ex_collate ex_argmax1 forward true CPU 4 b empty_world in
  forward (forward_calls empty_world) (batch_inputs ex_collate CPU b) = Returned IVOther /\
  r.1 = Throw (RuntimeError "Expected inference result to be tuple.") /\
  m_inferred_features_queue r.2 = [].
Proof.
  intros forward b r.
  assert (forward (forward_calls empty_world) (batch_inputs ex_collate CPU b)
          = Returned IVOther) as Hret by reflexivity.
  split; [exact Hret|].
  destruct (failed_flush_delivers_nothing ex_collate ex_argmax1 forward true CPU 4 b
              empty_world) as (_ & Hthrow & _).
  split; [exact (Hthrow Hret)|]. vm_compute. reflexivity.
Defined.

Lemma index_failure_ends_construction_witness :
  let starts_with := fun s p : string => String.prefix p s in
  let parse := fun _ : string => @nil string in
  let c := construct false starts_with parse (fun _ _ => 0) "reads.fastq" "cpu" 3 8
                     false (-1) in
  -1 <> 0 /\
  c_thrown c = Some (RuntimeError EmptyString) /\
  c_log c = [LogError "Failed to build index for file reads.fastq"] /\
  c_infer_threads c = [mkInferThread "cpu" 0 8] /\
  c_decode_threads c = 4%nat /\
  ending c = ProcessTerminated.
Proof.
  intros starts_with parse c.
  assert (-1 <> 0) as Hfail by lia.
  split; [exact Hfail|].
  destruct (index_failure_ends_construction false starts_with parse (fun _ _ => 0)
              "reads.fastq" "cpu" 3 8 (-1) Hfail) as (Hlate & _).
  destruct (Hlate eq_refl)
    as (_ & _ & _ & _ & Hthrown & Hlog & _ & Hdecode & _ & _ & Hend).
  split; [exact Hthrown|]. split; [exact Hlog|].
  split; [vm_compute; reflexivity|]. split; [exact Hdecode|]. exact Hend.
Defined.
